(** * Coin: the counterfeit-coin weighing solver (coin.c)

    A shallow embedding of the strategy engine of [coin.c] and the
    properties of its sequential (decision tree) and static (base-3 code)
    solvers.

    Conventions of the embedding.
    - A C [int] is a [Z].  The program never relies on wrap-around (signed
      overflow is undefined in C); every quantity stays below [3^k] or
      [2 * n_coins + 2].  The arithmetic of [Z] is therefore that of [int]
      as long as these quantities fit in an [int]: for
      [2 * n_coins + 2 <= INT_MAX] in the sequential search, and for at most
      19 weighings ([3^19 < INT_MAX < 3^20]), that is at most
      [n_sat 19 = 581130732] coins, in the static strategy.  Beyond these
      bounds the C program overflows and the embedding says nothing about
      it: the properties that range over the number of coins, the number of
      weighings or the codes carry the bounds as hypotheses.
      [/] and [%] are C's truncating operators, [Z.quot] and [Z.rem].
    - An [int *] array is the list of its cells.  A possibility set is an
      array closed by the token [INT_MAX]; the scanning loops stop at the
      first token, exactly as the C loops do.
    - A computation returns a [result]: a value, a call of [exit], an access
      outside an array (undefined in C), or the end of the fuel given to a
      recursion that C leaves unbounded. *)

From Stdlib Require Import ZArith Lia.
From stdpp Require Import base tactics option list numbers sets sorting.

Local Open Scope Z_scope.

(** ** Results of computations *)

Inductive result (A : Type) : Type :=
| Ret (a : A)            (* normal return *)
| Exit (status : Z)      (* the process ends in exit(status) *)
| Fault                  (* a cell outside an array is accessed *)
| Timeout.               (* the fuel of the model ran out *)

Arguments Ret {A} a.
Arguments Exit {A} status.
Arguments Fault {A}.
Arguments Timeout {A}.

Definition rbind {A B : Type} (m : result A) (f : A -> result B) : result B :=
  match m with
  | Ret a => f a
  | Exit s => Exit s
  | Fault => Fault
  | Timeout => Timeout
  end.

Global Instance result_bind : MBind result := fun A B f m => rbind m f.

(** Reading cell [i] of an array. *)
Definition rd (a : list Z) (i : Z) : result Z :=
  if i <? 0 then Fault
  else match a !! Z.to_nat i with
       | Some x => Ret x
       | None => Fault
       end.

(** [for(j = 0; j < n; j++) out[j] = f(j)], the cells written in order. *)
Fixpoint tabulate_from (f : Z -> result Z) (j : Z) (n : nat) : result (list Z) :=
  match n with
  | O => Ret []
  | S n' => x ← f j; r ← tabulate_from f (j + 1) n'; Ret (x :: r)
  end.

Definition tabulate (f : Z -> result Z) (n : Z) : result (list Z) :=
  tabulate_from f 0 (Z.to_nat n).

(** ** Basic definitions *)

Definition INT_MAX : Z := 2147483647.

(** [enum{ C_EQUAL = 0, C_MORE, C_LESS, C_DOUBLE }] *)
Inductive ctype : Type := C_EQUAL | C_MORE | C_LESS | C_DOUBLE.

Global Instance ctype_eq_dec : EqDecision ctype.
Proof. solve_decision. Defined.


Definition balance (x y : Z) : ctype :=
  if x <? y then C_LESS
  else if x =? y then C_EQUAL
  else C_MORE.

(** An array indexed by the enumeration ([int size[4]], [int *sel[4]],
    [int *r[3]]) is a function of [ctype]; [upd] assigns one cell. *)
Definition upd {A : Type} (f : ctype -> A) (t : ctype) (v : A) : ctype -> A :=
  fun t' => if decide (t' = t) then v else f t'.

Record coin_cfg : Type := mk_cfg {
  all_equal : Z;
  size : ctype -> Z;
  sel : ctype -> list Z
}.

(** [new_coins]: [{0, 1, ..., n, -1, ..., -n, INT_MAX}].  The C code
    computes the size [2 * n_coins + 2] of the array in [int]: the list is
    the array for [2 * n_coins + 2 <= INT_MAX]. *)
Definition new_coins (n_coins : Z) : list Z :=
  0 :: seqZ 1 n_coins ++ ((fun k => - k) <$> seqZ 1 n_coins) ++ [INT_MAX].

(** [npos]: the cells before the token. *)
Fixpoint npos (poss : list Z) : result Z :=
  match poss with
  | [] => Fault
  | x :: poss' =>
      if x =? INT_MAX then Ret 0 else np ← npos poss'; Ret (np + 1)
  end.

(** [add_int x s n]: [realloc] to [n] cells, then [s[n - 1] = x].  Every
    caller passes [n = length s + 1], an append. *)
Definition add_int (x : Z) (s : list Z) (n : Z) : list Z :=
  take (Z.to_nat (n - 1)) s ++ [x].

Definition num_pos (cfg : coin_cfg) : Z :=
  size cfg C_LESS + size cfg C_MORE + size cfg C_DOUBLE * 2 + all_equal cfg.

(** The [while] loop of [get_cfg] for coin [k]: the state is
    [(hit, type, cfg->all_equal)]. *)
Fixpoint get_cfg_scan (k : Z) (cl : list Z) (st : Z * ctype * Z)
  : result (Z * ctype * Z) :=
  match cl with
  | [] => Fault
  | ci :: cl' =>
      if ci =? INT_MAX then Ret st
      else
        let '(hit, type, ae) := st in
        if (ci >? 0) && (ci - 1 =? k) then get_cfg_scan k cl' (hit + 1, C_MORE, ae)
        else if (ci <? 0) && (- ci - 1 =? k) then get_cfg_scan k cl' (hit + 1, C_LESS, ae)
        else if ci =? 0 then get_cfg_scan k cl' (hit, type, 1)
        else get_cfg_scan k cl' st
  end.

(** One iteration of the [for] loop of [get_cfg]. *)
Definition get_cfg_step (c : list Z) (cfg : coin_cfg) (k : Z) : result coin_cfg :=
  '(hit, type, ae) ← get_cfg_scan k c (0, C_EQUAL, all_equal cfg);
  let type := if hit =? 2 then C_DOUBLE else type in
  let n := size cfg type + 1 in
  Ret {| all_equal := ae;
         size := upd (size cfg) type n;
         sel := upd (sel cfg) type (add_int k (sel cfg type) n) |}.

Fixpoint get_cfg_loop (c : list Z) (ks : list Z) (cfg : coin_cfg) : result coin_cfg :=
  match ks with
  | [] => Ret cfg
  | k :: ks' => cfg' ← get_cfg_step c cfg k; get_cfg_loop c ks' cfg'
  end.

Definition cfg_zero : coin_cfg :=
  {| all_equal := 0; size := fun _ => 0; sel := fun _ => [] |}.

Definition get_cfg (c : list Z) (n : Z) : result coin_cfg :=
  get_cfg_loop c (seqZ 0 n) cfg_zero.

(** [get_nkl]: the numbers [n1, n2, k, l] of case B. *)
Definition get_nkl (cfg : coin_cfg) : Z * Z * Z * Z :=
  let n_more := size cfg C_MORE in
  let n_less := size cfg C_LESS in
  let np := n_more + n_less in
  let '(n1, n2, l) :=
    if Z.rem np 3 =? 0 then
      if negb (Z.rem n_more 2 =? 0)
      then let n1 := Z.quot (n_more + 1) 2 in (n1, Z.quot (n_less - n1 + 2) 3, 2)
      else let n1 := Z.quot n_more 2 in (n1, Z.quot (n_less - n1) 3, 0)
    else if Z.rem np 3 =? 1 then
      if negb (Z.rem n_more 2 =? 0)
      then let n1 := Z.quot (n_more + 1) 2 in (n1, Z.quot (n_less - n1 + 1) 3, 1)
      else let n1 := Z.quot n_more 2 in (n1, Z.quot (n_less - n1 - 1) 3, 0)
    else if Z.rem np 3 =? 2 then
      if negb (Z.rem n_more 2 =? 0)
      then let n1 := Z.quot (n_more - 1) 2 in (n1, Z.quot (n_less - n1 - 1) 3, -1)
      else let n1 := Z.quot n_more 2 in (n1, Z.quot (n_less - n1 + 1) 3, 0)
    else (0, 0, 0) in
  let k := 2 * n1 + n2 - n_more - l in
  (n1, n2, k, l).

Definition switch_more_less (c : coin_cfg) : coin_cfg :=
  {| all_equal := all_equal c;
     size := upd (upd (size c) C_LESS (size c C_MORE)) C_MORE (size c C_LESS);
     sel := upd (upd (sel c) C_LESS (sel c C_MORE)) C_MORE (sel c C_LESS) |}.

(** [get_sel_A]: returns [(n, s1, s2)]. *)
Definition get_sel_A (cfg : coin_cfg) : result (Z * list Z * list Z) :=
  let m := size cfg C_DOUBLE in
  let '(n, l) :=
    if Z.rem m 3 =? 0 then (Z.quot m 3, 0)
    else if Z.rem m 3 =? 1 then
      if negb (size cfg C_EQUAL =? 0) then (Z.quot (m + 2) 3, 1)
      else (Z.quot (m - 1) 3, 0)
    else if Z.rem m 3 =? 2 then (Z.quot (m + 1) 3, 0)
    else (0, 0) in
  s1 ← tabulate (fun j => rd (sel cfg C_DOUBLE) j) n;
  s2 ← (if l =? 0 then tabulate (fun j => rd (sel cfg C_DOUBLE) (j + n)) n
         else
           s ← tabulate (fun j => rd (sel cfg C_DOUBLE) (j + n)) (n - 1);
           e ← rd (sel cfg C_EQUAL) 0;
           Ret (s ++ [e]));
  Ret (n, s1, s2).

Definition nkl_negative (r : Z * Z * Z * Z) : bool :=
  let '(n1, n2, k, l) := r in (n1 <? 0) || (n2 <? 0) || (k <? 0).

(** The part of [get_sel_B] after the numbers are fixed: the cells of [s1]
    and [s2] are written in increasing order of [j]. *)
Definition get_sel_B_fill (cfg : coin_cfg) (r : Z * Z * Z * Z)
  : result (Z * list Z * list Z) :=
  let n_more := size cfg C_MORE in
  let '(n1, n2, k, l) := r in
  let ns := n1 + n2 + (if l <? 0 then - l else 0) in
  a1 ← tabulate (fun j => rd (sel cfg C_MORE) j) n1;
  a2 ← tabulate (fun j => rd (sel cfg C_LESS) j) n2;
  a3 ← (if l <? 0 then e ← rd (sel cfg C_EQUAL) 0; Ret [e] else Ret []);
  b1 ← tabulate (fun j => rd (sel cfg C_MORE) (j + n1)) (n_more - n1);
  b2 ← tabulate (fun j => rd (sel cfg C_LESS) (j + n2)) k;
  b3 ← tabulate (fun i => rd (sel cfg C_EQUAL) i) l;
  Ret (ns, a1 ++ a2 ++ a3, b1 ++ b2 ++ b3).

(** [get_sel_B]; [return 0] leaves [s1] and [s2] unset. *)
Definition get_sel_B (cfg : coin_cfg) : result (Z * list Z * list Z) :=
  let r := get_nkl cfg in
  if nkl_negative r then
    let cfg' := switch_more_less cfg in
    let r' := get_nkl cfg' in
    if nkl_negative r' then Ret (0, [], [])
    else get_sel_B_fill cfg' r'
  else get_sel_B_fill cfg r.

Definition getselection (cfg : coin_cfg) : result (Z * list Z * list Z) :=
  if (size cfg C_MORE =? 0) && (size cfg C_LESS =? 0) && negb (all_equal cfg =? 0)
  then get_sel_A cfg
  else if (size cfg C_DOUBLE =? 0) && (all_equal cfg =? 0)
  then get_sel_B cfg
  else Exit 1.

(** [sum]: the loop over [s[0 .. len-1]], from cell [k] with [n] to go.
    The cell is read before the tests on [c]; C reads it only when
    [c != 0], so for a [len] beyond the selection the model can fault where
    C does not.  The callers pass the length of the selection. *)
Fixpoint sum_from (c : Z) (s : list Z) (k : Z) (n : nat) : result Z :=
  match n with
  | O => Ret 0
  | S n' =>
      x ← rd s k;
      if (c >? 0) && (c - 1 =? x) then Ret 1
      else if (c <? 0) && (- c - 1 =? x) then Ret (-1)
      else sum_from c s (k + 1) n'
  end.

Definition sum (c : Z) (s : list Z) (len : Z) : result Z :=
  sum_from c s 0 (Z.to_nat len).

(** [weigh]: the [while] loop, with the arrays [r] and [n]. *)
Fixpoint weigh_loop (c s1 s2 : list Z) (len : Z)
    (r : ctype -> list Z) (n : ctype -> Z) : result ((ctype -> list Z) * (ctype -> Z)) :=
  match c with
  | [] => Fault
  | ci :: c' =>
      if ci =? INT_MAX then Ret (r, n)
      else
        x ← sum ci s1 len;
        y ← sum ci s2 len;
        let bal := balance x y in
        let nb := n bal + 1 in
        weigh_loop c' s1 s2 len (upd r bal (add_int ci (r bal) nb)) (upd n bal nb)
  end.

Definition weigh (c s1 s2 : list Z) (len : Z) : result (ctype -> list Z) :=
  '(r, n) ← weigh_loop c s1 s2 len (fun _ => []) (fun _ => 0);
  Ret (fun t =>
         match t with
         | C_DOUBLE => r t
         | _ => add_int INT_MAX (r t) (n t + 1)
         end).

Definition max3 (a b c : Z) : Z :=
  let mab := if a >? b then a else b in
  if mab >? c then mab else c.

(** [split_selection], with the recursive call of [weigh_sequential] as an
    argument. *)
Definition split_selection (rec : list Z -> Z -> result Z)
    (c : list Z) (nc : Z) (s1 s2 : list Z) (k : Z) : result Z :=
  cr ← weigh c s1 s2 k;
  r1 ← rec (cr C_MORE) nc;
  r2 ← rec (cr C_EQUAL) nc;
  r3 ← rec (cr C_LESS) nc;
  Ret (1 + max3 r1 r2 r3).

Fixpoint weigh_sequential (fuel : nat) (c : list Z) (nc : Z) : result Z :=
  match fuel with
  | O => Timeout
  | S fuel' =>
      cfg ← get_cfg c nc;
      if num_pos cfg <=? 1 then Ret 0
      else
        '(n_sel, sl1, sl2) ← getselection cfg;
        if n_sel >? 0 then split_selection (weigh_sequential fuel') c nc sl1 sl2 n_sel
        else Exit 0
  end.

(** ** The static strategy *)

(** Writing cell [i] of an array. *)
Definition wr (a : list Z) (i : Z) (v : Z) : result (list Z) :=
  if (i <? 0) || (Z.of_nat (length a) <=? i) then Fault
  else Ret (<[Z.to_nat i := v]> a).

(** [ipow]: [while(n--) r *= x].  The product is that of [int] as long as
    it fits: for [x = 3], up to [n = 19]. *)
Fixpoint ipow_loop (x r : Z) (n : nat) : Z :=
  match n with
  | O => r
  | S n' => ipow_loop x (r * x) n'
  end.

Definition ipow (x : Z) (n : nat) : Z := ipow_loop x 1 n.

(** [op]: the loop [for(; x; x /= 3, c *= 3)].  Each round divides [x] by
    3, so it ends within [log2 |x| + 1] rounds, the fuel given here.  The
    numbers [c] and [s] are those of [int] for [|x| < 3^19]. *)
Fixpoint op_loop (fuel : nat) (x c s : Z) : Z :=
  match fuel with
  | O => s
  | S fuel' =>
      if x =? 0 then s
      else
        let s' := if Z.rem x 3 =? 1 then s + 2 * c
                  else if Z.rem x 3 =? 2 then s + c
                  else s in
        op_loop fuel' (Z.quot x 3) (c * 3) s'
  end.

Definition op (x : Z) : Z :=
  op_loop (S (Z.to_nat (Z.log2 (Z.abs x)))) x 1 0.

(** [digit]: [while(n-- > 0) x /= 3; return x % 3]. *)
Fixpoint digit (x : Z) (n : nat) : Z :=
  match n with
  | O => Z.rem x 3
  | S n' => digit (Z.quot x 3) n'
  end.

(** [isfree]: the loop from cell [j] with [n] to go. *)
Fixpoint isfree_from (t : Z) (hcode : list Z) (j : Z) (n : nat) : result bool :=
  match n with
  | O => Ret true
  | S n' =>
      h ← rd hcode j;
      if (t =? h) || (t =? op h) then Ret false
      else isfree_from t hcode (j + 1) n'
  end.

Definition isfree (t : Z) (hcode : list Z) (nc : Z) : result bool :=
  isfree_from t hcode 0 (Z.to_nat nc).

(** [missing]: first the marking loop over [b[0 .. n-1]], then the scan of
    [t[1 .. N]]. *)
Fixpoint missing_mark (b : list Z) (t : list Z) (k : Z) (n : nat) : result (list Z) :=
  match n with
  | O => Ret t
  | S n' =>
      x ← rd b k;
      t1 ← wr t x 1;
      t2 ← wr t1 (op x) 1;
      missing_mark b t2 (k + 1) n'
  end.

Fixpoint missing_scan (t : list Z) (k : Z) (n : nat) : result Z :=
  match n with
  | O => Exit 0
  | S n' =>
      x ← rd t k;
      if x =? 0 then Ret k else missing_scan t (k + 1) n'
  end.

Definition missing (b : list Z) (n N : Z) : result Z :=
  t ← missing_mark b (replicate (Z.to_nat (N + 1)) 0) 0 (Z.to_nat n);
  missing_scan t 1 (Z.to_nat N).

(** [qsort(b, n, sizeof(int), compare)]: the first [n] cells in ascending
    order; [compare] is the order of the integers. *)
Definition qsort (b : list Z) (n : Z) : list Z :=
  merge_sort Z.le (take (Z.to_nat n) b) ++ drop (Z.to_nat n) b.

(** The [for] loop of [getbase]: [b[n + j] = b[j] + c; b[2 * n + j] = b[j] + 2 * c]. *)
Fixpoint getbase_copy (b : list Z) (c n : Z) (j : Z) (m : nat) : result (list Z) :=
  match m with
  | O => Ret b
  | S m' =>
      x ← rd b j;
      b1 ← wr b (n + j) (x + c);
      y ← rd b1 j;
      b2 ← wr b1 (2 * n + j) (y + 2 * c);
      getbase_copy b2 c n (j + 1) m'
  end.

(** [getbase k b]: for [k < 2] the C recursion never reaches [k == 2].
    The codes written are below [3^k]: those of [int] for [k <= 19]. *)
Fixpoint getbase (k : nat) (b : list Z) : result (list Z) :=
  match k with
  | O => Timeout
  | S k' =>
      if (k =? 2)%nat then
        b1 ← wr b 0 1; b2 ← wr b1 1 8; wr b2 2 3
      else
        b0 ← getbase k' b;
        let c := ipow 3 k' in
        let n := Z.quot c 2 - 1 in
        m ← missing b0 n (c - 1);
        b1 ← getbase_copy b0 c n 0 (Z.to_nat n);
        let j := n in
        b2 ← wr b1 (2 * n + j) (2 * c);
        b3 ← wr b2 (2 * n + j + 1) m;
        b4 ← wr b3 (2 * n + j + 2) (c + op m);
        Ret (qsort b4 (Z.quot (ipow 3 k) 2 - 1))
  end.

(** The checks of [print_static]: in every round the two arms get the same,
    nonzero, number of coins. *)
Fixpoint count_digit (hcode : list Z) (i : nat) (d : Z) (j : Z) (n : nat) : result Z :=
  match n with
  | O => Ret 0
  | S n' =>
      h ← rd hcode j;
      r ← count_digit hcode i d (j + 1) n';
      Ret (if digit h i =? d then r + 1 else r)
  end.

Fixpoint print_static_rounds (i : nat) (nc : Z) (hcode : list Z) : result unit :=
  match i with
  | O => Ret tt
  | S i' =>
      n1 ← count_digit hcode i' 1 0 (Z.to_nat nc);
      n2 ← count_digit hcode i' 2 0 (Z.to_nat nc);
      if (n1 =? 0) || negb (n1 =? n2) then Exit 1
      else print_static_rounds i' nc hcode
  end.

Definition print_static (k : nat) (nc : Z) (hcode : list Z) : result unit :=
  print_static_rounds k nc hcode.

(** [mcomplement]: the loop over the [k] lowest digits; [c] reaches [3^k],
    an [int] for [k <= 19]. *)
Fixpoint mcomplement_loop (m hc : Z) (k : nat) (c s : Z) : Z :=
  match k with
  | O => s
  | S k' =>
      let r := Z.rem m 3 in
      let rh := Z.rem hc 3 in
      if r =? 0 then mcomplement_loop (Z.quot m 3) (Z.quot hc 3) k' (c * 3) (s + rh * c)
      else if negb (rh =? 0) then 0
      else mcomplement_loop (Z.quot m 3) (Z.quot hc 3) k' (c * 3)
             (s + (if r =? 1 then 2 else 1) * c)
  end.

Definition mcomplement (m hc : Z) (k : nat) : Z := mcomplement_loop m hc k 1 0.

(** [add]: the inner loop over [j] returns the new table at the first
    success; the outer loop over [m] ends in [exit(0)].  The bound
    [ipow 3 k - 1] of the outer loop is that of [int] for [k <= 19]. *)
Fixpoint add_inner (hc : list Z) (k : nat) (nc m : Z) (j : Z) (n : nat)
  : result (option (list Z)) :=
  match n with
  | O => Ret None
  | S n' =>
      h ← rd hc j;
      let t := mcomplement m h k in
      fr ← (if t =? 0 then Ret false else isfree t hc nc);
      if fr : bool then
        hc1 ← wr hc j t;
        hc2 ← wr hc1 nc m;
        Ret (Some (qsort hc2 (nc + 1)))
      else add_inner hc k nc m (j + 1) n'
  end.

Fixpoint add_outer (hc : list Z) (k : nat) (nc : Z) (m : Z) (n : nat) : result (list Z) :=
  match n with
  | O => Exit 0
  | S n' =>
      fr ← isfree m hc nc;
      if negb fr then add_outer hc k nc (m + 1) n'
      else
        o ← add_inner hc k nc m 0 (Z.to_nat nc);
        match o with
        | Some hc' => Ret hc'
        | None => add_outer hc k nc (m + 1) n'
        end
  end.

Definition add (hc : list Z) (k : nat) (nc : Z) : result (list Z) :=
  add_outer hc k nc 1 (Z.to_nat (ipow 3 k - 1)).

(** [weigh_static]: the search of the closest base solution, from [k].
    It stops at some [k <= 19], with [ipow 3 k] in [int], for
    [n_coins <= n_sat 19]. *)
Fixpoint find_base (fuel : nat) (k : nat) (n n_coins : Z) : result (nat * Z) :=
  match fuel with
  | O => Timeout
  | S fuel' =>
      let n_base := Z.quot (ipow 3 k - 1) 2 - 1 in
      let n := if n_base <=? n_coins then n_base else n in
      if n_base >=? n_coins then Ret (k, n)
      else find_base fuel' (S k) n n_coins
  end.

(** [while(n < n_coins) add(hcode, k, n++)] *)
Fixpoint add_coins (hcode : list Z) (k : nat) (n : Z) (todo : nat) : result (list Z) :=
  match todo with
  | O => Ret hcode
  | S todo' => hc ← add hcode k n; add_coins hc k (n + 1) todo'
  end.

(** The table [hcode] at the point where [weigh_static] prints it. *)
Definition weigh_static_table (fuel : nat) (n_coins : Z) : result (nat * list Z) :=
  '(k, n) ← find_base fuel 2 0 n_coins;
  let hcode := replicate (Z.to_nat n_coins) 0 in
  hc ← getbase (if n =? n_coins then k else (k - 1)%nat) hcode;
  hc' ← add_coins hc k n (Z.to_nat (n_coins - n));
  Ret (k, hc').

Definition weigh_static (fuel : nat) (n_coins : Z) : result Z :=
  '(k, hcode) ← weigh_static_table fuel n_coins;
  _ ← print_static k n_coins hcode;
  Ret (Z.of_nat k).

(** ** Notions used in the statements *)

(** The value [sum] returns when every cell of the selection is read. *)
Definition on_arm (c : Z) (s : list Z) : Z :=
  if decide (0 < c /\ c - 1 ∈ s) then 1
  else if decide (c < 0 /\ - c - 1 ∈ s) then -1
  else 0.

(** The outcome of the scale for hypothesis [ci]. *)
Definition outcome (s1 s2 : list Z) (ci : Z) : ctype :=
  balance (on_arm ci s1) (on_arm ci s2).

(** Closed decidable facts are settled by evaluation. *)
Ltac by_compute := apply (bool_decide_unpack _); vm_compute; exact I.

(** The [size] cells of a configuration count the cells of its [sel] arrays. *)
Definition cfg_wf (cfg : coin_cfg) : Prop :=
  forall t, size cfg t = Z.of_nat (length (sel cfg t)).

(** Linear arithmetic with C's and Rocq's division by constants. *)
Ltac zlia := Z.quot_rem_to_equations; Z.div_mod_to_equations; lia.

(** Seven coins after a first balanced weighing of two coins: DOUBLE coins
    0..3, EQUAL coins 4..6 (coin numbers from 0). *)
Definition cfg_A_4_3 : coin_cfg :=
  {| all_equal := 1;
     size := fun t => match t with C_DOUBLE => 4 | C_EQUAL => 3 | _ => 0 end;
     sel := fun t => match t with
                     | C_DOUBLE => [0; 1; 2; 3]
                     | C_EQUAL => [4; 5; 6]
                     | _ => []
                     end |}.

(** The role of coin [k] (numbered from 0) in a set [P] of hypotheses. *)
Definition coin_type (P : list Z) (k : Z) : ctype :=
  if decide (k + 1 ∈ P)
  then if decide (- k - 1 ∈ P) then C_DOUBLE else C_MORE
  else if decide (- k - 1 ∈ P) then C_LESS else C_EQUAL.

(** The coins of role [t] among the coins [0 .. n-1], in ascending order. *)
Definition coins_of (P : list Z) (n : Z) (t : ctype) : list Z :=
  filter (fun k => coin_type P k = t) (seqZ 0 n).

(** The hypotheses "coin [k] is heavy" and "coin [k] is light". *)
Definition pos_hyp (k : Z) : Z := k + 1.
Definition neg_hyp (k : Z) : Z := - k - 1.

(** The base-3 digit swap of one digit. *)
Definition swap_digit (d : Z) : Z :=
  if d =? 1 then 2 else if d =? 2 then 1 else 0.

(** [t] is neither a code of the table [T] nor the complement of one. *)
Definition free_in (T : list Z) (t : Z) : Prop :=
  Forall (fun h => t <> h /\ t <> op h) T.

(** The largest number of coins that [k] fixed weighings settle. *)
Definition n_sat (k : nat) : Z := (3 ^ Z.of_nat k - 1) / 2 - 1.

(** The uniqueness invariant of a code table: two distinct coins have
    different codes, and the code of one is not the complement of the code
    of the other. *)
Definition unique_codes (T : list Z) : Prop :=
  forall (i j : nat) (x y : Z),
    i <> j -> T !! i = Some x -> T !! j = Some y -> x <> y /\ x <> op y.

(** The invariant kept by the builder for [k] weighings: codes of [k]
    digits, not 0, and the codes and their complements all distinct. *)
Definition codes_ok (k : nat) (T : list Z) : Prop :=
  Forall (fun x => 1 <= x < 3 ^ Z.of_nat k) T /\ NoDup (T ++ (op <$> T)).

(** The recursion behind the loop of [mcomplement]: [None] when a nonzero
    digit of [m] meets a nonzero digit of [hc]. *)
Fixpoint mcomplement_digits (m hc : Z) (k : nat) : option Z :=
  match k with
  | O => Some 0
  | S k' =>
      let r := m mod 3 in
      let rh := hc mod 3 in
      if r =? 0 then
        t ← mcomplement_digits (m / 3) (hc / 3) k'; Some (rh + 3 * t)
      else if negb (rh =? 0) then None
      else t ← mcomplement_digits (m / 3) (hc / 3) k'; Some (swap_digit r + 3 * t)
  end.

(** The tables the static builder produces for [k] weighings in an array
    [hc], with the number of coins coded so far: a saturated table of
    [getbase] for at most [k] weighings, and then one [add] with [k]
    weighings after the other, as in [weigh_static]. *)
Inductive produced (k : nat) : list Z -> Z -> Prop :=
| produced_base (k0 : nat) (b hc : list Z) :
    (2 <= k0 <= k)%nat ->
    n_sat k0 <= Z.of_nat (length b) ->
    getbase k0 b = Ret hc ->
    produced k hc (n_sat k0)
| produced_add (hc hc' : list Z) (nc : Z) :
    produced k hc nc ->
    add hc k nc = Ret hc' ->
    produced k hc' (nc + 1).

(** The number of hypotheses of [P] with outcome [t]. *)
Definition outcome_count (s1 s2 P : list Z) (t : ctype) : nat :=
  length (filter (fun x => outcome s1 s2 x = t) P).

(** The configuration [get_cfg] returns for the possibility set [P]. *)
Definition classified (P : list Z) (n : Z) : coin_cfg :=
  match get_cfg (P ++ [INT_MAX]) n with
  | Ret cfg => cfg
  | _ => cfg_zero
  end.

(** A set of hypotheses of type A: "no fake" is possible, and a coin that
    may be heavy may be light as well. *)
Definition type_A (P : list Z) : Prop :=
  0 ∈ P /\ forall c, 0 <= c -> (pos_hyp c ∈ P <-> neg_hyp c ∈ P).

(** A set of hypotheses of type B: some coin is fake, and no coin may be
    both heavy and light. *)
Definition type_B (P : list Z) : Prop :=
  (0 ∉ P) /\ forall c, 0 <= c -> ~ (pos_hyp c ∈ P /\ neg_hyp c ∈ P).

(** The EQUAL coins left for borrowing, for [n] coins: a node of type A with
    [m] DOUBLE coins has [n - m] of them, a node of type B with [np]
    hypotheses has [n - np]. *)
Definition slack_A (n m : Z) : Prop := 2 <= n - m \/ (n = m /\ 3 <= m).
Definition slack_B (n np : Z) : Prop := 2 <= n - np \/ (1 <= n - np /\ np mod 3 <> 0).

(** The possibility sets the search meets for [n] coins. *)
Definition node_ok (n : Z) (P : list Z) : Prop :=
  NoDup P /\ (forall x, x ∈ P -> - n <= x <= n) /\
  (type_A P /\ slack_A n ((Z.of_nat (length P) - 1) / 2) \/
   type_B P /\ slack_B n (Z.of_nat (length P))).

(** The hypotheses of [P] with outcome [t]. *)
Definition child (s1 s2 P : list Z) (t : ctype) : list Z :=
  filter (fun x => outcome s1 s2 x = t) P.

(** The arrays [weigh_sequential] is called on, from the initial set of [n]
    coins: the array of a call that passes the test [num_pos <= 1] and gets
    a selection gives rise to the three arrays of [weigh]. *)
Inductive reachable (n : Z) : list Z -> Prop :=
| reachable_root : reachable n (new_coins n)
| reachable_child (c : list Z) (cfg : coin_cfg) (ns : Z) (s1 s2 : list Z)
    (cr : ctype -> list Z) (t : ctype) :
    reachable n c ->
    get_cfg c n = Ret cfg -> 1 < num_pos cfg ->
    getselection cfg = Ret (ns, s1, s2) -> 0 < ns ->
    weigh c s1 s2 ns = Ret cr ->
    t <> C_DOUBLE ->
    reachable n (cr t).

(** [d] is the least number [d >= 0] with [x <= 3 ^ d]: the number of
    three-way weighings needed to tell [x] hypotheses apart. *)
Definition depth_of (x d : Z) : Prop :=
  0 <= d /\ x <= 3 ^ d /\ (0 < d -> 3 ^ (d - 1) < x).

(** ** The static builder on tables

    The loops of [isfree], [add], [missing] and [getbase] read the first
    cells of the array only; the functions below are these loops on the table
    in the first cells, with the codes and complements in use collected once
    in [U]. *)

(** [t] is a cell of [U]. *)
Definition usedb (U : list Z) (t : Z) : bool := existsb (Z.eqb t) U.

(** The inner loop of [add]: the first cell, from cell [j] on, whose code
    takes the complement of the digits of [m], with the new code. *)
Fixpoint add_find_cell (U : list Z) (k : nat) (m : Z) (T : list Z) (j : nat)
  : option (nat * Z) :=
  match T with
  | [] => None
  | h :: T' =>
      let t := mcomplement m h k in
      if negb (t =? 0) && negb (usedb U t) then Some (j, t)
      else add_find_cell U k m T' (S j)
  end.

(** The outer loop of [add], over [m], [m + 1], ... ([n] values). *)
Fixpoint add_find_code (U T : list Z) (k : nat) (m : Z) (n : nat)
  : option (Z * nat * Z) :=
  match n with
  | O => None
  | S n' =>
      if usedb U m then add_find_code U T k (m + 1) n'
      else match add_find_cell U k m T 0 with
           | Some (j, t) => Some (m, j, t)
           | None => add_find_code U T k (m + 1) n'
           end
  end.

(** [add] on the table [T]: [None] stands for the exit with "add failure". *)
Definition add_table (T : list Z) (k : nat) : option (list Z) :=
  match add_find_code (T ++ (op <$> T)) T k 1 (Z.to_nat (3 ^ Z.of_nat k - 1)) with
  | Some (m, j, t) => Some (merge_sort Z.le (<[j := t]> T ++ [m]))
  | None => None
  end.

(** [todo] calls of [add], as in the [while] loop of [weigh_static]. *)
Fixpoint add_tables (T : list Z) (k : nat) (todo : nat) : option (list Z) :=
  match todo with
  | O => Some T
  | S todo' =>
      match add_table T k with
      | Some T' => add_tables T' k todo'
      | None => None
      end
  end.

(** The scan of [missing]: the first of [m], [m + 1], ... ([n] values) that
    is no cell of [U], or 0. *)
Fixpoint least_unused (U : list Z) (m : Z) (n : nat) : Z :=
  match n with
  | O => 0
  | S n' => if usedb U m then least_unused U (m + 1) n' else m
  end.

(** The table [getbase k] writes in the first cells, [k >= 2]. *)
Fixpoint base_table (k : nat) : list Z :=
  match k with
  | O => []
  | S k' =>
      if (k <=? 1)%nat then []
      else if (k =? 2)%nat then [1; 8; 3]
      else
        let T0 := base_table k' in
        let c := 3 ^ Z.of_nat k' in
        let m := least_unused (T0 ++ (op <$> T0)) 1 (Z.to_nat (c - 1)) in
        merge_sort Z.le
          (T0 ++ ((fun x => x + c) <$> T0) ++ ((fun x => x + 2 * c) <$> T0)
              ++ [2 * c; m; c + op m])
  end.

(** The number of codes of the table [T] with digit [d] at position [i]:
    in weighing [i] of the static strategy the coins with digit 1 go on the
    left pan, the coins with digit 2 on the right pan. *)
Definition digit_count (T : list Z) (i : nat) (d : Z) : nat :=
  length (filter (fun h => digit h i = d) T).

(** The test of [print_static] in weighing [i]: both pans hold the same
    number of coins, and this number is not 0. *)
Definition round_ok (T : list Z) (i : nat) : Prop :=
  digit_count T i 1 = digit_count T i 2 /\ (0 < digit_count T i 1)%nat.

(** ** The weighings of the static strategy *)

(** The loop over the coins in weighing [i] of [print_static]: coin [j]
    goes on the left pan [s1] if its code has digit 1 at position [i], on
    the right pan [s2] if it has digit 2.  The state is [(s1, n1, s2, n2)]. *)
Fixpoint print_static_pans (hcode : list Z) (i : nat) (j : Z) (n : nat)
    (st : list Z * Z * list Z * Z) : result (list Z * Z * list Z * Z) :=
  match n with
  | O => Ret st
  | S n' =>
      h ← rd hcode j;
      let '(s1, n1, s2, n2) := st in
      let d := digit h i in
      print_static_pans hcode i (j + 1) n'
        (if d =? 1 then (add_int j s1 (n1 + 1), n1 + 1, s2, n2)
         else if d =? 2 then (s1, n1, add_int j s2 (n2 + 1), n2 + 1)
         else st)
  end.

(** The last loop of [print_static], from weighing [i - 1] down to weighing
    0, with the pans it prints: the first [n1] cells of [s1] and of [s2]
    ([print_vectors(s1, s2, n1)]).  The arrays [s1] and [s2] are kept from
    one weighing to the next, the counters start again at 0. *)
Fixpoint print_static_weighings (i : nat) (nc : Z) (hcode : list Z) (s1 s2 : list Z)
  : result (list (list Z * list Z)) :=
  match i with
  | O => Ret []
  | S i' =>
      '(s1', n1, s2', n2) ← print_static_pans hcode i' 0 (Z.to_nat nc) (s1, 0, s2, 0);
      if (n1 =? 0) || negb (n1 =? n2) then Exit 1
      else
        ws ← print_static_weighings i' nc hcode s1' s2';
        Ret ((take (Z.to_nat n1) s1', take (Z.to_nat n1) s2') :: ws)
  end.


(** The coins, numbered from [j], whose code in [T] has digit [d] at
    position [i]. *)
Fixpoint pan_from (T : list Z) (i : nat) (d : Z) (j : Z) : list Z :=
  match T with
  | [] => []
  | h :: T' =>
      if decide (digit h i = d) then j :: pan_from T' i d (j + 1)
      else pan_from T' i d (j + 1)
  end.

Definition pan (T : list Z) (i : nat) (d : Z) : list Z := pan_from T i d 0.


(** ** The command line *)

(** The options of the command line as [getopt] returns them, one after the
    other: [-n] with the value [atoi(optarg)], [-q], [-s], and anything
    else ([-h], [-?], an option that is not known), for which [main] calls
    [usage]. *)
Inductive cli_option : Type :=
| opt_n (value : Z)
| opt_q
| opt_s
| opt_other.

Global Instance cli_option_eq_dec : EqDecision cli_option.
Proof. solve_decision. Defined.

(** The loop of [main] over the options; the state is
    [(n_coins, verbose, stat)], and [usage] ends the program with status 0. *)
Fixpoint main_options (opts : list cli_option) (st : Z * Z * Z) : result (Z * Z * Z) :=
  match opts with
  | [] => Ret st
  | o :: opts' =>
      let '(n_coins, verbose, stat) := st in
      match o with
      | opt_n v => main_options opts' (v, verbose, stat)
      | opt_q => main_options opts' (n_coins, 0, stat)
      | opt_s => main_options opts' (n_coins, verbose, 1)
      | opt_other => Exit 0
      end
  end.

(** [main], with the number [n_steps] it prints as its result. *)
Definition main (fuel : nat) (opts : list cli_option) : result Z :=
  '(n_coins, verbose, stat) ← main_options opts (12, 1, 0);
  if n_coins <? 3 then Exit 0
  else if negb (stat =? 0) then weigh_static fuel n_coins
  else weigh_sequential fuel (new_coins n_coins) n_coins.

(** The number of coins a command line asks for: the value of the last
    option [-n], 12 without one. *)
Definition cli_n_coins (opts : list cli_option) : Z :=
  fold_left (fun n o => match o with opt_n v => v | _ => n end) opts 12.

(** [compare], the order [qsort] is called with. *)
Definition compare (a1 b1 : Z) : Z :=
  if a1 <? b1 then -1 else if a1 =? b1 then 0 else 1.

(** The values of a C [int] (32 bits). *)
Definition in_int (x : Z) : Prop := - INT_MAX - 1 <= x <= INT_MAX.

(** * Properties *)

(** ** The result monad and the array primitives *)

Lemma rbind_ret {A B : Type} (a : A) (f : A -> result B) :
  (x ← Ret a; f x) = f a.
Proof. reflexivity. Qed.

Lemma rd_lookup (a : list Z) (i : nat) (x : Z) :
  a !! i = Some x -> rd a (Z.of_nat i) = Ret x.
Proof.
  intros H. unfold rd.
  destruct (Z.ltb_spec (Z.of_nat i) 0); [lia|].
  by rewrite Nat2Z.id, H.
Qed.

Lemma rd_Ret (a : list Z) (i x : Z) :
  rd a i = Ret x <-> 0 <= i /\ a !! Z.to_nat i = Some x.
Proof.
  unfold rd. destruct (Z.ltb_spec i 0).
  - split; [discriminate|intros [? _]; lia].
  - destruct (a !! Z.to_nat i) as [y|]; split; intros H1;
      try discriminate; try (destruct H1; congruence); try naive_solver.
Qed.

Lemma tabulate_from_drop (a : list Z) (n : nat) (j : nat) (off : nat) :
  (off + j + n <= length a)%nat ->
  tabulate_from (fun i => rd a (i + Z.of_nat off)) (Z.of_nat j) n
  = Ret (take n (drop (off + j) a)).
Proof.
  revert j. induction n as [|n IH]; intros j Hlen; simpl.
  - reflexivity.
  - destruct (lookup_lt_is_Some_2 a (off + j)%nat) as [x Hx]; [lia|].
    replace (Z.of_nat j + Z.of_nat off) with (Z.of_nat (off + j)) by lia.
    rewrite (rd_lookup _ _ _ Hx). simpl.
    replace (Z.of_nat j + 1) with (Z.of_nat (S j)) by lia.
    rewrite IH by lia. simpl.
    rewrite (drop_S _ _ _ Hx). simpl.
    by replace (off + S j)%nat with (S (off + j)) by lia.
Qed.

Lemma tabulate_nonpos (f : Z -> result Z) (n : Z) :
  n <= 0 -> tabulate f n = Ret [].
Proof. intros H. unfold tabulate. by replace (Z.to_nat n) with O by lia. Qed.

Lemma tabulate_drop (a : list Z) (n off : Z) :
  0 <= off -> 0 <= n -> off + n <= Z.of_nat (length a) ->
  tabulate (fun i => rd a (i + off)) n
  = Ret (take (Z.to_nat n) (drop (Z.to_nat off) a)).
Proof.
  intros Hoff Hn Hlen. unfold tabulate.
  pose proof (tabulate_from_drop a (Z.to_nat n) 0 (Z.to_nat off)) as H.
  rewrite Z2Nat.id in H by lia. rewrite Nat.add_0_r in H.
  apply H. lia.
Qed.

Lemma tabulate_from_ext (f g : Z -> result Z) (j : Z) (n : nat) :
  (forall i, f i = g i) -> tabulate_from f j n = tabulate_from g j n.
Proof.
  intros Hfg. revert j. induction n as [|n IH]; intros j; simpl; [done|].
  by rewrite Hfg, IH.
Qed.

Lemma tabulate_take (a : list Z) (n : Z) :
  n <= Z.of_nat (length a) ->
  tabulate (fun i => rd a i) n = Ret (take (Z.to_nat n) a).
Proof.
  intros Hlen. destruct (Z.le_gt_cases n 0) as [Hn|Hn].
  - rewrite tabulate_nonpos by done. by replace (Z.to_nat n) with O by lia.
  - transitivity (tabulate (fun i => rd a (i + 0)) n).
    + apply tabulate_from_ext. intros i. by rewrite Z.add_0_r.
    + rewrite tabulate_drop by lia. done.
Qed.

Example weigh_sequential_3 : weigh_sequential 10 (new_coins 3) 3 = Ret 2.
Proof. vm_compute. reflexivity. Qed.

Example weigh_sequential_12 : weigh_sequential 10 (new_coins 12) 12 = Ret 3.
Proof. vm_compute. reflexivity. Qed.

Example getbase_3 :
  getbase 3 (replicate 12 0) = Ret [1; 3; 5; 8; 10; 12; 16; 17; 18; 19; 21; 26].
Proof. vm_compute. reflexivity. Qed.

Example weigh_static_12 : weigh_static 10 12 = Ret 3.
Proof. vm_compute. reflexivity. Qed.

(** ** Weighing *)

Lemma on_arm_nil (c : Z) : on_arm c [] = 0.
Proof.
  unfold on_arm. rewrite !decide_False; [done|..]; rewrite elem_of_nil; tauto.
Qed.

Lemma on_arm_cons (c x : Z) (s : list Z) :
  on_arm c (x :: s) =
  if (c >? 0) && (c - 1 =? x) then 1
  else if (c <? 0) && (- c - 1 =? x) then -1
  else on_arm c s.
Proof.
  unfold on_arm.
  destruct (Z.gtb_spec c 0), (Z.eqb_spec (c - 1) x),
    (Z.ltb_spec c 0), (Z.eqb_spec (- c - 1) x); simpl;
    repeat case_decide; try done; try lia; set_unfold; naive_solver lia.
Qed.

Lemma sum_from_spec (c : Z) (s : list Z) (n k : nat) :
  (k + n <= length s)%nat ->
  sum_from c s (Z.of_nat k) n = Ret (on_arm c (take n (drop k s))).
Proof.
  revert k. induction n as [|n IH]; intros k Hlen; simpl.
  - by rewrite on_arm_nil.
  - destruct (lookup_lt_is_Some_2 s k) as [x Hx]; [lia|].
    rewrite (rd_lookup _ _ _ Hx). simpl.
    rewrite (drop_S _ _ _ Hx). simpl.
    replace (Z.of_nat k + 1) with (Z.of_nat (S k)) by lia.
    rewrite IH by lia. rewrite on_arm_cons. by repeat case_match.
Qed.

Lemma sum_spec (c : Z) (s : list Z) (len : Z) :
  len = Z.of_nat (length s) -> sum c s len = Ret (on_arm c s).
Proof.
  intros ->. unfold sum. rewrite Nat2Z.id.
  change 0 with (Z.of_nat 0).
  rewrite (sum_from_spec c s (length s) 0) by lia.
  by rewrite drop_0, firstn_all.
Qed.

Lemma outcome_not_double (s1 s2 : list Z) (ci : Z) : outcome s1 s2 ci <> C_DOUBLE.
Proof. unfold outcome, balance. repeat case_match; done. Qed.

Lemma add_int_app (x : Z) (s : list Z) :
  add_int x s (Z.of_nat (length s) + 1) = s ++ [x].
Proof.
  unfold add_int. replace (Z.to_nat _) with (length s) by lia.
  by rewrite firstn_all.
Qed.

Lemma weigh_loop_spec (P s1 s2 : list Z) (len : Z) (r : ctype -> list Z) (n : ctype -> Z) :
  INT_MAX ∉ P ->
  len = Z.of_nat (length s1) -> len = Z.of_nat (length s2) ->
  (forall t, n t = Z.of_nat (length (r t))) ->
  exists r' n',
    weigh_loop (P ++ [INT_MAX]) s1 s2 len r n = Ret (r', n') /\
    (forall t, r' t = r t ++ filter (fun ci => outcome s1 s2 ci = t) P) /\
    (forall t, n' t = Z.of_nat (length (r' t))).
Proof.
  intros HP H1 H2. revert r n.
  induction P as [|ci P IH]; intros r n Hn; simpl.
  - exists r, n. split; [done|]. split; [|done]. intros t. by rewrite app_nil_r.
  - apply not_elem_of_cons in HP as [Hci HP].
    destruct (Z.eqb_spec ci INT_MAX) as [|_]; [done|].
    rewrite (sum_spec _ _ _ H1), (sum_spec _ _ _ H2). simpl.
    fold (outcome s1 s2 ci).
    set (bal := outcome s1 s2 ci).
    destruct (IH HP (upd r bal (add_int ci (r bal) (n bal + 1))) (upd n bal (n bal + 1)))
      as (r' & n' & Hw & Hr & Hn').
    { intros t. unfold upd. case_decide; [|done].
      subst t. rewrite Hn, add_int_app, length_app. simpl. lia. }
    exists r', n'. split; [done|]. split; [|done].
    intros t. rewrite Hr. unfold upd. rewrite filter_cons.
    case_decide as Ht.
    + subst t. rewrite decide_True by done.
      rewrite Hn, add_int_app. by rewrite <- app_assoc.
    + rewrite decide_False; [done|]. intros E. by apply Ht.
Qed.

Lemma weigh_spec (P s1 s2 : list Z) (len : Z) :
  INT_MAX ∉ P ->
  len = Z.of_nat (length s1) -> len = Z.of_nat (length s2) ->
  exists r,
    weigh (P ++ [INT_MAX]) s1 s2 len = Ret r /\
    forall t, t <> C_DOUBLE ->
      r t = filter (fun ci => outcome s1 s2 ci = t) P ++ [INT_MAX].
Proof.
  intros HP H1 H2. unfold weigh.
  destruct (weigh_loop_spec P s1 s2 len (fun _ => []) (fun _ => 0) HP H1 H2)
    as (r & n & -> & Hr & Hn); [done|].
  eexists. split; [reflexivity|]. intros t Ht. simpl.
  rewrite Hn, add_int_app, Hr. by destruct t.
Qed.

Lemma outcome_split (s1 s2 P : list Z) :
  filter (fun ci => outcome s1 s2 ci = C_MORE) P
  ++ filter (fun ci => outcome s1 s2 ci = C_EQUAL) P
  ++ filter (fun ci => outcome s1 s2 ci = C_LESS) P ≡ₚ P.
Proof.
  induction P as [|ci P IH]; [done|].
  rewrite !filter_cons.
  pose proof (outcome_not_double s1 s2 ci).
  destruct (outcome s1 s2 ci) eqn:E; try done;
    repeat (case_decide; try done); simpl.
  - rewrite <- IH at 4. by rewrite <- Permutation_middle.
  - by rewrite IH.
  - rewrite <- IH at 4.
    rewrite (app_assoc _ _ (ci :: _)), <- Permutation_middle.
    by rewrite <- app_assoc.
Qed.

(** C1. [weigh] splits a possibility set [P] (an array closed by the token)
    with pans [s1], [s2] of [len] coins each into the three arrays of the
    outcomes MORE (left heavy), EQUAL (balanced) and LESS (right heavy):
    together they hold the hypotheses of [P], each exactly as often as [P]
    does, and no hypothesis occurs in two of them. *)
Theorem weigh_partition (P s1 s2 : list Z) (len : Z) :
  INT_MAX ∉ P ->
  len = Z.of_nat (length s1) -> len = Z.of_nat (length s2) ->
  exists (r : ctype -> list Z) (M E L : list Z),
    weigh (P ++ [INT_MAX]) s1 s2 len = Ret r /\
    r C_MORE = M ++ [INT_MAX] /\
    r C_EQUAL = E ++ [INT_MAX] /\
    r C_LESS = L ++ [INT_MAX] /\
    M ++ E ++ L ≡ₚ P /\
    (forall x, x ∈ M -> x ∉ E) /\
    (forall x, x ∈ M -> x ∉ L) /\
    (forall x, x ∈ E -> x ∉ L).
Proof.
  intros HP H1 H2.
  destruct (weigh_spec P s1 s2 len HP H1 H2) as (r & Hw & Hr).
  exists r. do 3 eexists. split; [exact Hw|].
  rewrite !Hr by done. repeat split.
  - apply outcome_split.
  - intros x [Hx _]%list_elem_of_filter [Hx' _]%list_elem_of_filter. congruence.
  - intros x [Hx _]%list_elem_of_filter [Hx' _]%list_elem_of_filter. congruence.
  - intros x [Hx _]%list_elem_of_filter [Hx' _]%list_elem_of_filter. congruence.
Qed.

Lemma weigh_partition_witness :
  exists (r : ctype -> list Z) (M E L : list Z),
    weigh ([0; 1; 2; 3; -1; -2; -3] ++ [INT_MAX]) [0] [1] 1 = Ret r /\
    r C_MORE = M ++ [INT_MAX] /\
    r C_EQUAL = E ++ [INT_MAX] /\
    r C_LESS = L ++ [INT_MAX] /\
    M ++ E ++ L ≡ₚ [0; 1; 2; 3; -1; -2; -3] /\
    (forall x, x ∈ M -> x ∉ E) /\
    (forall x, x ∈ M -> x ∉ L) /\
    (forall x, x ∈ E -> x ∉ L).
Proof.
  apply (weigh_partition [0; 1; 2; 3; -1; -2; -3] [0] [1] 1).
  - by_compute.
  - reflexivity.
  - reflexivity.
Defined.

(** ** The selection of case A *)

Lemma get_sel_A_spec (cfg : coin_cfg) :
  cfg_wf cfg ->
  let m := size cfg C_DOUBLE in
  let e := size cfg C_EQUAL in
  let D := sel cfg C_DOUBLE in
  exists n s1 s2,
    get_sel_A cfg = Ret (n, s1, s2) /\
    s1 = take (Z.to_nat n) D /\
    Z.of_nat (length s1) = n /\ Z.of_nat (length s2) = n /\
    ((m mod 3 = 0 /\ n = m / 3 /\ s2 = take (Z.to_nat n) (drop (Z.to_nat n) D)) \/
     (m mod 3 = 1 /\ 0 < e /\ n = (m + 2) / 3 /\
      exists x, sel cfg C_EQUAL !! 0%nat = Some x /\
                s2 = take (Z.to_nat (n - 1)) (drop (Z.to_nat n) D) ++ [x]) \/
     (m mod 3 = 1 /\ e = 0 /\ n = (m - 1) / 3 /\
      s2 = take (Z.to_nat n) (drop (Z.to_nat n) D)) \/
     (m mod 3 = 2 /\ n = (m + 1) / 3 /\
      s2 = take (Z.to_nat n) (drop (Z.to_nat n) D))).
Proof.
  intros Hwf m e D.
  pose proof (Hwf C_DOUBLE) as HD. pose proof (Hwf C_EQUAL) as HE.
  fold m in HD. fold e in HE. fold D in HD.
  assert (Hm : 0 <= m) by zlia.
  unfold get_sel_A. fold m. fold D. fold e.
  rewrite (Z.rem_mod_nonneg m 3) by zlia.
  assert (m mod 3 = 0 \/ m mod 3 = 1 \/ m mod 3 = 2) as [H3|[H3|H3]] by zlia;
    rewrite H3; simpl.
  - rewrite (Z.quot_div_nonneg m 3) by zlia. remember (m / 3) as n eqn:Hn.
    rewrite tabulate_take by zlia. rewrite tabulate_drop by zlia. simpl.
    do 3 eexists. split; [reflexivity|].
    rewrite !length_take, length_drop. repeat split; try zlia.
    left. done.
  - destruct (Z.eqb_spec e 0) as [He|He]; simpl.
    + rewrite (Z.quot_div_nonneg (m - 1) 3) by zlia. remember ((m - 1) / 3) as n eqn:Hn.
      rewrite tabulate_take by zlia. rewrite tabulate_drop by zlia. simpl.
      do 3 eexists. split; [reflexivity|].
      rewrite !length_take, length_drop. repeat split; try zlia.
      right. right. left. done.
    + rewrite (Z.quot_div_nonneg (m + 2) 3) by zlia. remember ((m + 2) / 3) as n eqn:Hn.
      rewrite tabulate_take by zlia. rewrite tabulate_drop by zlia. simpl.
      destruct (sel cfg C_EQUAL) as [|x E'] eqn:HEq; [simpl in HE; lia|].
      rewrite (rd_lookup _ 0 x) by done. simpl.
      do 3 eexists. split; [reflexivity|].
      rewrite length_app, !length_take, length_drop. simpl. repeat split; try zlia.
      right. left. repeat split; try zlia. exists x. done.
  - rewrite (Z.quot_div_nonneg (m + 1) 3) by zlia. remember ((m + 1) / 3) as n eqn:Hn.
    rewrite tabulate_take by zlia. rewrite tabulate_drop by zlia. simpl.
    do 3 eexists. split; [reflexivity|].
    rewrite !length_take, length_drop. repeat split; try zlia.
    right. right. right. done.
Qed.

Lemma getselection_is_get_sel_A (cfg : coin_cfg) :
  size cfg C_MORE = 0 -> size cfg C_LESS = 0 -> all_equal cfg <> 0 ->
  getselection cfg = get_sel_A cfg.
Proof.
  intros HM HL Hae. unfold getselection. rewrite HM, HL. simpl.
  by destruct (Z.eqb_spec (all_equal cfg) 0) as [|_].
Qed.

(** C6. For a configuration of type A with [m] DOUBLE coins [D] and [e]
    EQUAL coins, the selection has [n] coins on each pan, the left pan holds
    the first [n] coins of [D], and
    - if [m mod 3 = 0] then [n = m / 3] and the right pan holds the next [n]
      coins of [D], no EQUAL coin;
    - if [m mod 3 = 1] and [e > 0] then [n = (m + 2) / 3] and the right pan
      holds the next [n - 1] coins of [D] followed by the first EQUAL coin;
    - if [m mod 3 = 1] and [e = 0] then [n = (m - 1) / 3], and
      if [m mod 3 = 2] then [n = (m + 1) / 3]; in both the right pan holds
      the next [n] coins of [D]. *)
Theorem getselection_type_A (cfg : coin_cfg) :
  cfg_wf cfg ->
  size cfg C_MORE = 0 -> size cfg C_LESS = 0 -> all_equal cfg <> 0 ->
  let m := size cfg C_DOUBLE in
  let e := size cfg C_EQUAL in
  let D := sel cfg C_DOUBLE in
  exists n s1 s2,
    getselection cfg = Ret (n, s1, s2) /\
    s1 = take (Z.to_nat n) D /\
    Z.of_nat (length s1) = n /\ Z.of_nat (length s2) = n /\
    ((m mod 3 = 0 /\ n = m / 3 /\ s2 = take (Z.to_nat n) (drop (Z.to_nat n) D)) \/
     (m mod 3 = 1 /\ 0 < e /\ n = (m + 2) / 3 /\
      exists x, sel cfg C_EQUAL !! 0%nat = Some x /\
                s2 = take (Z.to_nat (n - 1)) (drop (Z.to_nat n) D) ++ [x]) \/
     (m mod 3 = 1 /\ e = 0 /\ n = (m - 1) / 3 /\
      s2 = take (Z.to_nat n) (drop (Z.to_nat n) D)) \/
     (m mod 3 = 2 /\ n = (m + 1) / 3 /\
      s2 = take (Z.to_nat n) (drop (Z.to_nat n) D))).
Proof.
  intros Hwf HM HL Hae. rewrite getselection_is_get_sel_A by done.
  by apply get_sel_A_spec.
Qed.

Lemma getselection_type_A_witness :
  exists n s1 s2,
    getselection cfg_A_4_3 = Ret (n, s1, s2) /\
    s1 = take (Z.to_nat n) [0; 1; 2; 3] /\
    Z.of_nat (length s1) = n /\ Z.of_nat (length s2) = n /\
    ((4 mod 3 = 0 /\ n = 4 / 3 /\
      s2 = take (Z.to_nat n) (drop (Z.to_nat n) [0; 1; 2; 3])) \/
     (4 mod 3 = 1 /\ 0 < 3 /\ n = (4 + 2) / 3 /\
      exists x, [4; 5; 6] !! 0%nat = Some x /\
                s2 = take (Z.to_nat (n - 1)) (drop (Z.to_nat n) [0; 1; 2; 3]) ++ [x]) \/
     (4 mod 3 = 1 /\ 3 = 0 /\ n = (4 - 1) / 3 /\
      s2 = take (Z.to_nat n) (drop (Z.to_nat n) [0; 1; 2; 3])) \/
     (4 mod 3 = 2 /\ n = (4 + 1) / 3 /\
      s2 = take (Z.to_nat n) (drop (Z.to_nat n) [0; 1; 2; 3]))).
Proof.
  apply (getselection_type_A cfg_A_4_3).
  - intros []; reflexivity.
  - reflexivity.
  - reflexivity.
  - simpl. lia.
Defined.

Example getselection_A_4_3 : getselection cfg_A_4_3 = Ret (2, [0; 1], [2; 4]).
Proof. reflexivity. Qed.

(** ** Fuel *)

(** More fuel does not change a result other than [Timeout]. *)
Lemma weigh_sequential_fuel (f f' : nat) (c : list Z) (nc : Z) :
  (f <= f')%nat ->
  weigh_sequential f c nc <> Timeout ->
  weigh_sequential f' c nc = weigh_sequential f c nc.
Proof.
  revert f' c. induction f as [|f IH]; intros f' c Hle Hr; [done|].
  destruct f' as [|f']; [lia|]. simpl in *.
  destruct (get_cfg c nc) as [cfg| | |]; simpl in *; try done.
  destruct (num_pos cfg <=? 1); [done|].
  destruct (getselection cfg) as [[[n_sel sl1] sl2]| | |]; simpl in *; try done.
  destruct (n_sel >? 0); [|done].
  unfold split_selection in *.
  destruct (weigh c sl1 sl2 n_sel) as [cr| | |]; simpl in *; try done.
  rewrite (IH f' (cr C_MORE)); [|lia|by intros E; rewrite E in Hr].
  destruct (weigh_sequential f (cr C_MORE) nc) as [r1| | |]; simpl in *; try done.
  rewrite (IH f' (cr C_EQUAL)); [|lia|by intros E; rewrite E in Hr].
  destruct (weigh_sequential f (cr C_EQUAL) nc) as [r2| | |]; simpl in *; try done.
  rewrite (IH f' (cr C_LESS)); [|lia|by intros E; rewrite E in Hr].
  done.
Qed.

Lemma weigh_sequential_fuel_Ret (f k : nat) (c : list Z) (nc d : Z) :
  weigh_sequential f c nc = Ret d -> weigh_sequential (f + k) c nc = Ret d.
Proof.
  intros H. rewrite (weigh_sequential_fuel f); [done|lia|by rewrite H].
Qed.

Lemma find_base_fuel (f j : nat) (k : nat) (n n_coins : Z) (r : nat * Z) :
  find_base f k n n_coins = Ret r -> find_base (f + j) k n n_coins = Ret r.
Proof.
  revert k n. induction f as [|f IH]; intros k n; simpl; [done|].
  destruct (_ >=? _); [done|]. apply IH.
Qed.

Lemma weigh_static_fuel (f j : nat) (n_coins d : Z) :
  weigh_static f n_coins = Ret d -> weigh_static (f + j) n_coins = Ret d.
Proof.
  unfold weigh_static, weigh_static_table.
  destruct (find_base f 2 0 n_coins) as [r| | |] eqn:E; simpl; try done.
  by rewrite (find_base_fuel _ j _ _ _ _ E).
Qed.

(** ** The literal scenarios *)

(** C3. For 12 coins the sequential solver returns 3 and the static solver
    returns 3; the fuel counts the nested calls of [weigh_sequential] and
    the rounds of the search of the base solution. *)
Theorem twelve_coins_depth_3 (fuel : nat) :
  weigh_sequential (4 + fuel) (new_coins 12) 12 = Ret 3 /\
  weigh_static (2 + fuel) 12 = Ret 3.
Proof.
  split.
  - apply weigh_sequential_fuel_Ret. vm_compute. reflexivity.
  - apply weigh_static_fuel. vm_compute. reflexivity.
Qed.

(** C9 as stated fails: three coins are not settled by one weighing. *)
Lemma three_coins_not_depth_1 :
  ~ (exists fuel, weigh_sequential fuel (new_coins 3) 3 = Ret 1).
Proof.
  intros [fuel H].
  assert (H2 : weigh_sequential 3 (new_coins 3) 3 = Ret 2) by (vm_compute; reflexivity).
  destruct (Nat.le_ge_cases fuel 3) as [Hle|Hle].
  - rewrite <- (weigh_sequential_fuel fuel 3) in H; [|done|by rewrite H].
    rewrite H2 in H. discriminate.
  - rewrite (weigh_sequential_fuel 3 fuel) in H; [|done|by rewrite H2].
    rewrite H2 in H. discriminate.
Qed.

(** C9, amended. For 3 coins the sequential solver returns 2: the first
    weighing leaves sets of 2, 3 and 2 hypotheses, the second one settles
    each of them. *)
Theorem three_coins_depth_2 (fuel : nat) :
  weigh_sequential (3 + fuel) (new_coins 3) 3 = Ret 2 /\
  (cfg ← get_cfg (new_coins 3) 3; getselection cfg) = Ret (1, [0], [1]) /\
  (cr ← weigh (new_coins 3) [0] [1] 1; Ret (cr C_MORE, cr C_EQUAL, cr C_LESS))
  = Ret ([1; -2; INT_MAX], [0; 3; -3; INT_MAX], [2; -1; INT_MAX]).
Proof.
  split; [|split].
  - apply weigh_sequential_fuel_Ret. vm_compute. reflexivity.
  - vm_compute. reflexivity.
  - vm_compute. reflexivity.
Qed.

(** ** The classifier *)

Lemma get_cfg_scan_spec (k : Z) (P : list Z) (hit : Z) (type : ctype) (ae : Z) :
  0 <= k -> INT_MAX ∉ P -> NoDup P ->
  exists hit' type',
    get_cfg_scan k (P ++ [INT_MAX]) (hit, type, ae)
    = Ret (hit', type', if decide (0 ∈ P) then 1 else ae) /\
    hit' = hit + (if decide (k + 1 ∈ P) then 1 else 0)
               + (if decide (- k - 1 ∈ P) then 1 else 0) /\
    (k + 1 ∈ P -> - k - 1 ∉ P -> type' = C_MORE) /\
    (- k - 1 ∈ P -> k + 1 ∉ P -> type' = C_LESS) /\
    (k + 1 ∉ P -> - k - 1 ∉ P -> type' = type).
Proof.
  intros Hk HP HND. revert hit type ae.
  induction P as [|ci P IH]; intros hit type ae.
  - exists hit, type. simpl. repeat case_decide; set_unfold; try tauto.
    repeat split; try done; lia.
  - apply not_elem_of_cons in HP as [Hci HP].
    apply NoDup_cons in HND as [Hnin HND].
    cbn [app get_cfg_scan].
    destruct (Z.eqb_spec ci INT_MAX) as [|_]; [done|].
    destruct (Z.gtb_spec ci 0) as [Hpos|Hpos];
      [destruct (Z.eqb_spec (ci - 1) k) as [Heq|Heq]|]; cbn [andb].
    + (* ci = k + 1 *)
      destruct (IH HP HND (hit + 1) C_MORE ae) as (hit' & type' & -> & Hh & HM & HL & HE).
      assert (ci = k + 1) as -> by lia. clear IH.
      exists hit', type'.
      repeat case_decide; set_unfold; try (exfalso; intuition lia);
        repeat split; intros; try done; try lia; intuition lia.
    + destruct (Z.ltb_spec ci 0) as [Hneg|Hneg]; [lia|]. cbn [andb].
      destruct (Z.eqb_spec ci 0) as [H0|H0]; [lia|].
      destruct (IH HP HND hit type ae) as (hit' & type' & -> & Hh & HM & HL & HE).
      clear IH. exists hit', type'.
      repeat case_decide; set_unfold; try (exfalso; intuition lia);
        repeat split; intros; try done; try lia; intuition lia.
    + destruct (Z.ltb_spec ci 0) as [Hneg|Hneg];
        [destruct (Z.eqb_spec (- ci - 1) k) as [Heq|Heq]|]; cbn [andb].
      * destruct (IH HP HND (hit + 1) C_LESS ae) as (hit' & type' & -> & Hh & HM & HL & HE).
        assert (ci = - k - 1) as -> by lia. clear IH.
        exists hit', type'.
        repeat case_decide; set_unfold; try (exfalso; intuition lia);
          repeat split; intros; try done; try lia; intuition lia.
      * destruct (Z.eqb_spec ci 0) as [H0|H0]; [lia|].
        destruct (IH HP HND hit type ae) as (hit' & type' & -> & Hh & HM & HL & HE).
        clear IH. exists hit', type'.
        repeat case_decide; set_unfold; try (exfalso; intuition lia);
          repeat split; intros; try done; try lia; intuition lia.
      * destruct (Z.eqb_spec ci 0) as [H0|H0].
        -- subst ci.
           destruct (IH HP HND hit type 1) as (hit' & type' & Hs & Hh & HM & HL & HE).
           clear IH. exists hit', type'.
           split.
           { rewrite Hs. repeat case_decide; set_unfold; try done; exfalso; intuition lia. }
           repeat case_decide; set_unfold; try (exfalso; intuition lia);
             repeat split; intros; try done; try lia; intuition lia.
        -- lia.
Qed.

Lemma get_cfg_step_spec (P : list Z) (cfg : coin_cfg) (k : Z) :
  0 <= k -> INT_MAX ∉ P -> NoDup P -> cfg_wf cfg ->
  exists cfg',
    get_cfg_step (P ++ [INT_MAX]) cfg k = Ret cfg' /\
    cfg_wf cfg' /\
    all_equal cfg' = (if decide (0 ∈ P) then 1 else all_equal cfg) /\
    forall t, sel cfg' t =
              if decide (coin_type P k = t) then sel cfg t ++ [k] else sel cfg t.
Proof.
  intros Hk HP HND Hwf. unfold get_cfg_step.
  destruct (get_cfg_scan_spec k P 0 C_EQUAL (all_equal cfg) Hk HP HND)
    as (hit & type & -> & Hh & HM & HL & HE).
  cbn [mbind result_bind rbind].
  set (ty := if hit =? 2 then C_DOUBLE else type).
  assert (Hty : ty = coin_type P k).
  { unfold ty, coin_type. 
    destruct (decide (k + 1 ∈ P)), (decide (- k - 1 ∈ P));
      destruct (Z.eqb_spec hit 2); try lia; auto. }
  clearbody ty. subst ty.
  eexists. split; [reflexivity|]. cbn [all_equal size sel].
  split; [|split; [done|]].
  - intros t. unfold upd. cbn [size sel].
    destruct (decide (t = coin_type P k)) as [->|Ht].
    + rewrite Hwf, add_int_app, length_app. simpl. lia.
    + apply Hwf.
  - intros t. unfold upd.
    destruct (decide (t = coin_type P k)) as [->|Ht].
    + rewrite decide_True by done. by rewrite Hwf, add_int_app.
    + rewrite decide_False; [done|]. intros E. by apply Ht.
Qed.

Lemma get_cfg_loop_spec (P : list Z) (ks : list Z) (cfg : coin_cfg) :
  (forall k, k ∈ ks -> 0 <= k) -> INT_MAX ∉ P -> NoDup P -> cfg_wf cfg ->
  exists cfg',
    get_cfg_loop (P ++ [INT_MAX]) ks cfg = Ret cfg' /\
    cfg_wf cfg' /\
    all_equal cfg' =
      (if decide (ks <> [] /\ 0 ∈ P) then 1 else all_equal cfg) /\
    forall t, sel cfg' t = sel cfg t ++ filter (fun k => coin_type P k = t) ks.
Proof.
  intros Hks HP HND. revert cfg.
  induction ks as [|k ks IH]; intros cfg Hwf.
  - exists cfg. simpl. split; [done|]. split; [done|].
    split; [repeat case_decide; naive_solver|].
    intros t. by rewrite app_nil_r.
  - cbn [get_cfg_loop].
    destruct (get_cfg_step_spec P cfg k) as (cfg1 & -> & Hwf1 & Hae1 & Hsel1);
      [apply Hks; set_solver|done..|].
    cbn [mbind result_bind rbind].
    destruct (IH (fun k' Hk' => Hks k' (list_elem_of_further _ _ _ Hk')) cfg1 Hwf1)
      as (cfg2 & -> & Hwf2 & Hae2 & Hsel2).
    exists cfg2. split; [done|]. split; [done|]. split.
    + rewrite Hae2, Hae1. clear.
      destruct (decide (ks <> [] /\ 0 ∈ P)), (decide (0 ∈ P)),
        (decide (k :: ks <> [] /\ 0 ∈ P)); try done; naive_solver.
    + intros t. rewrite Hsel2, Hsel1, filter_cons.
      destruct (decide (coin_type P k = t)); [|done]. by rewrite <- app_assoc.
Qed.

(** [get_cfg] on a duplicate-free possibility set: the four groups are the
    coins of each role, in ascending order. *)
Lemma get_cfg_spec (P : list Z) (n : Z) :
  INT_MAX ∉ P -> NoDup P ->
  exists cfg,
    get_cfg (P ++ [INT_MAX]) n = Ret cfg /\
    cfg_wf cfg /\
    all_equal cfg = (if decide (0 < n /\ 0 ∈ P) then 1 else 0) /\
    forall t, sel cfg t = coins_of P n t.
Proof.
  intros HP HND. unfold get_cfg.
  destruct (get_cfg_loop_spec P (seqZ 0 n) cfg_zero) as (cfg & Hc & Hwf & Hae & Hsel);
    [|done|done|done|].
  { intros k Hk%elem_of_seqZ. lia. }
  exists cfg. split; [done|]. split; [done|]. split; [|done].
  rewrite Hae. simpl.
  destruct (decide (0 < n)) as [Hn|Hn].
  - assert (seqZ 0 n <> []).
    { intros E. assert (0 ∈ seqZ 0 n) as H0 by (apply elem_of_seqZ; lia).
      rewrite E in H0. set_solver. }
    repeat case_decide; try done; naive_solver.
  - assert (seqZ 0 n = []) as ->.
    { unfold seqZ. by replace (Z.to_nat n) with O by lia. }
    repeat case_decide; try done; naive_solver.
Qed.

(** ** Roles and hypotheses *)

Lemma elem_of_coins_of (P : list Z) (n k : Z) (t : ctype) :
  k ∈ coins_of P n t <-> coin_type P k = t /\ 0 <= k < n.
Proof.
  unfold coins_of. rewrite list_elem_of_filter, elem_of_seqZ.
  intuition lia.
Qed.

Lemma NoDup_coins_of (P : list Z) (n : Z) (t : ctype) : NoDup (coins_of P n t).
Proof. apply NoDup_filter, NoDup_seqZ. Qed.

Lemma coin_type_MORE (P : list Z) (k : Z) :
  coin_type P k = C_MORE <-> k + 1 ∈ P /\ - k - 1 ∉ P.
Proof. unfold coin_type. repeat case_decide; naive_solver. Qed.

Lemma coin_type_LESS (P : list Z) (k : Z) :
  coin_type P k = C_LESS <-> (k + 1 ∉ P) /\ - k - 1 ∈ P.
Proof. unfold coin_type. repeat case_decide; naive_solver. Qed.

Lemma coin_type_DOUBLE (P : list Z) (k : Z) :
  coin_type P k = C_DOUBLE <-> k + 1 ∈ P /\ - k - 1 ∈ P.
Proof. unfold coin_type. repeat case_decide; naive_solver. Qed.

Lemma coin_type_EQUAL (P : list Z) (k : Z) :
  coin_type P k = C_EQUAL <-> (k + 1 ∉ P) /\ - k - 1 ∉ P.
Proof. unfold coin_type. repeat case_decide; naive_solver. Qed.

Global Instance pos_hyp_inj : Inj (=) (=) pos_hyp.
Proof. intros x y. unfold pos_hyp. lia. Qed.

Global Instance neg_hyp_inj : Inj (=) (=) neg_hyp.
Proof. intros x y. unfold neg_hyp. lia. Qed.

Lemma elem_of_pos_hyps (P : list Z) (n x : Z) (t : ctype) :
  x ∈ (pos_hyp <$> coins_of P n t) <-> coin_type P (x - 1) = t /\ 0 < x <= n.
Proof.
  rewrite list_elem_of_fmap. unfold pos_hyp. split.
  - intros (k & -> & Hk). apply elem_of_coins_of in Hk as [Ht Hk].
    replace (k + 1 - 1) with k by lia. split; [done|lia].
  - intros [Ht Hx]. exists (x - 1). split; [lia|].
    apply elem_of_coins_of. split; [done|lia].
Qed.

Lemma elem_of_neg_hyps (P : list Z) (n x : Z) (t : ctype) :
  x ∈ (neg_hyp <$> coins_of P n t) <-> coin_type P (- x - 1) = t /\ - n <= x < 0.
Proof.
  rewrite list_elem_of_fmap. unfold neg_hyp. split.
  - intros (k & -> & Hk). apply elem_of_coins_of in Hk as [Ht Hk].
    replace (- (- k - 1) - 1) with k by lia. split; [done|lia].
  - intros [Ht Hx]. exists (- x - 1). split; [lia|].
    apply elem_of_coins_of. split; [done|lia].
Qed.

(** A duplicate-free set of hypotheses about [n] coins, seen through the
    roles of the coins. *)
Lemma poss_by_roles (P : list Z) (n : Z) :
  NoDup P -> (forall x, x ∈ P -> - n <= x <= n) ->
  P ≡ₚ (if decide (0 ∈ P) then [0] else [])
       ++ (pos_hyp <$> coins_of P n C_MORE)
       ++ (pos_hyp <$> coins_of P n C_DOUBLE)
       ++ (neg_hyp <$> coins_of P n C_LESS)
       ++ (neg_hyp <$> coins_of P n C_DOUBLE).
Proof.
  intros HND Hr. apply NoDup_Permutation; [done| |].
  - repeat (apply NoDup_app; split; [|split]);
      try (apply NoDup_fmap; [apply _|apply NoDup_coins_of]);
      try (case_decide; [apply NoDup_singleton|apply NoDup_nil_2]);
      intros x Hx; rewrite ?elem_of_app, ?elem_of_pos_hyps, ?elem_of_neg_hyps;
      try (case_decide; set_unfold; [subst x|done]);
      try apply elem_of_pos_hyps in Hx; try apply elem_of_neg_hyps in Hx;
      try (destruct Hx as [Hx ?]; rewrite Hx); intuition (try lia; try done).
    all: destruct (decide (0 ∈ P)); set_unfold; lia.
  - intros x. rewrite !elem_of_app, !elem_of_pos_hyps, !elem_of_neg_hyps.
    rewrite coin_type_MORE, !coin_type_DOUBLE, coin_type_LESS.
    replace (x - 1 + 1) with x by lia.
    replace (- (x - 1) - 1) with (- x) by lia.
    replace (- x - 1 + 1) with (- x) by lia.
    replace (- (- x - 1) - 1) with x by lia.
    split.
    + intros Hx. specialize (Hr x Hx).
      destruct (decide (x = 0)) as [->|H0].
      { left. rewrite decide_True by done. set_solver. }
      right. destruct (decide (- x ∈ P)); destruct (decide (0 < x)).
      all: naive_solver lia.
    + intros [Hx|Hx]; [|intuition].
      destruct (decide (0 ∈ P)) as [H0|H0];
        [by apply list_elem_of_singleton in Hx as ->|by apply elem_of_nil in Hx].
Qed.

Lemma npos_spec (P : list Z) :
  INT_MAX ∉ P -> npos (P ++ [INT_MAX]) = Ret (Z.of_nat (length P)).
Proof.
  induction P as [|x P IH]; intros HP; [done|].
  apply not_elem_of_cons in HP as [Hx HP]. cbn [app npos].
  destruct (Z.eqb_spec x INT_MAX) as [|_]; [done|].
  rewrite IH by done. cbn [mbind result_bind rbind length]. f_equal. lia.
Qed.

(** C10. For a duplicate-free possibility set [P] within the universe
    [{0, ±1, ..., ±n}] of [n >= 1] coins, the configuration of [get_cfg]
    satisfies [|LESS| + |MORE| + 2 |DOUBLE| + all_equal = |P|]; so
    [num_pos] is the size [npos] returns, and the test [num_pos <= 1] of
    [weigh_sequential] is the test [npos <= 1]. *)
Theorem num_pos_get_cfg (P : list Z) (n : Z) :
  0 < n -> n < INT_MAX ->
  NoDup P -> (forall x, x ∈ P -> - n <= x <= n) ->
  exists cfg np,
    get_cfg (P ++ [INT_MAX]) n = Ret cfg /\
    npos (P ++ [INT_MAX]) = Ret np /\
    np = Z.of_nat (length P) /\
    size cfg C_LESS + size cfg C_MORE + 2 * size cfg C_DOUBLE + all_equal cfg = np /\
    num_pos cfg = np /\
    (num_pos cfg <=? 1) = (np <=? 1).
Proof.
  intros Hn Hmax HND Hr.
  assert (HP : INT_MAX ∉ P) by (intros H%Hr; lia).
  destruct (get_cfg_spec P n HP HND) as (cfg & Hc & Hwf & Hae & Hsel).
  exists cfg, (Z.of_nat (length P)).
  split; [done|]. split; [by apply npos_spec|]. split; [done|].
  assert (Hnum : size cfg C_LESS + size cfg C_MORE + 2 * size cfg C_DOUBLE
                 + all_equal cfg = Z.of_nat (length P)).
  { rewrite (poss_by_roles P n HND Hr) at 1.
    rewrite !length_app, !length_fmap, !Hwf, !Hsel, Hae.
    destruct (decide (0 ∈ P)) as [H0|H0].
    - rewrite decide_True by done. simpl. lia.
    - rewrite decide_False by tauto. simpl. lia. }
  split; [done|].
  assert (num_pos cfg = Z.of_nat (length P)) as -> by (unfold num_pos; lia).
  done.
Qed.

Lemma num_pos_get_cfg_witness :
  exists cfg np,
    get_cfg ([1; -2; 0; -1] ++ [INT_MAX]) 3 = Ret cfg /\
    npos ([1; -2; 0; -1] ++ [INT_MAX]) = Ret np /\
    np = Z.of_nat (length [1; -2; 0; -1]) /\
    size cfg C_LESS + size cfg C_MORE + 2 * size cfg C_DOUBLE + all_equal cfg = np /\
    num_pos cfg = np /\
    (num_pos cfg <=? 1) = (np <=? 1).
Proof.
  apply (num_pos_get_cfg [1; -2; 0; -1] 3).
  - lia.
  - reflexivity.
  - by_compute.
  - apply Forall_forall. by_compute.
Defined.

(** Without coins the loop of [get_cfg] never runs and [all_equal] stays 0,
    so the hypothesis "no fake" is not counted. *)
Example num_pos_no_coin :
  (cfg ← get_cfg [0; INT_MAX] 0; Ret (num_pos cfg)) = Ret 0 /\
  npos [0; INT_MAX] = Ret 1.
Proof. split; reflexivity. Qed.

(** ** Base-3 arithmetic *)

Lemma ipow_loop_spec (x r : Z) (n : nat) : ipow_loop x r n = r * x ^ Z.of_nat n.
Proof.
  revert r. induction n as [|n IH]; intros r; simpl ipow_loop.
  - simpl. lia.
  - rewrite IH, Nat2Z.inj_succ, Z.pow_succ_r by lia. lia.
Qed.

Lemma ipow_spec (x : Z) (n : nat) : ipow x n = x ^ Z.of_nat n.
Proof. unfold ipow. rewrite ipow_loop_spec. lia. Qed.

Lemma op_loop_linear (fuel : nat) (x c s : Z) :
  op_loop fuel x c s = s + c * op_loop fuel x 1 0.
Proof.
  revert x c s. induction fuel as [|fuel IH]; intros x c s; simpl; [lia|].
  destruct (x =? 0); [lia|].
  rewrite IH. rewrite (IH _ (1 * 3)).
  destruct (Z.rem x 3 =? 1); [lia|]. destruct (Z.rem x 3 =? 2); lia.
Qed.

Lemma op_loop_fuel (f f' : nat) (x c s : Z) :
  0 <= x < 2 ^ Z.of_nat f -> (f <= f')%nat ->
  op_loop f' x c s = op_loop f x c s.
Proof.
  revert f' x c s. induction f as [|f IH]; intros f' x c s Hx Hf.
  - assert (x = 0) as -> by (simpl in Hx; lia). by destruct f'.
  - destruct f' as [|f']; [lia|]. simpl.
    destruct (Z.eqb_spec x 0); [done|].
    apply IH; [|lia].
    rewrite Nat2Z.inj_succ, Z.pow_succ_r in Hx by lia. zlia.
Qed.

Lemma op_0 : op 0 = 0.
Proof. reflexivity. Qed.

(** The recursion behind the loop of [op]. *)
Lemma op_eqn (x : Z) :
  0 < x -> op x = swap_digit (x mod 3) + 3 * op (x / 3).
Proof.
  intros Hx. unfold op at 1.
  rewrite Z.abs_eq by lia.
  cbn [op_loop]. destruct (Z.eqb_spec x 0); [lia|].
  rewrite op_loop_linear.
  rewrite (Z.rem_mod_nonneg x 3), (Z.quot_div_nonneg x 3) by lia.
  assert (Hfuel : op_loop (Z.to_nat (Z.log2 x)) (x / 3) 1 0 = op (x / 3)).
  { unfold op. rewrite Z.abs_eq by zlia.
    destruct (Z.eq_dec (x / 3) 0) as [->|Hq].
    { simpl. by destruct (Z.to_nat (Z.log2 x)). }
    assert (0 < x / 3) by zlia.
    pose proof (Z.log2_spec x Hx) as [H1 H2].
    pose proof (Z.log2_spec (x / 3) ltac:(done)) as [H3 H4].
    pose proof (Z.log2_nonneg x). pose proof (Z.log2_nonneg (x / 3)).
    assert (Z.log2 (x / 3) < Z.log2 x).
    { assert (Z.log2 (x / 3) <= Z.log2 x) by (apply Z.log2_le_mono; zlia).
      destruct (Z.eq_dec (Z.log2 (x / 3)) (Z.log2 x)) as [E|?]; [|lia].
      rewrite E in *. rewrite Z.pow_succ_r in H2 by lia. zlia. }
    apply op_loop_fuel; [|lia].
    split; [lia|].
    replace (Z.of_nat (S (Z.to_nat (Z.log2 (x / 3))))) with (Z.succ (Z.log2 (x / 3))) by lia.
    lia. }
  rewrite Hfuel. unfold swap_digit.
  destruct (x mod 3 =? 1); [lia|]. destruct (x mod 3 =? 2); lia.
Qed.

Lemma op_bounds (k : nat) (x : Z) :
  0 <= x < 3 ^ Z.of_nat k -> 0 <= op x < 3 ^ Z.of_nat k.
Proof.
  revert x. induction k as [|k IH]; intros x Hx.
  - assert (x = 0) as -> by (simpl in Hx; lia). rewrite op_0. simpl. lia.
  - rewrite Nat2Z.inj_succ, Z.pow_succ_r in * by lia.
    destruct (Z.eq_dec x 0) as [->|H0]; [rewrite op_0; lia|].
    rewrite op_eqn by lia.
    specialize (IH (x / 3) ltac:(zlia)).
    unfold swap_digit. destruct (x mod 3 =? 1); [lia|]. destruct (x mod 3 =? 2); lia.
Qed.

Lemma op_nonneg (x : Z) : 0 <= x -> 0 <= op x.
Proof.
  intros Hx.
  assert (x < 3 ^ Z.of_nat (Z.to_nat x)).
  { rewrite Z2Nat.id by lia. apply Z.pow_gt_lin_r; lia. }
  by apply (op_bounds (Z.to_nat x)).
Qed.

Lemma op_digits (x : Z) :
  0 <= x -> op x mod 3 = swap_digit (x mod 3) /\ op x / 3 = op (x / 3).
Proof.
  intros Hx. destruct (Z.eq_dec x 0) as [->|H0]; [by rewrite op_0|].
  rewrite op_eqn by lia.
  assert (0 <= swap_digit (x mod 3) < 3).
  { unfold swap_digit. destruct (x mod 3 =? 1); [lia|]. destruct (x mod 3 =? 2); lia. }
  zlia.
Qed.

Lemma swap_digit_involutive (d : Z) : 0 <= d < 3 -> swap_digit (swap_digit d) = d.
Proof.
  intros Hd. unfold swap_digit.
  destruct (Z.eqb_spec d 1) as [->|?]; [done|].
  destruct (Z.eqb_spec d 2) as [->|?]; [done|]. simpl. lia.
Qed.

(** Induction on the base-3 digits of a number. *)
Lemma base3_ind (P : Z -> Prop) :
  P 0 -> (forall x, 0 < x -> P (x / 3) -> P x) -> forall x, 0 <= x -> P x.
Proof.
  intros H0 Hstep x Hx.
  apply (Z_lt_induction (fun x => 0 <= x -> P x)); [|done|done].
  clear x Hx. intros x IH Hx.
  destruct (Z.eq_dec x 0) as [->|?]; [done|].
  apply Hstep; [lia|]. apply IH; zlia.
Qed.

Lemma op_involutive (x : Z) : 0 <= x -> op (op x) = x.
Proof.
  intros Hx. pattern x. apply base3_ind; [done| |done]. clear x Hx.
  intros x Hx IH.
  pose proof (op_digits x ltac:(lia)) as [Hd Hq].
  pose proof (op_nonneg x ltac:(lia)).
  destruct (Z.eq_dec (op x) 0) as [E|E].
  - rewrite E in *. rewrite op_0.
    assert (swap_digit (x mod 3) = 0) as Hs by (rewrite <- Hd; done).
    assert (op (x / 3) = 0) as Hq0 by (rewrite <- Hq; done).
    rewrite Hq0, op_0 in IH.
    unfold swap_digit in Hs.
    destruct (Z.eqb_spec (x mod 3) 1); [lia|]. destruct (Z.eqb_spec (x mod 3) 2); [lia|].
    zlia.
  - rewrite (op_eqn (op x)) by lia. rewrite Hd, Hq, IH.
    rewrite swap_digit_involutive by zlia. zlia.
Qed.

Lemma op_inj (x y : Z) : 0 <= x -> 0 <= y -> op x = op y -> x = y.
Proof.
  intros Hx Hy E. rewrite <- (op_involutive x), <- (op_involutive y) by done.
  by rewrite E.
Qed.

Lemma op_pos (x : Z) : 0 < x -> 0 < op x.
Proof.
  intros Hx. pose proof (op_nonneg x ltac:(lia)).
  destruct (Z.eq_dec (op x) 0) as [E|]; [|lia].
  pose proof (op_involutive x ltac:(lia)) as Hi. rewrite E, op_0 in Hi. lia.
Qed.

(** A code and its complement differ, unless the code is 0. *)
Lemma op_neq (x : Z) : 0 < x -> op x <> x.
Proof.
  intros Hx. assert (H0 : 0 <= x) by lia. revert Hx. pattern x.
  apply base3_ind; [lia| |done]. clear x H0.
  intros x Hx IH _ E.
  pose proof (op_digits x ltac:(lia)) as [Hd Hq]. rewrite E in Hd, Hq.
  unfold swap_digit in Hd.
  destruct (Z.eqb_spec (x mod 3) 1); [lia|]. destruct (Z.eqb_spec (x mod 3) 2); [lia|].
  apply IH; [zlia|done].
Qed.

(** The complement of a code with a leading digit in front. *)
Lemma op_lead (k : nat) (x d : Z) :
  0 <= x < 3 ^ Z.of_nat k -> 0 <= d < 3 ->
  op (x + d * 3 ^ Z.of_nat k) = op x + swap_digit d * 3 ^ Z.of_nat k.
Proof.
  revert x. induction k as [|k IH]; intros x Hx Hd.
  - assert (x = 0) as -> by (simpl in Hx; lia). rewrite op_0.
    change (3 ^ Z.of_nat 0) with 1.
    replace (0 + d * 1) with d by lia.
    destruct (Z.eq_dec d 0) as [->|?]; [done|].
    rewrite op_eqn by lia.
    replace (d / 3) with 0 by zlia. rewrite op_0.
    replace (d mod 3) with d by zlia. lia.
  - rewrite Nat2Z.inj_succ, Z.pow_succ_r in * by lia.
    set (c := 3 ^ Z.of_nat k) in *.
    assert (0 < c) by (apply Z.pow_pos_nonneg; lia).
    destruct (Z.eq_dec (x + d * (3 * c)) 0) as [E|E].
    + assert (x = 0) by nia. assert (d = 0) by nia. subst. by rewrite E.
    + rewrite op_eqn by nia.
      replace ((x + d * (3 * c)) mod 3) with (x mod 3).
      2: { replace (x + d * (3 * c)) with (x + (d * c) * 3) by lia.
           by rewrite Z.mod_add. }
      replace ((x + d * (3 * c)) / 3) with (x / 3 + d * c).
      2: { replace (x + d * (3 * c)) with (x + (d * c) * 3) by lia.
           by rewrite Z.div_add. }
      rewrite IH by zlia.
      destruct (Z.eq_dec x 0) as [->|?].
      * rewrite Zmod_0_l, Zdiv_0_l, op_0. change (swap_digit 0) with 0. lia.
      * rewrite (op_eqn x) by lia. lia.
Qed.

(** ** The table of heavy codes *)

Lemma free_in_spec (T : list Z) (t : Z) :
  free_in T t <-> (t ∉ T) /\ (t ∉ (op <$> T)).
Proof.
  unfold free_in. rewrite Forall_forall. split.
  - intros H. split.
    + intros Hin. by destruct (H t Hin).
    + intros (h & -> & Hin)%list_elem_of_fmap. by destruct (H h Hin).
  - intros [H1 H2] h Hin. split.
    + intros ->. done.
    + intros ->. apply H2. by apply list_elem_of_fmap_2.
Qed.

Lemma isfree_from_spec (t : Z) (hcode : list Z) (n j : nat) :
  (j + n <= length hcode)%nat ->
  isfree_from t hcode (Z.of_nat j) n
  = Ret (bool_decide (free_in (take n (drop j hcode)) t)).
Proof.
  revert j. induction n as [|n IH]; intros j Hlen.
  - reflexivity.
  - destruct (lookup_lt_is_Some_2 hcode j) as [h Hh]; [lia|].
    cbn [isfree_from]. rewrite (rd_lookup _ _ _ Hh).
    cbn [mbind result_bind rbind].
    rewrite (drop_S _ _ _ Hh). cbn [take].
    replace (Z.of_nat j + 1) with (Z.of_nat (S j)) by lia.
    rewrite IH by lia. unfold free_in.
    destruct (Z.eqb_spec t h) as [->|Hne]; cbn [orb].
    { rewrite bool_decide_eq_false_2; [done|].
      intros [[? _] _]%Forall_cons. done. }
    destruct (Z.eqb_spec t (op h)) as [->|Hne'].
    { rewrite bool_decide_eq_false_2; [done|].
      intros [[_ ?] _]%Forall_cons. done. }
    f_equal. apply bool_decide_ext. rewrite Forall_cons. tauto.
Qed.

Lemma isfree_spec (t : Z) (hcode : list Z) (nc : Z) :
  0 <= nc <= Z.of_nat (length hcode) ->
  isfree t hcode nc = Ret (bool_decide (free_in (take (Z.to_nat nc) hcode) t)).
Proof.
  intros Hnc. unfold isfree. change 0 with (Z.of_nat 0).
  rewrite isfree_from_spec by lia. by rewrite drop_0.
Qed.

Lemma wr_Ret (a : list Z) (i : nat) (v : Z) :
  (i < length a)%nat -> wr a (Z.of_nat i) v = Ret (<[i := v]> a).
Proof.
  intros Hi. unfold wr.
  destruct (Z.ltb_spec (Z.of_nat i) 0); [lia|].
  destruct (Z.leb_spec (Z.of_nat (length a)) (Z.of_nat i)); [lia|].
  simpl. by rewrite Nat2Z.id.
Qed.

Lemma wr_Ret_Z (a : list Z) (i : Z) (v : Z) :
  0 <= i < Z.of_nat (length a) -> wr a i v = Ret (<[Z.to_nat i := v]> a).
Proof.
  intros Hi. rewrite <- (Z2Nat.id i) at 1 by lia. apply wr_Ret. lia.
Qed.

Lemma missing_mark_spec (b t : list Z) (n k : nat) :
  (k + n <= length b)%nat ->
  (forall x, x ∈ take n (drop k b) ->
             0 <= x < Z.of_nat (length t) /\ 0 <= op x < Z.of_nat (length t)) ->
  exists t',
    missing_mark b t (Z.of_nat k) n = Ret t' /\
    length t' = length t /\
    forall i : nat,
      t' !! i =
      if decide (Z.of_nat i ∈ take n (drop k b) ++ (op <$> take n (drop k b)))
      then Some 1 else t !! i.
Proof.
  revert k t. induction n as [|n IH]; intros k t Hlen Hr.
  - exists t. split; [done|]. split; [done|].
    intros i. rewrite decide_False; [done|]. rewrite take_0. set_solver.
  - destruct (lookup_lt_is_Some_2 b k) as [x Hx]; [lia|].
    cbn [missing_mark]. rewrite (rd_lookup _ _ _ Hx).
    cbn [mbind result_bind rbind].
    rewrite (drop_S _ _ _ Hx) in *. cbn [take] in *.
    destruct (Hr x ltac:(set_solver)) as [Hx1 Hx2].
    rewrite wr_Ret_Z by lia. cbn [mbind result_bind rbind].
    rewrite wr_Ret_Z by (rewrite length_insert; lia).
    cbn [mbind result_bind rbind].
    replace (Z.of_nat k + 1) with (Z.of_nat (S k)) by lia.
    destruct (IH (S k) (<[Z.to_nat (op x):=1]> (<[Z.to_nat x:=1]> t))) as (t' & -> & Hl & Ht').
    { lia. }
    { intros y Hy. rewrite !length_insert. apply Hr. set_solver. }
    exists t'. split; [done|]. split; [by rewrite Hl, !length_insert|].
    intros i. rewrite Ht'. clear Ht' IH.
    rewrite !list_lookup_insert, !length_insert.
    set (L := take n (drop (S k) b)).
    assert (Hmem : Z.of_nat i ∈ (x :: L) ++ (op <$> x :: L) <->
                   Z.of_nat i = x \/ Z.of_nat i = op x \/ Z.of_nat i ∈ L ++ (op <$> L)).
    { rewrite fmap_cons. set_solver. }
    destruct (decide (Z.of_nat i ∈ (x :: L) ++ (op <$> x :: L))) as [H1|H1];
      destruct (decide (Z.of_nat i ∈ L ++ (op <$> L))) as [H2|H2];
      try done; repeat case_decide; try done; try lia; exfalso.
    + apply Hmem in H1 as [?|[?|?]]; [apply H0|apply H|done]; split; lia.
    + apply H1, Hmem. tauto.
    + apply H1, Hmem. lia.
    + apply H1, Hmem. lia.
Qed.

Lemma missing_scan_found (t : list Z) (n k m : nat) :
  (k <= m < k + n)%nat ->
  t !! m = Some 0 ->
  (forall i, (k <= i < m)%nat -> exists v, t !! i = Some v /\ v <> 0) ->
  missing_scan t (Z.of_nat k) n = Ret (Z.of_nat m).
Proof.
  revert k. induction n as [|n IH]; intros k Hm H0 Hlt; [lia|].
  cbn [missing_scan].
  destruct (decide (k = m)) as [->|Hne].
  - rewrite (rd_lookup _ _ _ H0). by cbn.
  - destruct (Hlt k ltac:(lia)) as (v & Hv & Hv0).
    rewrite (rd_lookup _ _ _ Hv). cbn [mbind result_bind rbind].
    destruct (Z.eqb_spec v 0); [done|].
    replace (Z.of_nat k + 1) with (Z.of_nat (S k)) by lia.
    apply IH; [lia|done|]. intros i Hi. apply Hlt. lia.
Qed.

Lemma missing_scan_none (t : list Z) (n k : nat) :
  (forall i, (k <= i < k + n)%nat -> exists v, t !! i = Some v /\ v <> 0) ->
  missing_scan t (Z.of_nat k) n = Exit 0.
Proof.
  revert k. induction n as [|n IH]; intros k Hlt; [done|].
  cbn [missing_scan].
  destruct (Hlt k ltac:(lia)) as (v & Hv & Hv0).
  rewrite (rd_lookup _ _ _ Hv). cbn [mbind result_bind rbind].
  destruct (Z.eqb_spec v 0); [done|].
  replace (Z.of_nat k + 1) with (Z.of_nat (S k)) by lia.
  apply IH. intros i Hi. apply Hlt. lia.
Qed.

Section missing.
Variables (b : list Z) (n N : Z).
Let L := take (Z.to_nat n) b.
Hypothesis Hn : 0 <= n <= Z.of_nat (length b).
Hypothesis HN : 0 <= N.
Hypothesis Hrange : forall x, x ∈ L -> 0 <= x <= N /\ 0 <= op x <= N.

Lemma missing_table :
  exists t,
    missing_mark b (replicate (Z.to_nat (N + 1)) 0) 0 (Z.to_nat n) = Ret t /\
    forall i : nat, (i <= Z.to_nat N)%nat ->
      t !! i = Some (if decide (free_in L (Z.of_nat i)) then 0 else 1).
Proof.
  destruct (missing_mark_spec b (replicate (Z.to_nat (N + 1)) 0) (Z.to_nat n) 0)
    as (t & Ht & Hl & Hi).
  { lia. }
  { rewrite drop_0, length_replicate. intros x Hx.
    destruct (Hrange x Hx). lia. }
  exists t. split; [exact Ht|].
  intros i Hle. rewrite Hi, drop_0. fold L.
  destruct (decide (free_in L (Z.of_nat i))) as [Hf|Hf].
  - rewrite decide_False.
    + apply lookup_replicate_2. lia.
    + apply free_in_spec in Hf. set_solver.
  - rewrite decide_True; [done|].
    destruct (decide (Z.of_nat i ∈ L ++ (op <$> L))) as [|Hnin]; [done|].
    exfalso. apply Hf, free_in_spec. set_solver.
Qed.

(** [missing] returns the least free number of [1 .. N]. *)
Lemma missing_found (m : Z) :
  1 <= m <= N -> free_in L m ->
  (forall m', 1 <= m' < m -> ~ free_in L m') ->
  missing b n N = Ret m.
Proof.
  intros Hm Hfree Hleast. unfold missing.
  destruct missing_table as (t & -> & Ht). cbn [mbind result_bind rbind].
  rewrite <- (Z2Nat.id m) by lia. change 1 with (Z.of_nat 1).
  apply missing_scan_found.
  - lia.
  - rewrite Ht by lia. rewrite Z2Nat.id by lia. by rewrite decide_True.
  - intros i Hi. exists 1. split; [|done].
    rewrite Ht by lia. rewrite decide_False; [done|]. apply Hleast. lia.
Qed.

(** Without a free number in [1 .. N], [missing] ends in [exit(0)]. *)
Lemma missing_none :
  (forall m, 1 <= m <= N -> ~ free_in L m) -> missing b n N = Exit 0.
Proof.
  intros Hnone. unfold missing.
  destruct missing_table as (t & -> & Ht). cbn [mbind result_bind rbind].
  change 1 with (Z.of_nat 1). apply missing_scan_none.
  intros i Hi. exists 1. split; [|done].
  rewrite Ht by lia. rewrite decide_False; [done|]. apply Hnone. lia.
Qed.
End missing.

Lemma rd_Ret_nat (a : list Z) (i : Z) :
  0 <= i < Z.of_nat (length a) ->
  exists x, a !! Z.to_nat i = Some x /\ rd a i = Ret x.
Proof.
  intros Hi. destruct (lookup_lt_is_Some_2 a (Z.to_nat i)) as [x Hx]; [lia|].
  exists x. split; [done|]. rewrite <- (Z2Nat.id i) by lia. by apply rd_lookup.
Qed.

(** The copying loop of [getbase] on an array with [n] codes in front:
    cells [n + i] and [2 n + i] receive the codes with the digits 1 and 2
    in front, for [j <= i < j + m]. *)
Lemma getbase_copy_spec (b : list Z) (c : Z) (n m j : nat) :
  (j + m <= n)%nat -> (3 * n <= length b)%nat ->
  exists b',
    getbase_copy b c (Z.of_nat n) (Z.of_nat j) m = Ret b' /\
    length b' = length b /\
    forall i : nat,
      b' !! i =
      if decide (n + j <= i < n + j + m)%nat then (fun x => x + c) <$> b !! (i - n)%nat
      else if decide (2 * n + j <= i < 2 * n + j + m)%nat
           then (fun x => x + 2 * c) <$> b !! (i - 2 * n)%nat
           else b !! i.
Proof.
  revert b j. induction m as [|m IH]; intros b j Hj Hlen.
  - exists b. split; [done|]. split; [done|]. intros i.
    rewrite !decide_False by lia. done.
  - cbn [getbase_copy].
    destruct (lookup_lt_is_Some_2 b j) as [x Hx]; [lia|].
    rewrite (rd_lookup _ _ _ Hx). cbn [mbind result_bind rbind].
    replace (Z.of_nat n + Z.of_nat j) with (Z.of_nat (n + j)) by lia.
    rewrite wr_Ret by lia. cbn [mbind result_bind rbind].
    assert (Hx1 : <[(n + j)%nat := x + c]> b !! j = Some x).
    { rewrite list_lookup_insert_ne by lia. done. }
    rewrite (rd_lookup _ _ _ Hx1). cbn [mbind result_bind rbind].
    replace (2 * Z.of_nat n + Z.of_nat j) with (Z.of_nat (2 * n + j)) by lia.
    rewrite wr_Ret by (rewrite length_insert; lia). cbn [mbind result_bind rbind].
    replace (Z.of_nat j + 1) with (Z.of_nat (S j)) by lia.
    destruct (IH (<[(2 * n + j)%nat := x + 2 * c]> (<[(n + j)%nat := x + c]> b)) (S j))
      as (b' & -> & Hl & Hb'); [lia|by rewrite !length_insert|].
    exists b'. split; [done|]. split; [by rewrite Hl, !length_insert|].
    intros i. rewrite Hb'. clear Hb' IH.
    rewrite !list_lookup_insert, !length_insert.
    repeat case_decide; try lia; try done.
    + destruct_and!. assert (i - 2 * n = j)%nat as -> by lia. by rewrite Hx.
    + destruct_and!. assert (i - n = j)%nat as -> by lia. by rewrite Hx.
Qed.

(** The copying loop and the three writes that follow it. *)
Lemma getbase_extend {A : Type} (K : list Z -> result A)
    (b : list Z) (c v1 v2 v3 : Z) (n : nat) :
  (3 * n + 3 <= length b)%nat ->
  (b1 ← getbase_copy b c (Z.of_nat n) 0 n;
   b2 ← wr b1 (2 * Z.of_nat n + Z.of_nat n) v1;
   b3 ← wr b2 (2 * Z.of_nat n + Z.of_nat n + 1) v2;
   b4 ← wr b3 (2 * Z.of_nat n + Z.of_nat n + 2) v3;
   K b4)
  = K (take n b ++ ((fun x => x + c) <$> take n b)
         ++ ((fun x => x + 2 * c) <$> take n b)
         ++ [v1; v2; v3] ++ drop (3 * n + 3) b).
Proof.
  intros Hlen.
  destruct (getbase_copy_spec b c n n 0) as (b1 & Hb1 & Hl1 & Hi1); [lia..|].
  change (Z.of_nat 0) with 0 in Hb1. rewrite Hb1. cbn [mbind result_bind rbind].
  replace (2 * Z.of_nat n + Z.of_nat n) with (Z.of_nat (3 * n)) by lia.
  replace (Z.of_nat (3 * n) + 1) with (Z.of_nat (3 * n + 1)) by lia.
  replace (Z.of_nat (3 * n) + 2) with (Z.of_nat (3 * n + 2)) by lia.
  rewrite wr_Ret by lia. cbn [mbind result_bind rbind].
  rewrite wr_Ret by (rewrite !length_insert; lia). cbn [mbind result_bind rbind].
  rewrite wr_Ret by (rewrite !length_insert; lia). cbn [mbind result_bind rbind].
  f_equal. apply list_eq. intros i.
  rewrite !list_lookup_insert, !length_insert, Hi1.
  assert (Hn : length (take n b) = n) by (rewrite length_take; lia).
  destruct (decide (i < n)%nat).
  { rewrite lookup_app_l by lia. rewrite lookup_take_lt by lia.
    repeat case_decide; try lia; done. }
  rewrite lookup_app_r by lia. rewrite Hn.
  destruct (decide (i < 2 * n)%nat).
  { rewrite lookup_app_l by (rewrite length_fmap; lia).
    rewrite list_lookup_fmap, lookup_take_lt by lia.
    repeat case_decide; try lia; done. }
  rewrite lookup_app_r by (rewrite length_fmap; lia). rewrite length_fmap, Hn.
  destruct (decide (i < 3 * n)%nat).
  { rewrite lookup_app_l by (rewrite length_fmap; lia).
    rewrite list_lookup_fmap, lookup_take_lt by lia.
    repeat case_decide; try lia. by replace (i - n - n)%nat with (i - 2 * n)%nat by lia. }
  rewrite lookup_app_r by (rewrite length_fmap; lia). rewrite length_fmap, Hn.
  destruct (decide (i = 3 * n)%nat) as [->|].
  { replace (3 * n - n - n - n)%nat with 0%nat by lia.
    repeat case_decide; try lia; done. }
  destruct (decide (i = 3 * n + 1)%nat) as [->|].
  { replace (3 * n + 1 - n - n - n)%nat with 1%nat by lia.
    repeat case_decide; try lia; done. }
  destruct (decide (i = 3 * n + 2)%nat) as [->|].
  { replace (3 * n + 2 - n - n - n)%nat with 2%nat by lia.
    repeat case_decide; try lia; done. }
  replace (i - n - n - n)%nat with (S (S (S (i - (3 * n + 3))))) by lia.
  cbn [app]. rewrite !lookup_cons, lookup_drop.
  replace (3 * n + 3 + (i - (3 * n + 3)))%nat with i by lia.
  repeat case_decide; try lia; done.
Qed.

Lemma qsort_spec (b : list Z) (n : nat) :
  qsort b (Z.of_nat n) = merge_sort Z.le (take n b) ++ drop n b.
Proof. unfold qsort. by rewrite Nat2Z.id. Qed.

(** ** The invariant of the code table *)

Lemma codes_ok_unique (k : nat) (T : list Z) : codes_ok k T -> unique_codes T.
Proof.
  intros [Hr HND] i j x y Hij Hx Hy.
  apply NoDup_app in HND as (HT & Hdisj & _). split.
  - intros ->. apply Hij. by eapply NoDup_lookup.
  - intros ->. apply (Hdisj (op y)).
    + by eapply list_elem_of_lookup_2.
    + apply list_elem_of_fmap_2. by eapply list_elem_of_lookup_2.
Qed.

Global Instance codes_ok_Permutation (k : nat) : Proper ((≡ₚ) ==> iff) (codes_ok k).
Proof.
  intros T T' HT. unfold codes_ok. by rewrite HT.
Qed.

Lemma codes_ok_mono (k k' : nat) (T : list Z) :
  (k <= k')%nat -> codes_ok k T -> codes_ok k' T.
Proof.
  intros Hk [Hr HND]. split; [|done].
  eapply Forall_impl; [done|]. intros x Hx. simpl in Hx.
  assert (3 ^ Z.of_nat k <= 3 ^ Z.of_nat k') by (apply Z.pow_le_mono_r; lia).
  lia.
Qed.

Lemma codes_ok_base : codes_ok 2 [1; 8; 3].
Proof. split; by_compute. Qed.

Lemma NoDup_three_layers (c : Z) (A B C : list Z) :
  Forall (fun x => 0 <= x < c) A ->
  Forall (fun x => 0 <= x < c) B ->
  Forall (fun x => 0 <= x < c) C ->
  NoDup A -> NoDup B -> NoDup C ->
  NoDup (A ++ ((fun x => x + c) <$> B) ++ ((fun x => x + 2 * c) <$> C)).
Proof.
  rewrite !Forall_forall. intros HA HB HC NA NB NC.
  apply NoDup_app. split; [done|]. split.
  - intros x Hx. rewrite elem_of_app, !list_elem_of_fmap.
    intros [(y & -> & Hy)|(y & -> & Hy)];
      [specialize (HA _ Hx); specialize (HB _ Hy)
      |specialize (HA _ Hx); specialize (HC _ Hy)]; lia.
  - apply NoDup_app. split; [|split].
    + apply NoDup_fmap_2; [|done]. intros x y. lia.
    + intros x. rewrite !list_elem_of_fmap.
      intros (y & -> & Hy) (z & E & Hz).
      specialize (HB _ Hy); specialize (HC _ Hz). lia.
    + apply NoDup_fmap_2; [|done]. intros x y. lia.
Qed.

Lemma submseteq_NoDup (l1 l2 : list Z) : l1 ⊆+ l2 -> NoDup l2 -> NoDup l1.
Proof.
  intros (k & Hk)%submseteq_Permutation HND. rewrite Hk in HND.
  by apply NoDup_app in HND as (? & _ & _).
Qed.

(** Step of the saturated construction: a table for [k] weighings and a
    free number [m] give a table for [k + 1] weighings. *)
Lemma codes_ok_extend (k : nat) (T0 : list Z) (m : Z) :
  codes_ok k T0 -> 1 <= m < 3 ^ Z.of_nat k -> free_in T0 m ->
  codes_ok (S k)
    (T0 ++ ((fun x => x + 3 ^ Z.of_nat k) <$> T0)
        ++ ((fun x => x + 2 * 3 ^ Z.of_nat k) <$> T0)
        ++ [2 * 3 ^ Z.of_nat k; m; 3 ^ Z.of_nat k + op m]).
Proof.
  intros [Hr HND] Hm Hfree.
  set (c := 3 ^ Z.of_nat k) in *.
  assert (Hc : 0 < c) by (apply Z.pow_pos_nonneg; lia).
  assert (Hom : 1 <= op m < c).
  { pose proof (op_bounds k m ltac:(fold c; lia)). pose proof (op_pos m). fold c in H. lia. }
  assert (Hro : Forall (fun x => 1 <= x < c) (op <$> T0)).
  { apply Forall_fmap. eapply Forall_impl; [exact Hr|]. intros x Hx. simpl in *.
    pose proof (op_bounds k x ltac:(fold c; lia)). pose proof (op_pos x). fold c in H. lia. }
  split.
  - rewrite Nat2Z.inj_succ, Z.pow_succ_r by lia. fold c.
    rewrite !Forall_app, !Forall_fmap. repeat split.
    + eapply Forall_impl; [exact Hr|]. intros x Hx. simpl in *. lia.
    + eapply Forall_impl; [exact Hr|]. intros x Hx. simpl in *. lia.
    + eapply Forall_impl; [exact Hr|]. intros x Hx. simpl in *. lia.
    + repeat constructor; lia.
  - set (O := op <$> T0) in *.
    assert (HopT : op <$> (T0 ++ ((fun x => x + c) <$> T0)
                   ++ ((fun x => x + 2 * c) <$> T0) ++ [2 * c; m; c + op m])
            = O ++ ((fun x => x + 2 * c) <$> O) ++ ((fun x => x + c) <$> O)
                ++ [c; op m; m + 2 * c]).
    { rewrite !fmap_app. fold O. f_equal. f_equal; [|f_equal].
      - unfold O. rewrite <- !list_fmap_compose. apply list_fmap_ext.
        intros i x Hx. simpl.
        apply list_elem_of_lookup_2 in Hx. rewrite Forall_forall in Hr.
        specialize (Hr x Hx). simpl in Hr.
        pose proof (op_lead k x 1 ltac:(fold c; lia) ltac:(lia)) as H.
        fold c in H. rewrite Z.mul_1_l in H. rewrite H.
        change (swap_digit 1) with 2. lia.
      - unfold O. rewrite <- !list_fmap_compose. apply list_fmap_ext.
        intros i x Hx. simpl.
        apply list_elem_of_lookup_2 in Hx. rewrite Forall_forall in Hr.
        specialize (Hr x Hx). simpl in Hr.
        pose proof (op_lead k x 2 ltac:(fold c; lia) ltac:(lia)) as H.
        fold c in H. rewrite H. change (swap_digit 2) with 1. lia.
      - assert (E1 : op (2 * c) = c).
        { pose proof (op_lead k 0 2 ltac:(fold c; lia) ltac:(lia)) as H.
          fold c in H. rewrite Z.add_0_l, op_0 in H. rewrite H.
          change (swap_digit 2) with 1. lia. }
        assert (E3 : op (c + op m) = m + 2 * c).
        { pose proof (op_lead k (op m) 1 ltac:(fold c; lia) ltac:(lia)) as H.
          fold c in H. rewrite Z.mul_1_l, op_involutive in H by lia.
          rewrite Z.add_comm, H. change (swap_digit 1) with 2. lia. }
        cbn [fmap list_fmap]. by rewrite E1, E3. }
    rewrite HopT.
    apply free_in_spec in Hfree as [Hm1 Hm2]. fold O in Hm2.
    assert (Ho1 : op m ∉ T0).
    { intros Hin. apply Hm2. unfold O.
      rewrite <- (op_involutive m) by lia. by apply list_elem_of_fmap_2. }
    assert (Ho2 : op m ∉ O).
    { unfold O. intros (x & E & Hx)%list_elem_of_fmap.
      apply op_inj in E; [by subst|lia|].
      rewrite Forall_forall in Hr. specialize (Hr x Hx). simpl in Hr. lia. }
    assert (Hne : m <> op m) by (pose proof (op_neq m); lia).
    rewrite Forall_forall in Hr, Hro.
    assert (HU : NoDup (T0 ++ O ++ [m; op m; 0])).
    { rewrite app_assoc. apply NoDup_app. split; [done|]. split.
      - intros x [Hx|Hx]%elem_of_app; set_unfold;
          intros [->|[->|[->|[]]]]; try done;
          [specialize (Hr _ Hx)|specialize (Hro _ Hx)]; simpl in *; lia.
      - repeat constructor; set_unfold; lia. }
    assert (Hp :
      (T0 ++ ((fun x => x + c) <$> T0) ++ ((fun x => x + 2 * c) <$> T0)
          ++ [2 * c; m; c + op m])
      ++ O ++ ((fun x => x + 2 * c) <$> O) ++ ((fun x => x + c) <$> O)
         ++ [c; op m; m + 2 * c]
      ≡ₚ (T0 ++ [m] ++ O ++ [op m])
         ++ ((fun x => x + c) <$> (T0 ++ [op m] ++ O ++ [0]))
         ++ ((fun x => x + 2 * c) <$> (T0 ++ [0] ++ O ++ [m]))).
    { rewrite !fmap_app. cbn [fmap list_fmap].
      replace (0 + c) with c by lia. replace (0 + 2 * c) with (2 * c) by lia.
      replace (op m + c) with (c + op m) by lia.
      solve_Permutation. }
    rewrite Hp. clear Hp HopT.
    assert (Hall : forall x, x ∈ T0 ++ O ++ [m; op m; 0] -> 0 <= x < c).
    { intros x [Hx|[Hx|Hx]%elem_of_app]%elem_of_app.
      - specialize (Hr _ Hx). simpl in Hr. lia.
      - specialize (Hro _ Hx). simpl in Hro. lia.
      - set_unfold. lia. }
    apply NoDup_three_layers.
    1-3: apply Forall_forall; intros x Hx; apply Hall; set_solver.
    all: eapply submseteq_NoDup; [|exact HU]; solve_submseteq.
Qed.

Lemma pow3_odd (k : nat) : 3 ^ Z.of_nat k mod 2 = 1.
Proof.
  induction k as [|k IH]; [done|].
  rewrite Nat2Z.inj_succ, Z.pow_succ_r by lia. zlia.
Qed.

Lemma pow3_pos (k : nat) : 0 < 3 ^ Z.of_nat k.
Proof. apply Z.pow_pos_nonneg; lia. Qed.

Lemma n_sat_eq (k : nat) : 2 * n_sat k = 3 ^ Z.of_nat k - 3.
Proof. unfold n_sat. pose proof (pow3_odd k). zlia. Qed.

Lemma n_sat_succ (k : nat) : n_sat (S k) = 3 * n_sat k + 3.
Proof.
  pose proof (n_sat_eq k). pose proof (n_sat_eq (S k)) as H1.
  rewrite Nat2Z.inj_succ, Z.pow_succ_r in H1 by lia. lia.
Qed.

Lemma n_sat_quot (k : nat) : Z.quot (ipow 3 k) 2 - 1 = n_sat k.
Proof.
  rewrite ipow_spec. pose proof (pow3_pos k). pose proof (n_sat_eq k).
  pose proof (pow3_odd k). zlia.
Qed.

Lemma n_sat_quot' (k : nat) : Z.quot (ipow 3 k - 1) 2 - 1 = n_sat k.
Proof.
  rewrite ipow_spec. pose proof (pow3_pos k). pose proof (n_sat_eq k).
  pose proof (pow3_odd k). zlia.
Qed.

(** A decidable property that holds somewhere in [lo .. lo + n - 1] has a
    least witness there. *)
Lemma least_witness (P : Z -> Prop) `{!forall x, Decision (P x)} (lo : Z) (n : nat) :
  (forall m, lo <= m < lo + Z.of_nat n -> ~ P m) \/
  (exists m, lo <= m < lo + Z.of_nat n /\ P m /\ forall m', lo <= m' < m -> ~ P m').
Proof.
  induction n as [|n [IH|(m & Hm & HP & Hleast)]].
  - left. intros m Hm. lia.
  - destruct (decide (P (lo + Z.of_nat n))) as [HP|HP].
    + right. exists (lo + Z.of_nat n). split; [lia|]. split; [done|].
      intros m' Hm'. apply IH. lia.
    + left. intros m Hm.
      destruct (decide (m = lo + Z.of_nat n)) as [->|]; [done|]. apply IH. lia.
  - right. exists m. split; [lia|]. done.
Qed.

(** Counting: the codes and complements of a table of fewer than
    [(3^k - 1) / 2] coins leave a number of [1 .. 3^k - 1] free. *)
Lemma exists_least_free (k : nat) (T : list Z) :
  codes_ok k T -> 2 * Z.of_nat (length T) < 3 ^ Z.of_nat k - 1 ->
  exists m, 1 <= m <= 3 ^ Z.of_nat k - 1 /\ free_in T m /\
            forall m', 1 <= m' < m -> ~ free_in T m'.
Proof.
  intros [Hr HND] Hlen.
  pose proof (pow3_pos k) as Hc.
  destruct (least_witness (free_in T) 1 (Z.to_nat (3 ^ Z.of_nat k - 1)))
    as [Hnone|(m & Hm & Hfree & Hleast)].
  - exfalso.
    assert (Hsub : seqZ 1 (3 ^ Z.of_nat k - 1) ⊆+ T ++ (op <$> T)).
    { apply NoDup_submseteq; [apply NoDup_seqZ|].
      intros x Hx%elem_of_seqZ.
      destruct (decide (x ∈ T ++ (op <$> T))) as [|Hnin]; [done|].
      exfalso. apply (Hnone x); [lia|].
      apply free_in_spec. set_solver. }
    apply submseteq_length in Hsub.
    rewrite length_seqZ, length_app, length_fmap in Hsub. lia.
  - exists m. split; [lia|]. done.
Qed.

(** ** The saturated construction *)

(** One step of [getbase], from the table [T0] of [k] weighings
    to the table of [k + 1] weighings. *)
Lemma getbase_step (k : nat) (b T0 : list Z) :
  (2 <= k)%nat ->
  getbase k b = Ret (T0 ++ drop (length T0) b) ->
  Z.of_nat (length T0) = n_sat k ->
  codes_ok k T0 ->
  n_sat (S k) <= Z.of_nat (length b) ->
  exists m,
    1 <= m <= 3 ^ Z.of_nat k - 1 /\ free_in T0 m /\
    (forall m', 1 <= m' < m -> ~ free_in T0 m') /\
    missing (T0 ++ drop (length T0) b) (n_sat k) (3 ^ Z.of_nat k - 1) = Ret m /\
    getbase (S k) b =
      Ret (merge_sort Z.le
             (T0 ++ ((fun x => x + 3 ^ Z.of_nat k) <$> T0)
                 ++ ((fun x => x + 2 * 3 ^ Z.of_nat k) <$> T0)
                 ++ [2 * 3 ^ Z.of_nat k; m; 3 ^ Z.of_nat k + op m])
           ++ drop (Z.to_nat (n_sat (S k))) b).
Proof.
  intros Hk Hget Hlen Hok Hb.
  pose proof (n_sat_eq k) as Hsat. pose proof (n_sat_succ k) as Hsucc.
  pose proof (pow3_pos k) as Hc.
  destruct (exists_least_free k T0 Hok ltac:(lia)) as (m & Hm & Hfree & Hleast).
  exists m. split; [done|]. split; [done|]. split; [done|].
  set (n := length T0) in *.
  assert (Htake : take n (T0 ++ drop n b) = T0) by (by apply take_app_length).
  assert (Hmiss : missing (T0 ++ drop n b) (n_sat k) (3 ^ Z.of_nat k - 1) = Ret m).
  { destruct Hok as [Hr _]. rewrite Forall_forall in Hr.
    apply missing_found; rewrite <- ?Hlen, ?Nat2Z.id, ?Htake; try done.
    - rewrite length_app, length_drop. lia.
    - lia.
    - intros x Hx. specialize (Hr x Hx). simpl in Hr.
      pose proof (op_bounds k x ltac:(lia)). lia. }
  split; [done|].
  cbn [getbase].
  destruct (Nat.eqb_spec (S k) 2) as [|_]; [lia|].
  rewrite Hget. cbn [mbind result_bind rbind].
  rewrite n_sat_quot, n_sat_quot, ipow_spec, Hmiss. cbn [mbind result_bind rbind].
  rewrite <- Hlen, Nat2Z.id. fold n.
  rewrite (getbase_extend _ (T0 ++ drop n b));
    [|rewrite length_app, length_drop; lia].
  rewrite Htake. f_equal.
  replace (n_sat (S k)) with (Z.of_nat (3 * n + 3)) by lia.
  rewrite qsort_spec, Nat2Z.id.
  set (T' := T0 ++ _ ++ _ ++ [_; _; _]).
  assert (HT' : length T' = (3 * n + 3)%nat).
  { unfold T'. rewrite !length_app, !length_fmap. simpl. lia. }
  assert (Hdrop : drop (3 * n + 3) (T0 ++ drop n b) = drop (3 * n + 3) b).
  { rewrite drop_app_ge by lia. rewrite drop_drop. f_equal. lia. }
  rewrite Hdrop.
  replace (T0 ++ ((fun x => x + 3 ^ Z.of_nat k) <$> T0)
              ++ ((fun x => x + 2 * 3 ^ Z.of_nat k) <$> T0)
              ++ [2 * 3 ^ Z.of_nat k; m; 3 ^ Z.of_nat k + op m] ++ drop (3 * n + 3) b)
    with (T' ++ drop (3 * n + 3) b).
  2: { unfold T'. by rewrite <- !app_assoc. }
  rewrite <- HT', take_app_length, drop_app_length. done.
Qed.

Lemma n_sat_2 : n_sat 2 = 3.
Proof. reflexivity. Qed.

Lemma n_sat_mono (k : nat) : (2 <= k)%nat -> 3 <= n_sat k /\ n_sat k < n_sat (S k).
Proof.
  induction k as [|k IH]; [lia|]. intros Hk.
  destruct (decide (k = 1%nat)) as [->|]; [by vm_compute|].
  rewrite (n_sat_succ (S k)). lia.
Qed.

(** [getbase k b] fills the first [n_sat k] cells of [b] with a table that
    satisfies the invariant; it always returns. *)
Lemma getbase_spec (k : nat) (b : list Z) :
  (2 <= k)%nat -> n_sat k <= Z.of_nat (length b) ->
  exists T,
    getbase k b = Ret (T ++ drop (length T) b) /\
    Z.of_nat (length T) = n_sat k /\
    codes_ok k T.
Proof.
  induction k as [|k IH]; [lia|]. intros Hk Hb.
  destruct (decide (k = 1%nat)) as [->|Hk1].
  - exists [1; 8; 3]. split; [|split; [done|apply codes_ok_base]].
    rewrite n_sat_2 in Hb.
    destruct b as [|x0 [|x1 [|x2 b]]]; simpl in Hb; try lia.
    cbn [getbase Nat.eqb].
    rewrite wr_Ret_Z by (simpl; lia). cbn [mbind result_bind rbind].
    rewrite wr_Ret_Z by (rewrite ?length_insert; simpl; lia).
    cbn [mbind result_bind rbind].
    rewrite wr_Ret_Z by (rewrite ?length_insert; simpl; lia). reflexivity.
  - pose proof (n_sat_mono k ltac:(lia)) as [Hn3 Hlt].
    destruct (IH ltac:(lia) ltac:(lia)) as (T0 & Hget & Hlen & Hok).
    destruct (getbase_step k b T0 ltac:(lia) Hget Hlen Hok Hb)
      as (m & Hm & Hfree & _ & _ & Hget').
    eexists. split; [|split].
    + rewrite Hget'. f_equal. f_equal. f_equal.
      rewrite merge_sort_Permutation, !length_app, !length_fmap. simpl.
      pose proof (n_sat_succ k). lia.
    + rewrite merge_sort_Permutation, !length_app, !length_fmap. simpl.
      pose proof (n_sat_succ k). lia.
    + rewrite merge_sort_Permutation. apply codes_ok_extend; [done|lia|done].
Qed.

Lemma free_in_app (T1 T2 : list Z) (m : Z) :
  free_in (T1 ++ T2) m <-> free_in T1 m /\ free_in T2 m.
Proof. unfold free_in. apply Forall_app. Qed.

(** C7. In the step of [getbase] from the table [T0] of [k] weighings to
    [k + 1] weighings ([k + 1 <= 19], so that the codes are [int]s), the
    number [m] is the least positive number that is
    neither a code of [T0] nor the complement of one: the scan of [missing]
    over [1 .. 3^k - 1] returns it, and so does a scan over
    [1 .. 3^(k+1) - 1].  It is also the least number free of the table made
    of steps 1 to 4.  The codes [m] and [3^k + op m] are appended. *)
Theorem getbase_least_missing (k : nat) (b : list Z) :
  (2 <= k <= 18)%nat -> n_sat (S k) <= Z.of_nat (length b) ->
  let c := 3 ^ Z.of_nat k in
  exists (T0 : list Z) (m : Z),
    getbase k b = Ret (T0 ++ drop (length T0) b) /\
    Z.of_nat (length T0) = n_sat k /\
    1 <= m <= 3 ^ Z.of_nat (S k) - 1 /\
    free_in T0 m /\
    (forall m', 1 <= m' < m -> ~ free_in T0 m') /\
    (let E := T0 ++ ((fun x => x + c) <$> T0) ++ ((fun x => x + 2 * c) <$> T0) ++ [2 * c] in
     free_in E m /\ forall m', 1 <= m' < m -> ~ free_in E m') /\
    missing (T0 ++ drop (length T0) b) (n_sat k) (c - 1) = Ret m /\
    missing (T0 ++ drop (length T0) b) (n_sat k) (3 ^ Z.of_nat (S k) - 1) = Ret m /\
    getbase (S k) b =
      Ret (merge_sort Z.le
             (T0 ++ ((fun x => x + c) <$> T0) ++ ((fun x => x + 2 * c) <$> T0)
                 ++ [2 * c; m; c + op m])
           ++ drop (Z.to_nat (n_sat (S k))) b).
Proof.
  intros [Hk _] Hb c.
  pose proof (n_sat_mono k Hk) as [Hn3 Hlt].
  destruct (getbase_spec k b Hk ltac:(lia)) as (T0 & Hget & Hlen & Hok).
  destruct (getbase_step k b T0 Hk Hget Hlen Hok Hb)
    as (m & Hm & Hfree & Hleast & Hmiss & Hget').
  fold c in Hm, Hmiss, Hget'.
  assert (Hc : 0 < c) by apply pow3_pos.
  assert (Hc3 : 3 ^ Z.of_nat (S k) = 3 * c).
  { rewrite Nat2Z.inj_succ, Z.pow_succ_r by lia. done. }
  destruct Hok as [Hr HND]. rewrite Forall_forall in Hr.
  exists T0, m. repeat split; try done.
  - lia.
  - lia.
  - rewrite !free_in_app. split; [done|].
    unfold free_in. rewrite !Forall_fmap. repeat split.
    + apply Forall_forall. intros x Hx. specialize (Hr x Hx). simpl in *.
      pose proof (op_lead k x 1 ltac:(lia) ltac:(lia)) as H.
      fold c in H. rewrite Z.mul_1_l in H. rewrite H.
      pose proof (op_nonneg x). change (swap_digit 1) with 2. lia.
    + apply Forall_forall. intros x Hx. specialize (Hr x Hx). simpl in *.
      pose proof (op_lead k x 2 ltac:(lia) ltac:(lia)) as H.
      fold c in H. rewrite H.
      pose proof (op_nonneg x). change (swap_digit 2) with 1. lia.
    + repeat constructor; [lia|].
      pose proof (op_lead k 0 2 ltac:(lia) ltac:(lia)) as H.
      fold c in H. rewrite Z.add_0_l, op_0 in H. rewrite H.
      change (swap_digit 2) with 1. lia.
  - intros m' Hm' [Hf _]%free_in_app. by apply (Hleast m').
  - set (n := length T0) in *.
    apply missing_found; rewrite <- ?Hlen, ?Nat2Z.id; unfold n;
      rewrite ?take_app_length; try done.
    + rewrite length_app, length_drop. lia.
    + lia.
    + intros x Hx. specialize (Hr x Hx). simpl in Hr.
      pose proof (op_bounds k x ltac:(lia)). fold c in H. lia.
    + lia.
Qed.

Lemma getbase_least_missing_witness :
  let k := 2%nat in
  let b := replicate 12 0 in
  let c := 3 ^ Z.of_nat k in
  exists (T0 : list Z) (m : Z),
    getbase k b = Ret (T0 ++ drop (length T0) b) /\
    Z.of_nat (length T0) = n_sat k /\
    1 <= m <= 3 ^ Z.of_nat (S k) - 1 /\
    free_in T0 m /\
    (forall m', 1 <= m' < m -> ~ free_in T0 m') /\
    (let E := T0 ++ ((fun x => x + c) <$> T0) ++ ((fun x => x + 2 * c) <$> T0) ++ [2 * c] in
     free_in E m /\ forall m', 1 <= m' < m -> ~ free_in E m') /\
    missing (T0 ++ drop (length T0) b) (n_sat k) (c - 1) = Ret m /\
    missing (T0 ++ drop (length T0) b) (n_sat k) (3 ^ Z.of_nat (S k) - 1) = Ret m /\
    getbase (S k) b =
      Ret (merge_sort Z.le
             (T0 ++ ((fun x => x + c) <$> T0) ++ ((fun x => x + 2 * c) <$> T0)
                 ++ [2 * c; m; c + op m])
           ++ drop (Z.to_nat (n_sat (S k))) b).
Proof.
  apply (getbase_least_missing 2 (replicate 12 0)).
  - lia.
  - by_compute.
Defined.

(** The step from 2 to 3 weighings: the table [1; 8; 3] leaves 5 and its
    complement 7 free. *)
Example getbase_step_2 :
  missing [1; 8; 3] 3 8 = Ret 5 /\ op 5 = 7 /\
  getbase 3 (replicate 12 0) = Ret [1; 3; 5; 8; 10; 12; 16; 17; 18; 19; 21; 26].
Proof. repeat split; vm_compute; reflexivity. Qed.

(** ** Adding one coin *)

Lemma mcomplement_loop_spec (m hc : Z) (k : nat) (c s : Z) :
  0 <= m -> 0 <= hc ->
  mcomplement_loop m hc k c s =
  match mcomplement_digits m hc k with
  | Some t => s + c * t
  | None => 0
  end.
Proof.
  revert m hc c s. induction k as [|k IH]; intros m hc c s Hm Hh.
  - simpl. lia.
  - cbn [mcomplement_loop mcomplement_digits].
    rewrite !Z.rem_mod_nonneg, !Z.quot_div_nonneg by lia.
    destruct (Z.eqb_spec (m mod 3) 0) as [E|E].
    + rewrite IH by zlia.
      destruct (mcomplement_digits (m / 3) (hc / 3) k); simpl; lia.
    + destruct (Z.eqb_spec (hc mod 3) 0) as [E'|E']; simpl; [|done].
      rewrite IH by zlia. unfold swap_digit.
      destruct (mcomplement_digits (m / 3) (hc / 3) k); simpl; [|done].
      destruct (Z.eqb_spec (m mod 3) 1); [lia|].
      destruct (Z.eqb_spec (m mod 3) 2); [lia|]. zlia.
Qed.

Lemma mcomplement_spec (m hc : Z) (k : nat) :
  0 <= m -> 0 <= hc ->
  mcomplement m hc k = default 0 (mcomplement_digits m hc k).
Proof.
  intros Hm Hh. unfold mcomplement. rewrite mcomplement_loop_spec by done.
  destruct (mcomplement_digits m hc k); simpl; lia.
Qed.

(** The code built by [mcomplement] has [k] digits, differs from [m], and
    is the complement of [m] only when the [k] low digits of [hc] are 0. *)
Lemma mcomplement_digits_props (k : nat) (m hc t : Z) :
  0 <= m < 3 ^ Z.of_nat k -> 0 <= hc ->
  mcomplement_digits m hc k = Some t ->
  0 <= t < 3 ^ Z.of_nat k /\
  (m <> 0 -> t <> m) /\
  (t = op m -> hc mod 3 ^ Z.of_nat k = 0).
Proof.
  revert m hc t. induction k as [|k IH]; intros m hc t Hm Hh Ht.
  - simpl in *. injection Ht as <-. split; [lia|]. split; [lia|].
    intros _. apply Z.mod_1_r.
  - cbn [mcomplement_digits] in Ht.
    rewrite Nat2Z.inj_succ, Z.pow_succ_r in * by lia.
    pose proof (pow3_pos k) as Hc.
    destruct (mcomplement_digits (m / 3) (hc / 3) k) as [t'|] eqn:Ht';
      [|by repeat case_match].
    destruct (IH (m / 3) (hc / 3) t' ltac:(zlia) ltac:(zlia) Ht') as (Hr & Hne & Hop).
    pose proof (op_digits m ltac:(lia)) as [Hd Hq].
    assert (Hmod : forall a, a / 3 mod 3 ^ Z.of_nat k = 0 -> a mod 3 = 0 ->
                             a mod (3 * 3 ^ Z.of_nat k) = 0).
    { intros a H1 H2. rewrite Z.rem_mul_r by lia. lia. }
    destruct (Z.eqb_spec (m mod 3) 0) as [E|E].
    + simpl in Ht. injection Ht as <-.
      split; [zlia|]. split.
      * intros Hm0 Heq. apply Hne; zlia.
      * intros Heq. rewrite E in Hd. change (swap_digit 0) with 0 in Hd.
        apply Hmod; [apply Hop|]; zlia.
    + destruct (Z.eqb_spec (hc mod 3) 0) as [E'|E']; simpl in Ht; [|done].
      injection Ht as <-.
      assert (0 <= swap_digit (m mod 3) < 3 /\ swap_digit (m mod 3) <> m mod 3).
      { unfold swap_digit. destruct (Z.eqb_spec (m mod 3) 1); [lia|].
        destruct (Z.eqb_spec (m mod 3) 2); [lia|]. zlia. }
      split; [zlia|]. split.
      * intros Hm0 Heq. zlia.
      * intros Heq. apply Hmod; [apply Hop|done]. zlia.
Qed.

Lemma wr_inv (a a' : list Z) (i v : Z) :
  wr a i v = Ret a' ->
  0 <= i < Z.of_nat (length a) /\ a' = <[Z.to_nat i := v]> a.
Proof.
  unfold wr. destruct (Z.ltb_spec i 0); [done|].
  destruct (Z.leb_spec (Z.of_nat (length a)) i); [done|].
  simpl. intros [= <-]. split; [lia|done].
Qed.

Lemma rbind_inv {A B : Type} (m : result A) (f : A -> result B) (b : B) :
  (x ← m; f x) = Ret b -> exists a, m = Ret a /\ f a = Ret b.
Proof. destruct m; try done. intros H. by eexists. Qed.

(** What a successful round of the inner loop of [add] has done. *)
Lemma add_inner_inv (hc : list Z) (k : nat) (nc m : Z) (n j : nat) (hc' : list Z) :
  add_inner hc k nc m (Z.of_nat j) n = Ret (Some hc') ->
  exists (i : nat) (h : Z),
    (j <= i < j + n)%nat /\
    hc !! i = Some h /\
    mcomplement m h k <> 0 /\
    isfree (mcomplement m h k) hc nc = Ret true /\
    0 <= nc < Z.of_nat (length hc) /\
    (i < length hc)%nat /\
    hc' = qsort (<[Z.to_nat nc := m]> (<[i := mcomplement m h k]> hc)) (nc + 1).
Proof.
  revert j. induction n as [|n IH]; intros j; [done|].
  cbn [add_inner]. intros H.
  apply rbind_inv in H as (h & Hh & H).
  apply rd_Ret in Hh as [_ Hh]. rewrite Nat2Z.id in Hh.
  apply rbind_inv in H as (fr & Hfr & H).
  destruct fr.
  - destruct (Z.eqb_spec (mcomplement m h k) 0) as [|Hne]; [done|].
    apply rbind_inv in H as (hc1 & H1 & H).
    apply rbind_inv in H as (hc2 & H2 & H).
    apply wr_inv in H1 as [Hj ->]. apply wr_inv in H2 as [Hnc ->].
    rewrite length_insert in Hnc. rewrite Nat2Z.id in *.
    injection H as <-.
    exists j, h. repeat split; try done; lia.
  - replace (Z.of_nat j + 1) with (Z.of_nat (S j)) in H by lia.
    destruct (IH _ H) as (i & h' & Hi & ?). exists i, h'. split; [lia|done].
Qed.

Lemma add_outer_inv (hc : list Z) (k : nat) (nc : Z) (n : nat) (m0 : Z) (hc' : list Z) :
  add_outer hc k nc m0 n = Ret hc' ->
  exists (m : Z) (i : nat) (h : Z),
    m0 <= m < m0 + Z.of_nat n /\
    isfree m hc nc = Ret true /\
    (i < Z.to_nat nc)%nat /\
    hc !! i = Some h /\
    mcomplement m h k <> 0 /\
    isfree (mcomplement m h k) hc nc = Ret true /\
    0 <= nc < Z.of_nat (length hc) /\
    hc' = qsort (<[Z.to_nat nc := m]> (<[i := mcomplement m h k]> hc)) (nc + 1).
Proof.
  revert m0. induction n as [|n IH]; intros m0; [done|].
  cbn [add_outer]. intros H.
  apply rbind_inv in H as (fr & Hfr & H).
  assert (Hnext : add_outer hc k nc (m0 + 1) n = Ret hc' ->
          exists (m : Z) (i : nat) (h : Z),
            m0 <= m < m0 + Z.of_nat (S n) /\
            isfree m hc nc = Ret true /\
            (i < Z.to_nat nc)%nat /\
            hc !! i = Some h /\
            mcomplement m h k <> 0 /\
            isfree (mcomplement m h k) hc nc = Ret true /\
            0 <= nc < Z.of_nat (length hc) /\
            hc' = qsort (<[Z.to_nat nc := m]> (<[i := mcomplement m h k]> hc)) (nc + 1)).
  { intros H'. destruct (IH _ H') as (m & i & h & Hm & ?).
    exists m, i, h. split; [lia|done]. }
  destruct fr; simpl in H; [|by apply Hnext].
  apply rbind_inv in H as (o & Ho & H).
  destruct o as [hc1|]; [|by apply Hnext].
  injection H as ->.
  change 0 with (Z.of_nat 0) in Ho.
  apply add_inner_inv in Ho as (i & h & Hi & Hh & Hne & Hf & Hnc & Hil & ->).
  exists m0, i, h. repeat split; try done; lia.
Qed.

(** A successful [add]: a free number [m], a code [h] of the table replaced
    by [t = mcomplement m h k], itself free, and [m] appended. *)
Lemma add_inv (hc : list Z) (k : nat) (nc : Z) (hc' : list Z) :
  add hc k nc = Ret hc' ->
  let T := take (Z.to_nat nc) hc in
  exists (m : Z) (i : nat) (h : Z),
    0 <= nc < Z.of_nat (length hc) /\
    1 <= m <= 3 ^ Z.of_nat k - 1 /\
    free_in T m /\
    T !! i = Some h /\
    mcomplement m h k <> 0 /\
    free_in T (mcomplement m h k) /\
    take (Z.to_nat (nc + 1)) hc' ≡ₚ <[i := mcomplement m h k]> T ++ [m] /\
    length hc' = length hc.
Proof.
  intros H T. unfold add in H.
  apply add_outer_inv in H as (m & i & h & Hm & Hfm & Hi & Hh & Hne & Hft & Hnc & ->).
  rewrite isfree_spec in Hfm, Hft by lia.
  injection Hfm as Hfm. injection Hft as Hft.
  apply bool_decide_eq_true in Hfm, Hft.
  exists m, i, h. split; [done|]. split.
  { rewrite ipow_spec in Hm. pose proof (pow3_pos k). lia. }
  split; [done|]. split.
  { unfold T. by rewrite lookup_take_lt. }
  split; [done|]. split; [done|].
  unfold qsort.
  set (n := Z.to_nat nc) in *.
  replace (Z.to_nat (nc + 1)) with (S n) by lia.
  set (a := <[n := m]> (<[i := mcomplement m h k]> hc)).
  assert (Hla : length a = length hc) by (unfold a; by rewrite !length_insert).
  assert (Hta : take (S n) a = <[i := mcomplement m h k]> T ++ [m]).
  { unfold a, T. rewrite (take_S_r _ _ m).
    - rewrite take_insert_ge by lia. f_equal.
      by rewrite take_insert_lt by lia.
    - apply list_lookup_insert_eq. rewrite length_insert. lia. }
  split.
  - rewrite take_app_length'.
    + by rewrite merge_sort_Permutation, Hta.
    + rewrite (Permutation_length (merge_sort_Permutation _ _)).
      rewrite length_take. lia.
  - rewrite length_app, (Permutation_length (merge_sort_Permutation _ _)).
    rewrite length_take, length_drop. lia.
Qed.

(** The step of [add] keeps the invariant. *)
Lemma codes_ok_add (k : nat) (T : list Z) (m h : Z) (i : nat) :
  codes_ok k T ->
  1 <= m <= 3 ^ Z.of_nat k - 1 -> free_in T m ->
  T !! i = Some h ->
  mcomplement m h k <> 0 -> free_in T (mcomplement m h k) ->
  codes_ok k (<[i := mcomplement m h k]> T ++ [m]).
Proof.
  intros [Hr HND] Hm Hfm Hh Hne Hft.
  set (t := mcomplement m h k) in *.
  rewrite Forall_forall in Hr.
  assert (Hhr : 1 <= h < 3 ^ Z.of_nat k).
  { apply Hr. by eapply list_elem_of_lookup_2. }
  assert (Hd : mcomplement_digits m h k = Some t).
  { unfold t in *. rewrite mcomplement_spec in * by lia.
    by destruct (mcomplement_digits m h k). }
  destruct (mcomplement_digits_props k m h t ltac:(lia) ltac:(lia) Hd)
    as (Htr & Htm & Hto).
  assert (Htop : t <> op m).
  { intros E. specialize (Hto E). rewrite Z.mod_small in Hto by lia. lia. }
  assert (Htpos : 1 <= t < 3 ^ Z.of_nat k) by lia.
  clear Htr Hto Hd Hne.
  (* the table around the replaced code *)
  pose proof (take_drop_middle T i h Hh) as HT.
  set (T1 := take i T) in *. set (T2 := drop (S i) T) in *.
  assert (Hins : <[i := t]> T = T1 ++ t :: T2).
  { rewrite <- HT at 1. unfold T1.
    assert (length (take i T) = i) as Hl.
    { apply length_take_le. apply lookup_lt_Some in Hh. lia. }
    rewrite <- Hl at 1. rewrite insert_app_r_alt by lia.
    replace (length (take i T) - length (take i T))%nat with 0%nat by lia. done. }
  rewrite Hins.
  assert (Hsub : T1 ++ T2 ⊆+ T) by (rewrite <- HT; solve_submseteq).
  split.
  - apply Forall_forall. intros x Hx.
    assert (x ∈ T1 ++ T2 \/ x = t \/ x = m) as [Hx'|[->| ->]] by set_solver.
    + apply Hr. by eapply elem_of_submseteq.
    + done.
    + simpl. lia.
  - apply free_in_spec in Hfm as [Hm1 Hm2].
    apply free_in_spec in Hft as [Ht1 Ht2].
    assert (Hopin : forall x, 0 <= x -> x ∉ T -> x ∉ (op <$> T) ->
                              (op x ∉ T) /\ (op x ∉ (op <$> T))).
    { intros x Hx H1 H2. split.
      - intros Hin. apply H2. rewrite <- (op_involutive x) by done.
        by apply list_elem_of_fmap_2.
      - intros (z & E & Hz)%list_elem_of_fmap.
        apply op_inj in E; [by rewrite E in H1|done|]. specialize (Hr z Hz). simpl in Hr. lia. }
    destruct (Hopin m ltac:(lia) Hm1 Hm2) as [Hm3 Hm4].
    destruct (Hopin t ltac:(lia) Ht1 Ht2) as [Ht3 Ht4].
    assert (Hp : (T1 ++ t :: T2 ++ [m]) ++ (op <$> T1 ++ t :: T2 ++ [m])
                 ≡ₚ [t; m; op t; op m] ++ (T1 ++ T2) ++ (op <$> T1 ++ T2)).
    { rewrite !fmap_app, !fmap_cons, !fmap_app. cbn [fmap list_fmap]. solve_Permutation. }
    replace ((T1 ++ t :: T2) ++ [m]) with (T1 ++ t :: T2 ++ [m])
      by (by rewrite <- app_assoc).
    rewrite Hp.
    assert (Hsub2 : (T1 ++ T2) ++ (op <$> T1 ++ T2) ⊆+ T ++ (op <$> T)).
    { rewrite <- HT. rewrite !fmap_app, fmap_cons. solve_submseteq. }
    apply NoDup_app. split; [|split].
    + pose proof (op_neq t ltac:(lia)). pose proof (op_neq m ltac:(lia)).
      assert (op t <> op m).
      { intros E. apply op_inj in E; lia. }
      assert (m <> op t).
      { intros E. apply Htop. rewrite E. rewrite op_involutive; lia. }
      repeat constructor; set_unfold; naive_solver.
    + intros x Hx Hin.
      pose proof (elem_of_submseteq _ _ _ Hin Hsub2) as Hin'.
      apply elem_of_app in Hin'.
      set_unfold in Hx. destruct Hx as [->|[->|[->|[->|[]]]]]; tauto.
    + by eapply submseteq_NoDup.
Qed.

Lemma produced_codes_ok (k : nat) (hc : list Z) (nc : Z) :
  produced k hc nc ->
  0 <= nc <= Z.of_nat (length hc) /\ codes_ok k (take (Z.to_nat nc) hc).
Proof.
  induction 1 as [k0 b hc Hk Hb Hget|hc hc' nc Hprod [Hnc IH] Hadd].
  - destruct (getbase_spec k0 b ltac:(lia) Hb) as (T & Hget' & Hlen & Hok).
    rewrite Hget in Hget'. injection Hget' as ->.
    rewrite <- Hlen, Nat2Z.id, take_app_length.
    split; [|apply (codes_ok_mono k0); [lia|done]].
    rewrite length_app. lia.
  - destruct (add_inv _ _ _ _ Hadd) as (m & i & h & Hnc' & Hm & Hfm & Hh & Hne & Hft & Hp & Hl).
    split; [lia|]. rewrite Hp. by apply codes_ok_add.
Qed.

(** C2. Every table the static builder produces -- a saturated table of
    [getbase], then any number of [add] steps for [k] weighings -- satisfies
    the uniqueness invariant: two distinct coins have different codes, and
    the code of one is not the base-3 complement of the code of the other.
    The number of weighings is at most 19, the largest [k] with
    [3^k <= INT_MAX]: the builder computes [3^k] in an [int]. *)
Theorem produced_unique (k : nat) (hc : list Z) (nc : Z) :
  (k <= 19)%nat ->
  produced k hc nc -> unique_codes (take (Z.to_nat nc) hc).
Proof.
  intros _ [_ Hok]%produced_codes_ok. by apply (codes_ok_unique k).
Qed.

Lemma produced_unique_witness :
  unique_codes (take (Z.to_nat 4) [3; 8; 9; 19]).
Proof.
  apply (produced_unique 3 [3; 8; 9; 19] 4); [lia|].
  change 4 with (n_sat 2 + 1).
  apply (produced_add 3 [1; 8; 3; 0]).
  - apply (produced_base 3 2 (replicate 4 0)).
    + lia.
    + by_compute.
    + vm_compute. reflexivity.
  - vm_compute. reflexivity.
Defined.

(** ** The table of [weigh_static] *)

Lemma find_base_inv (fuel k : nat) (n n_coins : Z) (k' : nat) (n' : Z) :
  find_base fuel k n n_coins = Ret (k', n') ->
  (2 <= k)%nat ->
  (k = 2%nat \/ (n = n_sat (k - 1) /\ n < n_coins)) ->
  3 <= n_coins ->
  (2 <= k')%nat /\ n_coins <= n_sat k' /\
  (n' = n_coins /\ n_coins = n_sat k' \/
   (3 <= k')%nat /\ n' = n_sat (k' - 1) /\ n' < n_coins /\ n_coins < n_sat k').
Proof.
  revert k n. induction fuel as [|fuel IH]; intros k n H Hk Hinv Hn; [done|].
  cbn [find_base] in H. rewrite n_sat_quot' in H.
  destruct (Z.geb_spec (n_sat k) n_coins) as [Hge|Hlt].
  - injection H as <- <-. split; [done|]. split; [lia|].
    destruct (Z.leb_spec (n_sat k) n_coins) as [Hle|Hgt].
    + left. lia.
    + right. destruct Hinv as [->|[-> Hlt]].
      * rewrite n_sat_2 in Hgt. lia.
      * destruct (decide (k = 2%nat)) as [->|]; [rewrite n_sat_2 in Hgt; lia|].
        repeat split; try lia.
  - destruct (Z.leb_spec (n_sat k) n_coins) as [Hle|Hgt]; [|lia].
    apply IH in H; [done|lia| |done].
    right. replace (S k - 1)%nat with k by lia. lia.
Qed.

Lemma add_coins_produced (k : nat) (todo : nat) (hc hc' : list Z) (n : Z) :
  produced k hc n ->
  add_coins hc k n todo = Ret hc' ->
  produced k hc' (n + Z.of_nat todo) /\ length hc' = length hc.
Proof.
  revert hc n. induction todo as [|todo IH]; intros hc n Hp H.
  - injection H as <-. rewrite Z.add_0_r. done.
  - cbn [add_coins] in H. apply rbind_inv in H as (hc1 & Hadd & H).
    destruct (IH hc1 (n + 1) (produced_add _ _ _ _ Hp Hadd) H) as [Hp' Hl].
    split.
    + by replace (n + Z.of_nat (S todo)) with (n + 1 + Z.of_nat todo) by lia.
    + rewrite Hl. destruct (add_inv _ _ _ _ Hadd) as (? & ? & ? & Hx). by destruct_and!.
Qed.

(** The table [weigh_static] prints for [n_coins >= 3] coins has one code
    per coin and satisfies the uniqueness invariant. *)
Lemma weigh_static_table_unique (fuel : nat) (n_coins : Z) (k : nat) (hcode : list Z) :
  3 <= n_coins ->
  weigh_static_table fuel n_coins = Ret (k, hcode) ->
  Z.of_nat (length hcode) = n_coins /\
  produced k hcode n_coins /\
  unique_codes hcode.
Proof.
  intros Hn H. unfold weigh_static_table in H.
  apply rbind_inv in H as ([k' n'] & Hfb & H).
  apply rbind_inv in H as (hc & Hget & H).
  apply rbind_inv in H as (hc' & Hadd & H).
  injection H as <- <-.
  apply find_base_inv in Hfb as (Hk & Hle & Hcase); [|lia|by left|done].
  assert (Hprod : produced k' hc n' /\ Z.of_nat (length hc) = n_coins).
  { destruct Hcase as [[-> E]|(Hk3 & -> & Hlt & Hlt')].
    - rewrite Z.eqb_refl in Hget. rewrite E. split.
      + eapply (produced_base k' k'); [lia| |exact Hget].
        rewrite length_replicate. lia.
      + destruct (getbase_spec k' (replicate (Z.to_nat n_coins) 0) Hk) as (T & HT & Hl & _).
        { rewrite length_replicate. lia. }
        rewrite HT in Hget. injection Hget as <-.
        rewrite length_app, length_drop, length_replicate. lia.
    - destruct (Z.eqb_spec (n_sat (k' - 1)) n_coins) as [|_]; [lia|]. split.
      + eapply (produced_base k' (k' - 1)); [lia| |exact Hget].
        rewrite length_replicate. lia.
      + destruct (getbase_spec (k' - 1) (replicate (Z.to_nat n_coins) 0)) as (T & HT & Hl & _);
          [lia|rewrite length_replicate; lia|].
        rewrite HT in Hget. injection Hget as <-.
        rewrite length_app, length_drop, length_replicate. lia. }
  destruct Hprod as [Hprod Hlen].
  destruct (add_coins_produced _ _ _ _ _ Hprod Hadd) as [Hp' Hl'].
  assert (n' <= n_coins) by (destruct Hcase as [[-> _]|(_ & _ & ? & _)]; lia).
  replace (n' + Z.of_nat (Z.to_nat (n_coins - n'))) with n_coins in Hp' by lia.
  split; [lia|]. split; [done|].
  pose proof (produced_codes_ok _ _ _ Hp') as [_ Hok].
  rewrite firstn_all2 in Hok by lia.
  by apply (codes_ok_unique k').
Qed.

(** ** The numbers of case B *)

(** When the numbers of [get_nkl] are not negative, they fit the groups and
    split the [p + q] hypotheses into three parts that differ by at most 1:
    [n1 + k] (left pan heavy), [n2 + p - n1] (right pan heavy) and
    [q - n2 - k] (balanced). *)
Lemma get_nkl_feasible (cfg : coin_cfg) (n1 n2 k l : Z) :
  let p := size cfg C_MORE in
  let q := size cfg C_LESS in
  0 <= p -> 0 <= q ->
  get_nkl cfg = (n1, n2, k, l) ->
  nkl_negative (n1, n2, k, l) = false ->
  0 <= n1 <= p /\ 0 <= n2 /\ 0 <= k /\ n2 + k <= q /\
  -1 <= l <= 2 /\ (l = 2 -> (p + q) mod 3 = 0) /\
  (p - n1) + k + (if l <? 0 then 0 else l) = n1 + n2 + (if l <? 0 then - l else 0) /\
  (2 <= p + q -> 0 < n1 + n2 + (if l <? 0 then - l else 0)) /\
  - 1 <= (n1 + k) - (n2 + p - n1) <= 1 /\
  - 1 <= (n1 + k) - (q - n2 - k) <= 1 /\
  - 1 <= (n2 + p - n1) - (q - n2 - k) <= 1.
Proof.
  intros p q Hp Hq Hnkl Hneg. unfold get_nkl in Hnkl. fold p q in Hnkl.
  unfold nkl_negative in Hneg.
  apply orb_false_elim in Hneg as [Hneg Hk3].
  apply orb_false_elim in Hneg as [Hk1 Hk2].
  apply Z.ltb_ge in Hk1, Hk2, Hk3.
  destruct (Z.eqb_spec (Z.rem (p + q) 3) 0);
    [|destruct (Z.eqb_spec (Z.rem (p + q) 3) 1);
      [|destruct (Z.eqb_spec (Z.rem (p + q) 3) 2)]];
    destruct (Z.eqb_spec (Z.rem p 2) 0); cbn [negb] in Hnkl;
    injection Hnkl as <- <- <- <-; cbn [Z.ltb Z.compare];
    repeat split; try zlia.
Qed.

Lemma size_switch_more_less (cfg : coin_cfg) :
  size (switch_more_less cfg) C_MORE = size cfg C_LESS /\
  size (switch_more_less cfg) C_LESS = size cfg C_MORE /\
  size (switch_more_less cfg) C_EQUAL = size cfg C_EQUAL /\
  size (switch_more_less cfg) C_DOUBLE = size cfg C_DOUBLE /\
  sel (switch_more_less cfg) C_MORE = sel cfg C_LESS /\
  sel (switch_more_less cfg) C_LESS = sel cfg C_MORE /\
  sel (switch_more_less cfg) C_EQUAL = sel cfg C_EQUAL /\
  sel (switch_more_less cfg) C_DOUBLE = sel cfg C_DOUBLE /\
  all_equal (switch_more_less cfg) = all_equal cfg.
Proof. repeat split. Qed.

(** With groups of sizes [p, q >= 0], the numbers of [get_nkl] are negative
    for at most one of the two roles of the groups: after
    [switch_more_less], the second computation of [get_sel_B] succeeds. *)
Lemma get_nkl_switch (cfg : coin_cfg) :
  0 <= size cfg C_MORE -> 0 <= size cfg C_LESS ->
  nkl_negative (get_nkl cfg) = true ->
  nkl_negative (get_nkl (switch_more_less cfg)) = false.
Proof.
  intros Hp Hq. unfold get_nkl.
  destruct (size_switch_more_less cfg) as (-> & -> & _).
  set (p := size cfg C_MORE) in *. set (q := size cfg C_LESS) in *.
  unfold nkl_negative.
  replace (Z.rem (q + p) 3) with (Z.rem (p + q) 3) by (f_equal; lia).
  destruct (Z.eqb_spec (Z.rem (p + q) 3) 0);
    [|destruct (Z.eqb_spec (Z.rem (p + q) 3) 1);
      [|destruct (Z.eqb_spec (Z.rem (p + q) 3) 2)]];
    destruct (Z.eqb_spec (Z.rem p 2) 0); destruct (Z.eqb_spec (Z.rem q 2) 0);
    cbn [negb];
    rewrite !orb_true_iff, !orb_false_iff, !Z.ltb_lt, !Z.ltb_ge; zlia.
Qed.

(** ** The selection of case B *)

Lemma get_sel_B_fill_spec (cfg : coin_cfg) (n1 n2 k l : Z) :
  cfg_wf cfg ->
  let M := sel cfg C_MORE in
  let L := sel cfg C_LESS in
  let E := sel cfg C_EQUAL in
  0 <= n1 <= size cfg C_MORE -> 0 <= n2 -> 0 <= k -> n2 + k <= size cfg C_LESS ->
  -1 <= l <= size cfg C_EQUAL -> (l < 0 -> 1 <= size cfg C_EQUAL) ->
  get_sel_B_fill cfg (n1, n2, k, l)
  = Ret (n1 + n2 + (if l <? 0 then - l else 0),
         take (Z.to_nat n1) M ++ take (Z.to_nat n2) L
           ++ (if l <? 0 then take 1 E else []),
         drop (Z.to_nat n1) M ++ take (Z.to_nat k) (drop (Z.to_nat n2) L)
           ++ take (Z.to_nat l) E).
Proof.
  intros Hwf M L E Hn1 Hn2 Hk Hq Hl Hl'.
  pose proof (Hwf C_MORE) as HM. pose proof (Hwf C_LESS) as HL.
  pose proof (Hwf C_EQUAL) as HE. fold M in HM. fold L in HL. fold E in HE.
  unfold get_sel_B_fill. fold M L E.
  rewrite !tabulate_take by lia. cbn [mbind result_bind rbind].
  assert (Ha3 : (if l <? 0 then e ← rd E 0; Ret [e] else Ret [])
                = Ret (if l <? 0 then take 1 E else [])).
  { destruct (Z.ltb_spec l 0); [|done].
    destruct E as [|e0 E']; [simpl in HE; lia|]. reflexivity. }
  rewrite Ha3. cbn [mbind result_bind rbind].
  rewrite !tabulate_drop by lia. cbn [mbind result_bind rbind].
  do 3 f_equal. rewrite take_ge; [done|]. rewrite length_drop. lia.
Qed.

(** ** Outcomes of a weighing, coin by coin *)

Lemma on_arm_pos_hyp (c : Z) (s : list Z) :
  0 <= c -> on_arm (pos_hyp c) s = if decide (c ∈ s) then 1 else 0.
Proof.
  intros Hc. unfold on_arm, pos_hyp.
  replace (c + 1 - 1) with c by lia.
  repeat case_decide; try done; try lia; exfalso; naive_solver lia.
Qed.

Lemma on_arm_neg_hyp (c : Z) (s : list Z) :
  0 <= c -> on_arm (neg_hyp c) s = if decide (c ∈ s) then -1 else 0.
Proof.
  intros Hc. unfold on_arm, neg_hyp.
  replace (- (- c - 1) - 1) with c by lia.
  repeat case_decide; try done; try lia; exfalso; naive_solver lia.
Qed.

Lemma on_arm_0 (s : list Z) : on_arm 0 s = 0.
Proof. unfold on_arm. repeat case_decide; try done; lia. Qed.

Lemma outcome_0 (s1 s2 : list Z) : outcome s1 s2 0 = C_EQUAL.
Proof. unfold outcome. by rewrite !on_arm_0. Qed.

Lemma outcome_left (s1 s2 : list Z) (c : Z) :
  0 <= c -> c ∈ s1 -> c ∉ s2 ->
  outcome s1 s2 (pos_hyp c) = C_MORE /\ outcome s1 s2 (neg_hyp c) = C_LESS.
Proof.
  intros Hc H1 H2. unfold outcome.
  rewrite !on_arm_pos_hyp, !on_arm_neg_hyp by done.
  by destruct (decide (c ∈ s1)), (decide (c ∈ s2)).
Qed.

Lemma outcome_right (s1 s2 : list Z) (c : Z) :
  0 <= c -> c ∉ s1 -> c ∈ s2 ->
  outcome s1 s2 (pos_hyp c) = C_LESS /\ outcome s1 s2 (neg_hyp c) = C_MORE.
Proof.
  intros Hc H1 H2. unfold outcome.
  rewrite !on_arm_pos_hyp, !on_arm_neg_hyp by done.
  by destruct (decide (c ∈ s1)), (decide (c ∈ s2)).
Qed.

Lemma outcome_off (s1 s2 : list Z) (c : Z) :
  0 <= c -> c ∉ s1 -> c ∉ s2 ->
  outcome s1 s2 (pos_hyp c) = C_EQUAL /\ outcome s1 s2 (neg_hyp c) = C_EQUAL.
Proof.
  intros Hc H1 H2. unfold outcome.
  rewrite !on_arm_pos_hyp, !on_arm_neg_hyp by done.
  by destruct (decide (c ∈ s1)), (decide (c ∈ s2)).
Qed.

Lemma length_filter_all (P : Z -> Prop) `{!forall x, Decision (P x)} (l : list Z) :
  Forall P l -> length (filter P l) = length l.
Proof.
  induction 1 as [|x l Hx _ IH]; [done|].
  rewrite filter_cons, decide_True by done. simpl. by rewrite IH.
Qed.

Lemma length_filter_none (P : Z -> Prop) `{!forall x, Decision (P x)} (l : list Z) :
  Forall (fun x => ~ P x) l -> length (filter P l) = 0%nat.
Proof.
  induction 1 as [|x l Hx _ IH]; [done|].
  by rewrite filter_cons, decide_False.
Qed.

(** The hypotheses [f c] of the coins [c] of a list that all have the
    outcome [t0]. *)
Lemma filter_outcome_const (s1 s2 : list Z) (f : Z -> Z) (X : list Z) (t0 t : ctype) :
  (forall c, c ∈ X -> outcome s1 s2 (f c) = t0) ->
  length (filter (fun x => outcome s1 s2 x = t) (f <$> X))
  = if decide (t = t0) then length X else 0%nat.
Proof.
  intros H. destruct (decide (t = t0)) as [->|Hne].
  - rewrite length_filter_all, length_fmap; [done|].
    apply Forall_fmap, Forall_forall. intros c Hc. by apply H.
  - rewrite length_filter_none; [done|].
    apply Forall_fmap, Forall_forall. intros c Hc. simpl. rewrite H; done.
Qed.

(** ** Counting the outcomes of case B *)

Global Instance outcome_count_Permutation (s1 s2 : list Z) :
  Proper ((≡ₚ) ==> (=) ==> (=)) (outcome_count s1 s2).
Proof. intros P P' HP t t' <-. unfold outcome_count. by rewrite HP. Qed.

Lemma outcome_count_app (s1 s2 P1 P2 : list Z) (t : ctype) :
  outcome_count s1 s2 (P1 ++ P2) t
  = (outcome_count s1 s2 P1 t + outcome_count s1 s2 P2 t)%nat.
Proof. unfold outcome_count. by rewrite filter_app, length_app. Qed.

Lemma outcome_count_const (s1 s2 : list Z) (f : Z -> Z) (X : list Z) (t0 t : ctype) :
  (forall c, c ∈ X -> outcome s1 s2 (f c) = t0) ->
  outcome_count s1 s2 (f <$> X) t = if decide (t = t0) then length X else 0%nat.
Proof. apply filter_outcome_const. Qed.

(** MORE coins [X1] and LESS coins [Y1] on the left pan, MORE coins [X2] and
    LESS coins [Y2] on the right pan, LESS coins [Y3] aside; the pans are
    filled up with coins [E1], [E2] that carry no hypothesis. *)
Lemma count_B_plain (X1 X2 Y1 Y2 Y3 E1 E2 P : list Z) :
  NoDup (X1 ++ X2 ++ Y1 ++ Y2 ++ Y3) ->
  (forall c, c ∈ X1 ++ X2 ++ Y1 ++ Y2 ++ Y3 -> 0 <= c /\ (c ∉ E1) /\ (c ∉ E2)) ->
  P ≡ₚ (pos_hyp <$> X1 ++ X2) ++ (neg_hyp <$> Y1 ++ Y2 ++ Y3) ->
  let s1 := X1 ++ Y1 ++ E1 in
  let s2 := X2 ++ Y2 ++ E2 in
  outcome_count s1 s2 P C_MORE = (length X1 + length Y2)%nat /\
  outcome_count s1 s2 P C_LESS = (length X2 + length Y1)%nat /\
  outcome_count s1 s2 P C_EQUAL = length Y3.
Proof.
  intros HND HE HP s1 s2.
  rewrite !NoDup_app in HND. destruct HND as (_ & H12 & _ & H23 & _ & H34 & _ & H45 & _).
  assert (HX1 : forall c, c ∈ X1 -> 0 <= c /\ c ∈ s1 /\ (c ∉ s2)).
  { intros c Hc. destruct (HE c ltac:(set_solver)) as (? & ? & ?).
    specialize (H12 c Hc). unfold s1, s2. set_solver. }
  assert (HX2 : forall c, c ∈ X2 -> 0 <= c /\ (c ∉ s1) /\ c ∈ s2).
  { intros c Hc. destruct (HE c ltac:(set_solver)) as (? & ? & ?).
    specialize (H23 c Hc). unfold s1, s2. set_solver. }
  assert (HY1 : forall c, c ∈ Y1 -> 0 <= c /\ c ∈ s1 /\ (c ∉ s2)).
  { intros c Hc. destruct (HE c ltac:(set_solver)) as (? & ? & ?).
    specialize (H34 c Hc). unfold s1, s2. set_solver. }
  assert (HY2 : forall c, c ∈ Y2 -> 0 <= c /\ (c ∉ s1) /\ c ∈ s2).
  { intros c Hc. destruct (HE c ltac:(set_solver)) as (? & ? & ?).
    specialize (H45 c Hc). unfold s1, s2. set_solver. }
  assert (HY3 : forall c, c ∈ Y3 -> 0 <= c /\ (c ∉ s1) /\ (c ∉ s2)).
  { intros c Hc. destruct (HE c ltac:(set_solver)) as (? & ? & ?).
    unfold s1, s2. set_solver. }
  assert (Hcount : forall t,
    outcome_count s1 s2 P t =
    ((if decide (t = C_MORE) then length X1 else 0)
     + (if decide (t = C_LESS) then length X2 else 0)
     + ((if decide (t = C_LESS) then length Y1 else 0)
        + ((if decide (t = C_MORE) then length Y2 else 0)
           + (if decide (t = C_EQUAL) then length Y3 else 0))))%nat).
  { intros t. rewrite HP, !fmap_app, !outcome_count_app.
    rewrite (outcome_count_const _ _ pos_hyp X1 C_MORE),
            (outcome_count_const _ _ pos_hyp X2 C_LESS),
            (outcome_count_const _ _ neg_hyp Y1 C_LESS),
            (outcome_count_const _ _ neg_hyp Y2 C_MORE),
            (outcome_count_const _ _ neg_hyp Y3 C_EQUAL); [done|..].
    - intros c Hc. destruct (HY3 c Hc) as (? & ? & ?). by apply outcome_off.
    - intros c Hc. destruct (HY2 c Hc) as (? & ? & ?). by apply outcome_right.
    - intros c Hc. destruct (HY1 c Hc) as (? & ? & ?). by apply outcome_left.
    - intros c Hc. destruct (HX2 c Hc) as (? & ? & ?). by apply outcome_right.
    - intros c Hc. destruct (HX1 c Hc) as (? & ? & ?). by apply outcome_left. }
  rewrite !Hcount. simpl. lia.
Qed.

(** The same with the roles of the groups exchanged: LESS coins [X1], [X2]
    where [get_sel_B] puts MORE coins, MORE coins [Y1], [Y2], [Y3] where it
    puts LESS coins. *)
Lemma count_B_switched (X1 X2 Y1 Y2 Y3 E1 E2 P : list Z) :
  NoDup (X1 ++ X2 ++ Y1 ++ Y2 ++ Y3) ->
  (forall c, c ∈ X1 ++ X2 ++ Y1 ++ Y2 ++ Y3 -> 0 <= c /\ (c ∉ E1) /\ (c ∉ E2)) ->
  P ≡ₚ (neg_hyp <$> X1 ++ X2) ++ (pos_hyp <$> Y1 ++ Y2 ++ Y3) ->
  let s1 := X1 ++ Y1 ++ E1 in
  let s2 := X2 ++ Y2 ++ E2 in
  outcome_count s1 s2 P C_LESS = (length X1 + length Y2)%nat /\
  outcome_count s1 s2 P C_MORE = (length X2 + length Y1)%nat /\
  outcome_count s1 s2 P C_EQUAL = length Y3.
Proof.
  intros HND HE HP s1 s2.
  rewrite !NoDup_app in HND. destruct HND as (_ & H12 & _ & H23 & _ & H34 & _ & H45 & _).
  assert (HX1 : forall c, c ∈ X1 -> 0 <= c /\ c ∈ s1 /\ (c ∉ s2)).
  { intros c Hc. destruct (HE c ltac:(set_solver)) as (? & ? & ?).
    specialize (H12 c Hc). unfold s1, s2. set_solver. }
  assert (HX2 : forall c, c ∈ X2 -> 0 <= c /\ (c ∉ s1) /\ c ∈ s2).
  { intros c Hc. destruct (HE c ltac:(set_solver)) as (? & ? & ?).
    specialize (H23 c Hc). unfold s1, s2. set_solver. }
  assert (HY1 : forall c, c ∈ Y1 -> 0 <= c /\ c ∈ s1 /\ (c ∉ s2)).
  { intros c Hc. destruct (HE c ltac:(set_solver)) as (? & ? & ?).
    specialize (H34 c Hc). unfold s1, s2. set_solver. }
  assert (HY2 : forall c, c ∈ Y2 -> 0 <= c /\ (c ∉ s1) /\ c ∈ s2).
  { intros c Hc. destruct (HE c ltac:(set_solver)) as (? & ? & ?).
    specialize (H45 c Hc). unfold s1, s2. set_solver. }
  assert (HY3 : forall c, c ∈ Y3 -> 0 <= c /\ (c ∉ s1) /\ (c ∉ s2)).
  { intros c Hc. destruct (HE c ltac:(set_solver)) as (? & ? & ?).
    unfold s1, s2. set_solver. }
  assert (Hcount : forall t,
    outcome_count s1 s2 P t =
    ((if decide (t = C_LESS) then length X1 else 0)
     + (if decide (t = C_MORE) then length X2 else 0)
     + ((if decide (t = C_MORE) then length Y1 else 0)
        + ((if decide (t = C_LESS) then length Y2 else 0)
           + (if decide (t = C_EQUAL) then length Y3 else 0))))%nat).
  { intros t. rewrite HP, !fmap_app, !outcome_count_app.
    rewrite (outcome_count_const _ _ neg_hyp X1 C_LESS),
            (outcome_count_const _ _ neg_hyp X2 C_MORE),
            (outcome_count_const _ _ pos_hyp Y1 C_MORE),
            (outcome_count_const _ _ pos_hyp Y2 C_LESS),
            (outcome_count_const _ _ pos_hyp Y3 C_EQUAL); [done|..].
    - intros c Hc. destruct (HY3 c Hc) as (? & ? & ?). by apply outcome_off.
    - intros c Hc. destruct (HY2 c Hc) as (? & ? & ?). by apply outcome_right.
    - intros c Hc. destruct (HY1 c Hc) as (? & ? & ?). by apply outcome_left.
    - intros c Hc. destruct (HX2 c Hc) as (? & ? & ?). by apply outcome_right.
    - intros c Hc. destruct (HX1 c Hc) as (? & ? & ?). by apply outcome_left. }
  rewrite !Hcount. simpl. lia.
Qed.

Lemma coins_of_disjoint (P : list Z) (n c : Z) (t t' : ctype) :
  c ∈ coins_of P n t -> c ∈ coins_of P n t' -> t = t'.
Proof. intros [<- _]%elem_of_coins_of [<- _]%elem_of_coins_of. done. Qed.

Lemma NoDup_coins_app (P : list Z) (n : Z) (t t' : ctype) :
  t <> t' -> NoDup (coins_of P n t ++ coins_of P n t').
Proof.
  intros Ht. apply NoDup_app. split; [apply NoDup_coins_of|].
  split; [|apply NoDup_coins_of].
  intros c H1 H2. apply Ht. by eapply coins_of_disjoint.
Qed.

Lemma take_take_drop (l : list Z) (a b : nat) :
  take a l ++ take b (drop a l) ++ drop b (drop a l) = l.
Proof. by rewrite take_drop, take_drop. Qed.

Lemma cfg_wf_switch (cfg : coin_cfg) : cfg_wf cfg -> cfg_wf (switch_more_less cfg).
Proof. intros Hwf []; simpl; unfold upd; simpl; apply Hwf. Qed.

Lemma elem_of_take_in (l : list Z) (n : nat) (x : Z) : x ∈ take n l -> x ∈ l.
Proof. intros H. eapply elem_of_sublist; [done|apply sublist_take]. Qed.

(** The selection of case B on the configuration of a possibility set, and
    the number of hypotheses behind each outcome. *)
Lemma split_B_counts (P : list Z) (n : Z) (cfg : coin_cfg) :
  NoDup P -> (forall x, x ∈ P -> - n <= x <= n) -> INT_MAX ∉ P ->
  get_cfg (P ++ [INT_MAX]) n = Ret cfg ->
  size cfg C_DOUBLE = 0 -> all_equal cfg = 0 ->
  (2 <= size cfg C_EQUAL \/
   1 <= size cfg C_EQUAL /\ (size cfg C_MORE + size cfg C_LESS) mod 3 <> 0) ->
  exists ns s1 s2,
    getselection cfg = Ret (ns, s1, s2) /\
    ns = Z.of_nat (length s1) /\ ns = Z.of_nat (length s2) /\
    (2 <= size cfg C_MORE + size cfg C_LESS -> 0 < ns) /\
    size cfg C_MORE + size cfg C_LESS = Z.of_nat (length P) /\
    let a := Z.of_nat (outcome_count s1 s2 P C_MORE) in
    let b := Z.of_nat (outcome_count s1 s2 P C_EQUAL) in
    let c := Z.of_nat (outcome_count s1 s2 P C_LESS) in
    a + b + c = size cfg C_MORE + size cfg C_LESS /\
    -1 <= a - b <= 1 /\ -1 <= a - c <= 1 /\ -1 <= b - c <= 1.
Proof.
  intros HND Hr Hmax Hget HD0 Hae0 He.
  destruct (get_cfg_spec P n Hmax HND) as (cfg0 & Hc & Hwf & Hae & Hsel).
  rewrite Hget in Hc. injection Hc as <-.
  pose proof (Hwf C_MORE) as HpM. pose proof (Hwf C_LESS) as HqL.
  pose proof (Hwf C_EQUAL) as HeE. pose proof (Hwf C_DOUBLE) as HdD.
  rewrite Hsel in HpM, HqL, HeE, HdD.
  set (M := coins_of P n C_MORE) in *. set (L := coins_of P n C_LESS) in *.
  set (E := coins_of P n C_EQUAL) in *.
  set (p := size cfg C_MORE) in *. set (q := size cfg C_LESS) in *.
  set (e := size cfg C_EQUAL) in *.
  assert (HDnil : coins_of P n C_DOUBLE = []).
  { apply nil_length_inv. lia. }
  assert (Hn : 0 < n).
  { destruct E as [|c E'] eqn:HE; [simpl in HeE; lia|].
    assert (c ∈ coins_of P n C_EQUAL) as [_ ?]%elem_of_coins_of; [|lia].
    fold E. rewrite HE. set_solver. }
  assert (H0 : 0 ∉ P).
  { intros H0. rewrite Hae0 in Hae. by rewrite decide_True in Hae. }
  assert (HP : P ≡ₚ (pos_hyp <$> M) ++ (neg_hyp <$> L)).
  { rewrite (poss_by_roles P n HND Hr) at 1.
    rewrite decide_False, HDnil by done. simpl. by rewrite !app_nil_r. }
  assert (Hlen : p + q = Z.of_nat (length P)).
  { rewrite HP, length_app, !length_fmap. lia. }
  assert (HML : NoDup (M ++ L)) by (by apply NoDup_coins_app).
  assert (HLM : NoDup (L ++ M)) by (by apply NoDup_coins_app).
  assert (HcE : forall c, c ∈ M ++ L -> 0 <= c /\ (c ∉ E)).
  { intros c [Hc|Hc]%elem_of_app; (split;
      [apply elem_of_coins_of in Hc; lia
      |intros Hc'; by pose proof (coins_of_disjoint _ _ _ _ _ Hc Hc')]). }
  unfold getselection. fold p q. rewrite HD0, Hae0. simpl.
  rewrite andb_false_r. unfold get_sel_B.
  destruct (nkl_negative (get_nkl cfg)) eqn:Hneg.
  - (* the roles of the groups are exchanged *)
    pose proof (get_nkl_switch cfg ltac:(fold p; lia) ltac:(fold q; lia) Hneg) as Hneg'.
    rewrite Hneg'.
    destruct (size_switch_more_less cfg) as (Sp & Sq & Se & _ & SM & SL & SE & _).
    destruct (get_nkl (switch_more_less cfg)) as [[[n1 n2] k] l] eqn:Hnkl.
    destruct (get_nkl_feasible (switch_more_less cfg) n1 n2 k l ltac:(rewrite Sp; fold q; lia)
                ltac:(rewrite Sq; fold p; lia) Hnkl Hneg')
      as (Hn1 & Hn2 & Hk & Hn2k & Hl & Hl2 & Hns & Hpos & Hab & Hac & Hbc).
    rewrite Sp, Sq in *. fold p q in Hn1, Hn2k, Hl2, Hns, Hpos, Hab, Hac, Hbc.
    assert (Hle : l <= e).
    { destruct (decide (l = 2)) as [->|]; [|lia].
      specialize (Hl2 eq_refl). replace (q + p) with (p + q) in Hl2 by lia. lia. }
    rewrite get_sel_B_fill_spec;
      [|by apply cfg_wf_switch|rewrite ?Sp, ?Sq, ?Se; fold p q e; lia..].
    rewrite SM, SL, SE, !Hsel. fold M L E.
    set (X1 := take (Z.to_nat n1) L). set (X2 := drop (Z.to_nat n1) L).
    set (Y1 := take (Z.to_nat n2) M).
    set (Y2 := take (Z.to_nat k) (drop (Z.to_nat n2) M)).
    set (Y3 := drop (Z.to_nat k) (drop (Z.to_nat n2) M)).
    set (E1 := if l <? 0 then take 1 E else []).
    set (E2 := take (Z.to_nat l) E).
    assert (HX : X1 ++ X2 = L) by apply take_drop.
    assert (HY : Y1 ++ Y2 ++ Y3 = M) by apply take_take_drop.
    assert (HE1 : forall c, c ∈ E1 -> c ∈ E).
    { unfold E1. destruct (l <? 0); [apply elem_of_take_in|set_solver]. }
    assert (HE2 : forall c, c ∈ E2 -> c ∈ E) by apply elem_of_take_in.
    destruct (count_B_switched X1 X2 Y1 Y2 Y3 E1 E2 P) as (Hc1 & Hc2 & Hc3).
    { rewrite (app_assoc X1), HX, HY. done. }
    { rewrite (app_assoc X1), HX, HY. intros c Hc.
      destruct (HcE c ltac:(set_solver)) as [? HnE]. split; [done|].
      split; intros ?; apply HnE; auto. }
    { rewrite HX, HY, HP. apply Permutation_app_comm. }
    assert (LX1 : Z.of_nat (length X1) = n1) by (unfold X1; rewrite length_take; lia).
    assert (LX2 : Z.of_nat (length X2) = q - n1) by (unfold X2; rewrite length_drop; lia).
    assert (LY1 : Z.of_nat (length Y1) = n2) by (unfold Y1; rewrite length_take; lia).
    assert (LY2 : Z.of_nat (length Y2) = k).
    { unfold Y2. rewrite length_take, length_drop. lia. }
    assert (LY3 : Z.of_nat (length Y3) = p - n2 - k).
    { unfold Y3. rewrite !length_drop. lia. }
    assert (LE1 : Z.of_nat (length E1) = if l <? 0 then - l else 0).
    { unfold E1. destruct (Z.ltb_spec l 0); [|done]. rewrite length_take. lia. }
    assert (LE2 : Z.of_nat (length E2) = if l <? 0 then 0 else l).
    { unfold E2. rewrite length_take. destruct (Z.ltb_spec l 0); lia. }
    do 3 eexists. split; [reflexivity|].
    rewrite !length_app. fold X1 X2 Y1 Y2 E1 E2.
    rewrite Hc1, Hc2, Hc3.
    repeat split; lia.
  - destruct (get_nkl cfg) as [[[n1 n2] k] l] eqn:Hnkl.
    destruct (get_nkl_feasible cfg n1 n2 k l ltac:(fold p; lia) ltac:(fold q; lia) Hnkl Hneg)
      as (Hn1 & Hn2 & Hk & Hn2k & Hl & Hl2 & Hns & Hpos & Hab & Hac & Hbc).
    fold p q in Hn1, Hn2k, Hl2, Hns, Hpos, Hab, Hac, Hbc.
    assert (Hle : l <= e).
    { destruct (decide (l = 2)) as [->|]; [|lia]. specialize (Hl2 eq_refl). lia. }
    rewrite get_sel_B_fill_spec; [|done|fold p q e; lia..].
    rewrite !Hsel. fold M L E.
    set (X1 := take (Z.to_nat n1) M). set (X2 := drop (Z.to_nat n1) M).
    set (Y1 := take (Z.to_nat n2) L).
    set (Y2 := take (Z.to_nat k) (drop (Z.to_nat n2) L)).
    set (Y3 := drop (Z.to_nat k) (drop (Z.to_nat n2) L)).
    set (E1 := if l <? 0 then take 1 E else []).
    set (E2 := take (Z.to_nat l) E).
    assert (HX : X1 ++ X2 = M) by apply take_drop.
    assert (HY : Y1 ++ Y2 ++ Y3 = L) by apply take_take_drop.
    assert (HE1 : forall c, c ∈ E1 -> c ∈ E).
    { unfold E1. destruct (l <? 0); [apply elem_of_take_in|set_solver]. }
    assert (HE2 : forall c, c ∈ E2 -> c ∈ E) by apply elem_of_take_in.
    destruct (count_B_plain X1 X2 Y1 Y2 Y3 E1 E2 P) as (Hc1 & Hc2 & Hc3).
    { rewrite (app_assoc X1), HX, HY. done. }
    { rewrite (app_assoc X1), HX, HY. intros c Hc.
      destruct (HcE c Hc) as [? HnE]. split; [done|].
      split; intros ?; apply HnE; auto. }
    { by rewrite HX, HY. }
    assert (LX1 : Z.of_nat (length X1) = n1) by (unfold X1; rewrite length_take; lia).
    assert (LX2 : Z.of_nat (length X2) = p - n1) by (unfold X2; rewrite length_drop; lia).
    assert (LY1 : Z.of_nat (length Y1) = n2) by (unfold Y1; rewrite length_take; lia).
    assert (LY2 : Z.of_nat (length Y2) = k).
    { unfold Y2. rewrite length_take, length_drop. lia. }
    assert (LY3 : Z.of_nat (length Y3) = q - n2 - k).
    { unfold Y3. rewrite !length_drop. lia. }
    assert (LE1 : Z.of_nat (length E1) = if l <? 0 then - l else 0).
    { unfold E1. destruct (Z.ltb_spec l 0); [|done]. rewrite length_take. lia. }
    assert (LE2 : Z.of_nat (length E2) = if l <? 0 then 0 else l).
    { unfold E2. rewrite length_take. destruct (Z.ltb_spec l 0); lia. }
    do 3 eexists. split; [reflexivity|].
    rewrite !length_app. fold X1 X2 Y1 Y2 E1 E2.
    rewrite Hc1, Hc2, Hc3.
    repeat split; lia.
Qed.

Lemma npos_weigh_spec (P s1 s2 : list Z) (len : Z) :
  INT_MAX ∉ P ->
  len = Z.of_nat (length s1) -> len = Z.of_nat (length s2) ->
  exists cr,
    weigh (P ++ [INT_MAX]) s1 s2 len = Ret cr /\
    forall t, t <> C_DOUBLE ->
      cr t = filter (fun ci => outcome s1 s2 ci = t) P ++ [INT_MAX] /\
      npos (cr t) = Ret (Z.of_nat (outcome_count s1 s2 P t)).
Proof.
  intros HP H1 H2.
  destruct (weigh_spec P s1 s2 len HP H1 H2) as (cr & Hw & Hcr).
  exists cr. split; [done|]. intros t Ht. split; [by apply Hcr|].
  rewrite Hcr by done. apply npos_spec.
  intros [_ Hin]%list_elem_of_filter. done.
Qed.

(** C5 as stated fails: with sizes [(p, q, e) = (1, 1, 1)] the three outcome
    sets hold [p + q = 2] hypotheses, not [p + q + e = 3]. *)
Lemma split_B_sum_counterexample :
  exists sum claimed : Z,
    (cfg ← get_cfg [1; -2; INT_MAX] 3;
     '(ns, s1, s2) ← getselection cfg;
     cr ← weigh [1; -2; INT_MAX] s1 s2 ns;
     a ← npos (cr C_MORE); b ← npos (cr C_EQUAL); c ← npos (cr C_LESS);
     Ret (a + b + c,
          size cfg C_MORE + size cfg C_LESS + size cfg C_EQUAL + all_equal cfg))
    = Ret (sum, claimed) /\ sum <> claimed.
Proof. exists 2, 3. split; [vm_compute; reflexivity|lia]. Qed.

(** C5, amended. For a configuration of type B with sizes [(p, q, e)],
    classified from a duplicate-free possibility set, with [e >= 2], or
    [e >= 1] and [p + q] not a multiple of 3: the weighing chosen by the
    selector yields three outcome sets whose sizes sum to [p + q] and differ
    pairwise by at most 1. *)
Theorem split_B_balanced (P : list Z) (n : Z) (cfg : coin_cfg) :
  NoDup P -> (forall x, x ∈ P -> - n <= x <= n) -> n < INT_MAX ->
  get_cfg (P ++ [INT_MAX]) n = Ret cfg ->
  size cfg C_DOUBLE = 0 -> all_equal cfg = 0 ->
  (2 <= size cfg C_EQUAL \/
   1 <= size cfg C_EQUAL /\ (size cfg C_MORE + size cfg C_LESS) mod 3 <> 0) ->
  exists (ns : Z) (s1 s2 : list Z) (cr : ctype -> list Z) (a b c : Z),
    getselection cfg = Ret (ns, s1, s2) /\
    weigh (P ++ [INT_MAX]) s1 s2 ns = Ret cr /\
    npos (cr C_MORE) = Ret a /\ npos (cr C_EQUAL) = Ret b /\ npos (cr C_LESS) = Ret c /\
    a + b + c = size cfg C_MORE + size cfg C_LESS /\
    -1 <= a - b <= 1 /\ -1 <= a - c <= 1 /\ -1 <= b - c <= 1.
Proof.
  intros HND Hr Hn Hget HD0 Hae0 He.
  assert (HP : INT_MAX ∉ P) by (intros H%Hr; lia).
  destruct (split_B_counts P n cfg HND Hr HP Hget HD0 Hae0 He)
    as (ns & s1 & s2 & Hsel & Hl1 & Hl2 & _ & _ & Hsum & Hab & Hac & Hbc).
  destruct (npos_weigh_spec P s1 s2 ns HP Hl1 Hl2) as (cr & Hw & Hcr).
  exists ns, s1, s2, cr. do 3 eexists.
  split; [done|]. split; [done|].
  split; [by apply Hcr|]. split; [by apply Hcr|]. split; [by apply Hcr|].
  done.
Qed.

Lemma split_B_balanced_witness :
  let P := [1; -2] in
  let cfg := classified P 3 in
  exists (ns : Z) (s1 s2 : list Z) (cr : ctype -> list Z) (a b c : Z),
    getselection cfg = Ret (ns, s1, s2) /\
    weigh (P ++ [INT_MAX]) s1 s2 ns = Ret cr /\
    npos (cr C_MORE) = Ret a /\ npos (cr C_EQUAL) = Ret b /\ npos (cr C_LESS) = Ret c /\
    a + b + c = size cfg C_MORE + size cfg C_LESS /\
    -1 <= a - b <= 1 /\ -1 <= a - c <= 1 /\ -1 <= b - c <= 1.
Proof.
  apply (split_B_balanced [1; -2] 3 (classified [1; -2] 3)).
  - by_compute.
  - apply Forall_forall. by_compute.
  - reflexivity.
  - reflexivity.
  - reflexivity.
  - reflexivity.
  - right. vm_compute. split; [discriminate|discriminate].
Defined.

(** A configuration of type B with too few EQUAL coins: four coins with the
    hypotheses [+1, -2, -3] give [(p, q, e) = (1, 2, 1)]; the selection asks
    for two EQUAL coins and reads outside the group. *)
Example get_sel_B_short_of_equal :
  getselection (classified [1; -2; -3] 4) = Fault.
Proof. vm_compute. reflexivity. Qed.

(** ** The retry of case B *)

(** [weigh_sequential] ends in [exit] when the selector returns no coins at
    a node that is not terminal. *)
Lemma weigh_sequential_no_selection (fuel : nat) (c : list Z) (nc : Z)
    (cfg : coin_cfg) (n_sel : Z) (s1 s2 : list Z) :
  get_cfg c nc = Ret cfg -> 1 < num_pos cfg ->
  getselection cfg = Ret (n_sel, s1, s2) -> n_sel <= 0 ->
  weigh_sequential (S fuel) c nc = Exit 0.
Proof.
  intros Hcfg Hnp Hsel Hn. cbn [weigh_sequential]. rewrite Hcfg.
  cbn [mbind result_bind rbind].
  destruct (Z.leb_spec (num_pos cfg) 1); [lia|].
  rewrite Hsel. cbn [mbind result_bind rbind].
  destruct (Z.gtb_spec n_sel 0); [lia|done].
Qed.

(** C8. On a configuration of type B, [getselection] is [get_sel_B].  When
    the numbers of [get_nkl] are not negative the selection is filled from
    them.  Otherwise MORE and LESS are exchanged, in sizes and in coins, and
    the numbers are computed once more: if they are not negative the
    selection is filled from the exchanged configuration; if they are
    negative again [get_sel_B] returns 0 and no selection.  At a node that
    is not terminal, [weigh_sequential] ends the process in [exit] when the
    selector returns 0. *)
Theorem get_sel_B_retry (cfg : coin_cfg) :
  let cfg' := switch_more_less cfg in
  (size cfg C_DOUBLE = 0 -> all_equal cfg = 0 -> getselection cfg = get_sel_B cfg) /\
  (nkl_negative (get_nkl cfg) = false ->
     get_sel_B cfg = get_sel_B_fill cfg (get_nkl cfg)) /\
  (size cfg' C_MORE = size cfg C_LESS /\ size cfg' C_LESS = size cfg C_MORE /\
   sel cfg' C_MORE = sel cfg C_LESS /\ sel cfg' C_LESS = sel cfg C_MORE /\
   size cfg' C_EQUAL = size cfg C_EQUAL /\ sel cfg' C_EQUAL = sel cfg C_EQUAL) /\
  (nkl_negative (get_nkl cfg) = true -> nkl_negative (get_nkl cfg') = false ->
     get_sel_B cfg = get_sel_B_fill cfg' (get_nkl cfg')) /\
  (nkl_negative (get_nkl cfg) = true -> nkl_negative (get_nkl cfg') = true ->
     get_sel_B cfg = Ret (0, [], [])) /\
  (forall (fuel : nat) (c : list Z) (nc n_sel : Z) (s1 s2 : list Z),
     get_cfg c nc = Ret cfg -> 1 < num_pos cfg ->
     getselection cfg = Ret (n_sel, s1, s2) -> n_sel <= 0 ->
     weigh_sequential (S fuel) c nc = Exit 0).
Proof.
  intros cfg'. split.
  { intros HD Hae. unfold getselection. rewrite HD, Hae. simpl.
    by rewrite andb_false_r. }
  split.
  { intros H. unfold get_sel_B. by rewrite H. }
  split; [by repeat split|]. split.
  { intros H H'. unfold get_sel_B. fold cfg'. by rewrite H, H'. }
  split.
  { intros H H'. unfold get_sel_B. fold cfg'. by rewrite H, H'. }
  intros fuel c nc n_sel s1 s2. apply weigh_sequential_no_selection.
Qed.

(** The branch [return 0] of [get_sel_B] is never taken on a configuration
    whose sizes are not negative. *)
Lemma get_sel_B_retry_succeeds (cfg : coin_cfg) :
  0 <= size cfg C_MORE -> 0 <= size cfg C_LESS ->
  get_sel_B cfg =
    if nkl_negative (get_nkl cfg)
    then get_sel_B_fill (switch_more_less cfg) (get_nkl (switch_more_less cfg))
    else get_sel_B_fill cfg (get_nkl cfg).
Proof.
  intros Hp Hq. unfold get_sel_B.
  destruct (nkl_negative (get_nkl cfg)) eqn:H; [|done].
  by rewrite get_nkl_switch.
Qed.

(** The return value 0 does end the search: one coin, whose configuration
    of type A gets the selection of 0 coins. *)
Example weigh_sequential_one_coin : weigh_sequential 5 (new_coins 1) 1 = Exit 0.
Proof. vm_compute. reflexivity. Qed.

(** ** The two types of possibility sets *)

Lemma coins_partition (P : list Z) (n : Z) :
  0 <= n ->
  Z.of_nat (length (coins_of P n C_EQUAL)) + Z.of_nat (length (coins_of P n C_MORE))
  + Z.of_nat (length (coins_of P n C_LESS)) + Z.of_nat (length (coins_of P n C_DOUBLE)) = n.
Proof.
  intros Hn. unfold coins_of.
  assert (H : forall l : list Z,
    (length (filter (fun k => coin_type P k = C_EQUAL) l)
     + length (filter (fun k => coin_type P k = C_MORE) l)
     + length (filter (fun k => coin_type P k = C_LESS) l)
     + length (filter (fun k => coin_type P k = C_DOUBLE) l))%nat = length l).
  { induction l as [|k l IH]; [done|].
    rewrite !filter_cons. destruct (coin_type P k); simpl; lia. }
  specialize (H (seqZ 0 n)). rewrite length_seqZ in H. lia.
Qed.

Lemma get_cfg_type_B (P : list Z) (n : Z) :
  0 < n -> NoDup P -> (forall x, x ∈ P -> - n <= x <= n) -> INT_MAX ∉ P ->
  type_B P ->
  exists cfg,
    get_cfg (P ++ [INT_MAX]) n = Ret cfg /\
    size cfg C_DOUBLE = 0 /\ all_equal cfg = 0 /\
    size cfg C_MORE + size cfg C_LESS = Z.of_nat (length P) /\
    size cfg C_EQUAL = n - Z.of_nat (length P) /\
    num_pos cfg = Z.of_nat (length P).
Proof.
  intros Hn HND Hr Hmax [H0 Hnd].
  destruct (get_cfg_spec P n Hmax HND) as (cfg & Hc & Hwf & Hae & Hsel).
  exists cfg. split; [done|].
  assert (HD : coins_of P n C_DOUBLE = []).
  { apply elem_of_nil_inv. intros k [Ht Hk]%elem_of_coins_of.
    apply coin_type_DOUBLE in Ht. apply (Hnd k); [lia|]. done. }
  assert (HP : P ≡ₚ (pos_hyp <$> coins_of P n C_MORE) ++ (neg_hyp <$> coins_of P n C_LESS)).
  { rewrite (poss_by_roles P n HND Hr) at 1.
    rewrite decide_False, HD by done. simpl. by rewrite !app_nil_r. }
  pose proof (coins_partition P n ltac:(lia)) as Hpart.
  assert (Hlen : Z.of_nat (length P) =
                 Z.of_nat (length (coins_of P n C_MORE))
                 + Z.of_nat (length (coins_of P n C_LESS))).
  { rewrite HP at 1. rewrite length_app, !length_fmap. lia. }
  rewrite HD in Hpart. simpl in Hpart.
  assert (Hae0 : all_equal cfg = 0).
  { rewrite Hae. rewrite decide_False; [done|]. tauto. }
  unfold num_pos. rewrite !Hwf, !Hsel, HD, Hae0. simpl. lia.
Qed.

Lemma get_cfg_type_A (P : list Z) (n : Z) :
  0 < n -> NoDup P -> (forall x, x ∈ P -> - n <= x <= n) -> INT_MAX ∉ P ->
  type_A P ->
  exists cfg,
    get_cfg (P ++ [INT_MAX]) n = Ret cfg /\ cfg_wf cfg /\
    (forall t, sel cfg t = coins_of P n t) /\
    size cfg C_MORE = 0 /\ size cfg C_LESS = 0 /\ all_equal cfg = 1 /\
    2 * size cfg C_DOUBLE + 1 = Z.of_nat (length P) /\
    size cfg C_EQUAL = n - size cfg C_DOUBLE /\
    num_pos cfg = Z.of_nat (length P) /\
    P ≡ₚ [0] ++ (pos_hyp <$> coins_of P n C_DOUBLE) ++ (neg_hyp <$> coins_of P n C_DOUBLE).
Proof.
  intros Hn HND Hr Hmax [H0 Hsym].
  destruct (get_cfg_spec P n Hmax HND) as (cfg & Hc & Hwf & Hae & Hsel).
  exists cfg. split; [done|]. split; [done|]. split; [done|].
  assert (HM : coins_of P n C_MORE = []).
  { apply elem_of_nil_inv. intros k [Ht Hk]%elem_of_coins_of.
    apply coin_type_MORE in Ht as [H1 H2]. apply H2.
    apply (Hsym k); [lia|]. done. }
  assert (HL : coins_of P n C_LESS = []).
  { apply elem_of_nil_inv. intros k [Ht Hk]%elem_of_coins_of.
    apply coin_type_LESS in Ht as [H1 H2]. apply H1.
    apply (Hsym k); [lia|]. done. }
  assert (HP : P ≡ₚ [0] ++ (pos_hyp <$> coins_of P n C_DOUBLE)
                    ++ (neg_hyp <$> coins_of P n C_DOUBLE)).
  { rewrite (poss_by_roles P n HND Hr) at 1.
    rewrite decide_True, HM, HL by done. done. }
  pose proof (coins_partition P n ltac:(lia)) as Hpart.
  assert (Hlen : Z.of_nat (length P) =
                 1 + 2 * Z.of_nat (length (coins_of P n C_DOUBLE))).
  { rewrite HP at 1. rewrite !length_app, !length_fmap. simpl. lia. }
  rewrite HM, HL in Hpart. simpl in Hpart.
  assert (Hae1 : all_equal cfg = 1).
  { rewrite Hae. by rewrite decide_True. }
  unfold num_pos. rewrite !Hwf, !Hsel, HM, HL, Hae1. simpl.
  repeat split; try lia. done.
Qed.

(** ** Counting the outcomes of case A *)

Lemma outcome_count_0 (s1 s2 : list Z) (t : ctype) :
  outcome_count s1 s2 [0] t = if decide (t = C_EQUAL) then 1%nat else 0%nat.
Proof.
  unfold outcome_count. rewrite filter_cons, filter_nil, outcome_0.
  destruct t; reflexivity.
Qed.

(** DOUBLE coins [D1] on the left pan, DOUBLE coins [D2] on the right pan
    with the coins [E2] that carry no hypothesis, DOUBLE coins [D3] aside. *)
Lemma count_A (D1 D2 D3 E2 P : list Z) :
  NoDup (D1 ++ D2 ++ D3) ->
  (forall c, c ∈ D1 ++ D2 ++ D3 -> 0 <= c /\ (c ∉ E2)) ->
  P ≡ₚ [0] ++ (pos_hyp <$> D1 ++ D2 ++ D3) ++ (neg_hyp <$> D1 ++ D2 ++ D3) ->
  let s1 := D1 in
  let s2 := D2 ++ E2 in
  outcome_count s1 s2 P C_MORE = (length D1 + length D2)%nat /\
  outcome_count s1 s2 P C_LESS = (length D1 + length D2)%nat /\
  outcome_count s1 s2 P C_EQUAL = (1 + 2 * length D3)%nat.
Proof.
  intros HND HE HP s1 s2.
  rewrite !NoDup_app in HND. destruct HND as (_ & H12 & _ & H23 & _).
  assert (HD1 : forall c, c ∈ D1 -> 0 <= c /\ c ∈ s1 /\ (c ∉ s2)).
  { intros c Hc. destruct (HE c ltac:(set_solver)) as (? & ?).
    specialize (H12 c Hc). unfold s1, s2. set_solver. }
  assert (HD2 : forall c, c ∈ D2 -> 0 <= c /\ (c ∉ s1) /\ c ∈ s2).
  { intros c Hc. destruct (HE c ltac:(set_solver)) as (? & ?).
    specialize (H23 c Hc). unfold s1, s2. set_solver. }
  assert (HD3 : forall c, c ∈ D3 -> 0 <= c /\ (c ∉ s1) /\ (c ∉ s2)).
  { intros c Hc. destruct (HE c ltac:(set_solver)) as (? & ?).
    unfold s1, s2. set_solver. }
  assert (Hcount : forall t,
    outcome_count s1 s2 P t =
    ((if decide (t = C_EQUAL) then 1 else 0)
     + ((if decide (t = C_MORE) then length D1 else 0)
        + ((if decide (t = C_LESS) then length D2 else 0)
           + (if decide (t = C_EQUAL) then length D3 else 0))
        + ((if decide (t = C_LESS) then length D1 else 0)
           + ((if decide (t = C_MORE) then length D2 else 0)
              + (if decide (t = C_EQUAL) then length D3 else 0)))))%nat).
  { intros t. rewrite HP, !fmap_app, !outcome_count_app, outcome_count_0.
    rewrite (outcome_count_const _ _ pos_hyp D1 C_MORE),
            (outcome_count_const _ _ pos_hyp D2 C_LESS),
            (outcome_count_const _ _ pos_hyp D3 C_EQUAL),
            (outcome_count_const _ _ neg_hyp D1 C_LESS),
            (outcome_count_const _ _ neg_hyp D2 C_MORE),
            (outcome_count_const _ _ neg_hyp D3 C_EQUAL); [done|..].
    - intros c Hc. destruct (HD3 c Hc) as (? & ? & ?). by apply outcome_off.
    - intros c Hc. destruct (HD2 c Hc) as (? & ? & ?). by apply outcome_right.
    - intros c Hc. destruct (HD1 c Hc) as (? & ? & ?). by apply outcome_left.
    - intros c Hc. destruct (HD3 c Hc) as (? & ? & ?). by apply outcome_off.
    - intros c Hc. destruct (HD2 c Hc) as (? & ? & ?). by apply outcome_right.
    - intros c Hc. destruct (HD1 c Hc) as (? & ? & ?). by apply outcome_left. }
  rewrite !Hcount. simpl. lia.
Qed.

(** The selection of case A on the configuration of a possibility set of
    type A with [m >= 1] DOUBLE coins ([m >= 2] if there is no EQUAL coin),
    and the number of hypotheses behind each outcome. *)
Lemma split_A_counts (P : list Z) (n : Z) :
  0 < n -> NoDup P -> (forall x, x ∈ P -> - n <= x <= n) -> INT_MAX ∉ P ->
  type_A P ->
  let m := (Z.of_nat (length P) - 1) / 2 in
  1 <= m -> (1 <= n - m \/ 2 <= m) ->
  exists cfg ns s1 s2 l,
    get_cfg (P ++ [INT_MAX]) n = Ret cfg /\
    num_pos cfg = Z.of_nat (length P) /\
    getselection cfg = Ret (ns, s1, s2) /\
    ns = Z.of_nat (length s1) /\ ns = Z.of_nat (length s2) /\
    0 < ns /\ 0 <= l <= 1 /\ 2 * ns - l <= m /\
    (n - m = 0 -> l = 0) /\
    (m mod 3 = 0 -> ns = m / 3) /\
    (m mod 3 = 1 -> ns = if decide (n - m = 0) then (m - 1) / 3 else (m + 2) / 3) /\
    (m mod 3 = 2 -> ns = (m + 1) / 3) /\
    Z.of_nat (outcome_count s1 s2 P C_MORE) = 2 * ns - l /\
    Z.of_nat (outcome_count s1 s2 P C_LESS) = 2 * ns - l /\
    Z.of_nat (outcome_count s1 s2 P C_EQUAL) = 1 + 2 * (m - (2 * ns - l)).
Proof.
  intros Hn HND Hr Hmax HA m Hm Hslack.
  destruct (get_cfg_type_A P n Hn HND Hr Hmax HA)
    as (cfg & Hc & Hwf & Hsel & HM & HL & Hae & Hlen & He & Hnp & HP).
  assert (Hmd : size cfg C_DOUBLE = m) by (unfold m; zlia).
  exists cfg.
  destruct (get_sel_A_spec cfg Hwf) as (ns & s1 & s2 & Hgs & Hs1 & Hl1 & Hl2 & Hcases).
  rewrite <- getselection_is_get_sel_A in Hgs by (done || lia).
  rewrite Hmd, He, Hmd, !Hsel in Hcases. rewrite Hsel in Hs1.
  set (D := coins_of P n C_DOUBLE) in *. set (E := coins_of P n C_EQUAL) in *.
  assert (HDlen : Z.of_nat (length D) = m) by (rewrite <- Hmd, Hwf, Hsel; done).
  assert (HcE : forall c, c ∈ D -> 0 <= c /\ (c ∉ E)).
  { intros c HcD. split; [apply elem_of_coins_of in HcD; lia|].
    intros HcE. by pose proof (coins_of_disjoint _ _ _ _ _ HcD HcE). }
  assert (Hgen : forall (l : Z) (E2 : list Z),
    0 <= l <= 1 -> 0 < ns -> 2 * ns - l <= m ->
    s2 = take (Z.to_nat (ns - l)) (drop (Z.to_nat ns) D) ++ E2 ->
    (forall c, c ∈ E2 -> c ∈ E) ->
    Z.of_nat (outcome_count s1 s2 P C_MORE) = 2 * ns - l /\
    Z.of_nat (outcome_count s1 s2 P C_LESS) = 2 * ns - l /\
    Z.of_nat (outcome_count s1 s2 P C_EQUAL) = 1 + 2 * (m - (2 * ns - l))).
  { intros l E2 Hl Hns Hle Hs2 HE2.
    set (D1 := take (Z.to_nat ns) D) in *.
    set (D2 := take (Z.to_nat (ns - l)) (drop (Z.to_nat ns) D)) in *.
    set (D3 := drop (Z.to_nat (ns - l)) (drop (Z.to_nat ns) D)).
    assert (HD : D1 ++ D2 ++ D3 = D) by apply take_take_drop.
    destruct (count_A D1 D2 D3 E2 P) as (Hc1 & Hc2 & Hc3).
    { rewrite HD. apply NoDup_coins_of. }
    { rewrite HD. intros c HcD. destruct (HcE c HcD) as [? HnE].
      split; [done|]. intros ?. apply HnE. auto. }
    { by rewrite HD. }
    rewrite Hs1, Hs2, Hc1, Hc2, Hc3.
    assert (Z.of_nat (length D1) = ns) by (unfold D1; rewrite length_take; lia).
    assert (Z.of_nat (length D2) = ns - l).
    { unfold D2. rewrite length_take, length_drop. lia. }
    assert (Z.of_nat (length D3) = m - (2 * ns - l)).
    { unfold D3. rewrite !length_drop. lia. }
    lia. }
  destruct Hcases as [(H3 & -> & Hs2)|[(H3 & He1 & -> & x & Hx & Hs2)
                     |[(H3 & He0 & -> & Hs2)|(H3 & -> & Hs2)]]].
  - exists (m / 3), s1, s2, 0.
    split; [done|]. split; [done|]. split; [done|].
    split; [done|]. split; [done|].
    assert (0 < m / 3) by zlia. assert (2 * (m / 3) - 0 <= m) by zlia.
    split; [done|]. split; [lia|]. split; [done|]. split; [done|].
    split; [done|]. split; [lia|]. split; [lia|].
    apply (Hgen 0 []); try done; try lia.
    + by rewrite app_nil_r, Z.sub_0_r.
    + set_solver.
  - exists ((m + 2) / 3), s1, s2, 1.
    split; [done|]. split; [done|]. split; [done|].
    split; [done|]. split; [done|].
    assert (0 < (m + 2) / 3) by zlia. assert (2 * ((m + 2) / 3) - 1 <= m) by zlia.
    split; [done|]. split; [lia|]. split; [done|]. split; [lia|].
    split; [lia|]. split; [intros _; by rewrite decide_False by lia|]. split; [lia|].
    apply (Hgen 1 [x]); try done; try lia.
    intros c ->%list_elem_of_singleton. by eapply list_elem_of_lookup_2.
  - exists ((m - 1) / 3), s1, s2, 0.
    split; [done|]. split; [done|]. split; [done|].
    split; [done|]. split; [done|].
    assert (0 < (m - 1) / 3) by zlia. assert (2 * ((m - 1) / 3) - 0 <= m) by zlia.
    split; [done|]. split; [lia|]. split; [done|]. split; [done|].
    split; [lia|]. split; [intros _; by rewrite decide_True by lia|]. split; [lia|].
    apply (Hgen 0 []); try done; try lia.
    + by rewrite app_nil_r, Z.sub_0_r.
    + set_solver.
  - exists ((m + 1) / 3), s1, s2, 0.
    split; [done|]. split; [done|]. split; [done|].
    split; [done|]. split; [done|].
    assert (0 < (m + 1) / 3) by zlia. assert (2 * ((m + 1) / 3) - 0 <= m) by zlia.
    split; [done|]. split; [lia|]. split; [done|]. split; [done|].
    split; [lia|]. split; [lia|]. split; [done|].
    apply (Hgen 0 []); try done; try lia.
    + by rewrite app_nil_r, Z.sub_0_r.
    + set_solver.
Qed.

(** ** The children of a node *)

Lemma outcome_pos_MORE (s1 s2 : list Z) (c : Z) :
  0 <= c -> outcome s1 s2 (pos_hyp c) = C_MORE <-> c ∈ s1 /\ (c ∉ s2).
Proof.
  intros Hc. unfold outcome. rewrite !on_arm_pos_hyp by done.
  destruct (decide (c ∈ s1)), (decide (c ∈ s2)); vm_compute; naive_solver.
Qed.

Lemma outcome_pos_LESS (s1 s2 : list Z) (c : Z) :
  0 <= c -> outcome s1 s2 (pos_hyp c) = C_LESS <-> (c ∉ s1) /\ c ∈ s2.
Proof.
  intros Hc. unfold outcome. rewrite !on_arm_pos_hyp by done.
  destruct (decide (c ∈ s1)), (decide (c ∈ s2)); vm_compute; naive_solver.
Qed.

Lemma outcome_neg_MORE (s1 s2 : list Z) (c : Z) :
  0 <= c -> outcome s1 s2 (neg_hyp c) = C_MORE <-> (c ∉ s1) /\ c ∈ s2.
Proof.
  intros Hc. unfold outcome. rewrite !on_arm_neg_hyp by done.
  destruct (decide (c ∈ s1)), (decide (c ∈ s2)); vm_compute; naive_solver.
Qed.

Lemma outcome_neg_LESS (s1 s2 : list Z) (c : Z) :
  0 <= c -> outcome s1 s2 (neg_hyp c) = C_LESS <-> c ∈ s1 /\ (c ∉ s2).
Proof.
  intros Hc. unfold outcome. rewrite !on_arm_neg_hyp by done.
  destruct (decide (c ∈ s1)), (decide (c ∈ s2)); vm_compute; naive_solver.
Qed.

Lemma outcome_EQUAL_sym (s1 s2 : list Z) (c : Z) :
  0 <= c ->
  outcome s1 s2 (pos_hyp c) = C_EQUAL <-> outcome s1 s2 (neg_hyp c) = C_EQUAL.
Proof.
  intros Hc. unfold outcome. rewrite !on_arm_pos_hyp, !on_arm_neg_hyp by done.
  destruct (decide (c ∈ s1)), (decide (c ∈ s2)); vm_compute; naive_solver.
Qed.

Lemma elem_of_child (s1 s2 P : list Z) (t : ctype) (x : Z) :
  x ∈ child s1 s2 P t <-> outcome s1 s2 x = t /\ x ∈ P.
Proof. unfold child. by rewrite list_elem_of_filter. Qed.

Lemma child_NoDup (s1 s2 P : list Z) (t : ctype) : NoDup P -> NoDup (child s1 s2 P t).
Proof. apply NoDup_filter. Qed.

Lemma child_type_B (s1 s2 P : list Z) (t : ctype) :
  type_B P -> type_B (child s1 s2 P t).
Proof.
  intros [H0 Hnd]. split.
  - intros [_ ?]%elem_of_child. done.
  - intros c Hc [[_ ?]%elem_of_child [_ ?]%elem_of_child]. by apply (Hnd c).
Qed.

(** The two outer children are of type B, whatever the parent. *)
Lemma child_outer_type_B (s1 s2 P : list Z) (t : ctype) :
  t = C_MORE \/ t = C_LESS -> type_B (child s1 s2 P t).
Proof.
  intros Ht. split.
  - intros [Ho _]%elem_of_child. rewrite outcome_0 in Ho. by destruct Ht; subst.
  - intros c Hc [[Hp _]%elem_of_child [Hn _]%elem_of_child].
    destruct Ht; subst t.
    + apply outcome_pos_MORE in Hp; [|done]. apply outcome_neg_MORE in Hn; [|done]. tauto.
    + apply outcome_pos_LESS in Hp; [|done]. apply outcome_neg_LESS in Hn; [|done]. tauto.
Qed.

(** The middle child of a node of type A is of type A. *)
Lemma child_EQUAL_type_A (s1 s2 P : list Z) :
  type_A P -> type_A (child s1 s2 P C_EQUAL).
Proof.
  intros [H0 Hsym]. split.
  - apply elem_of_child. split; [apply outcome_0|done].
  - intros c Hc. rewrite !elem_of_child, (outcome_EQUAL_sym s1 s2 c Hc), (Hsym c Hc).
    done.
Qed.

Lemma child_range (s1 s2 P : list Z) (t : ctype) (n : Z) :
  (forall x, x ∈ P -> - n <= x <= n) ->
  forall x, x ∈ child s1 s2 P t -> - n <= x <= n.
Proof. intros Hr x [_ Hx]%elem_of_child. by apply Hr. Qed.

Lemma node_ok_INT_MAX (n : Z) (P : list Z) :
  n < INT_MAX -> node_ok n P -> INT_MAX ∉ P.
Proof. intros Hn (_ & Hr & _) H%Hr. lia. Qed.

(** A node with at most one hypothesis is terminal. *)
Lemma node_num_pos (n : Z) (P : list Z) :
  0 < n < INT_MAX -> node_ok n P ->
  exists cfg, get_cfg (P ++ [INT_MAX]) n = Ret cfg /\
              num_pos cfg = Z.of_nat (length P).
Proof.
  intros Hn Hok. pose proof (node_ok_INT_MAX n P ltac:(lia) Hok) as Hmax.
  destruct Hok as (HND & Hr & [[HA _]|[HB _]]).
  - destruct (get_cfg_type_A P n ltac:(lia) HND Hr Hmax HA) as (cfg & Hc & H).
    exists cfg. split; [done|]. by destruct_and!.
  - destruct (get_cfg_type_B P n ltac:(lia) HND Hr Hmax HB) as (cfg & Hc & H).
    exists cfg. split; [done|]. by destruct_and!.
Qed.

(** A node with two hypotheses or more gets a selection, and each of its
    three children is a node with fewer hypotheses. *)
Lemma node_step (n : Z) (P : list Z) :
  3 <= n < INT_MAX -> node_ok n P -> (2 <= length P)%nat ->
  exists cfg ns s1 s2 cr,
    get_cfg (P ++ [INT_MAX]) n = Ret cfg /\
    num_pos cfg = Z.of_nat (length P) /\
    getselection cfg = Ret (ns, s1, s2) /\ 0 < ns /\
    weigh (P ++ [INT_MAX]) s1 s2 ns = Ret cr /\
    forall t, t <> C_DOUBLE ->
      cr t = child s1 s2 P t ++ [INT_MAX] /\
      npos (cr t) = Ret (Z.of_nat (length (child s1 s2 P t))) /\
      (length (child s1 s2 P t) < length P)%nat /\
      node_ok n (child s1 s2 P t).
Proof.
  intros Hn Hok Hlen. pose proof (node_ok_INT_MAX n P ltac:(lia) Hok) as Hmax.
  destruct Hok as (HND & Hr & [[HA Hs]|[HB Hs]]).
  - (* type A *)
    set (m := (Z.of_nat (length P) - 1) / 2) in *.
    destruct (get_cfg_type_A P n ltac:(lia) HND Hr Hmax HA)
      as (cfg0 & Hc0 & _ & _ & _ & _ & _ & Hodd & _).
    assert (Hm2 : 2 * m + 1 = Z.of_nat (length P)) by (unfold m; zlia).
    assert (Hm : 1 <= m) by lia.
    destruct (split_A_counts P n ltac:(lia) HND Hr Hmax HA Hm)
      as (cfg & ns & s1 & s2 & l & Hc & Hnp & Hsel & Hl1 & Hl2 & Hns & Hl & Hle
          & Hl0 & Hc3a & Hc3b & Hc3c & HcM & HcL & HcE).
    { fold m. destruct Hs as [?|[? ?]]; lia. }
    fold m in Hle, Hl0, Hc3a, Hc3b, Hc3c, HcE.
    rewrite Hc0 in Hc. injection Hc as ->.
    destruct (npos_weigh_spec P s1 s2 ns Hmax Hl1 Hl2) as (cr & Hw & Hcr).
    exists cfg, ns, s1, s2, cr. repeat (split; [done|]).
    intros t Ht. destruct (Hcr t Ht) as [Hcrt Hnpos].
    split; [done|]. split; [done|].
    unfold outcome_count in HcM, HcL, HcE. fold (child s1 s2 P C_MORE) in HcM.
    fold (child s1 s2 P C_LESS) in HcL. fold (child s1 s2 P C_EQUAL) in HcE.
    assert (HslB : slack_B n (2 * ns - l)).
    { destruct Hs as [Hs|[Hs Hm3]]; [left; lia|].
      specialize (Hl0 ltac:(lia)). subst l.
      assert (m mod 3 = 0 \/ m mod 3 = 1 \/ m mod 3 = 2) as [H3|[H3|H3]] by zlia.
      - specialize (Hc3a H3). unfold slack_B. zlia.
      - specialize (Hc3b H3). rewrite decide_True in Hc3b by lia. unfold slack_B. zlia.
      - specialize (Hc3c H3). unfold slack_B. zlia. }
    destruct t; [| | |done].
    + (* balanced *)
      split; [lia|]. split; [by apply child_NoDup|]. split; [by apply child_range|].
      left. split; [by apply child_EQUAL_type_A|].
      rewrite HcE. replace ((1 + 2 * (m - (2 * ns - l)) - 1) / 2) with (m - (2 * ns - l)) by zlia.
      left. destruct Hs as [?|[? ?]]; [lia|]. specialize (Hl0 ltac:(lia)). lia.
    + split; [lia|]. split; [by apply child_NoDup|]. split; [by apply child_range|].
      right. split; [apply child_outer_type_B; by left|]. by rewrite HcM.
    + split; [lia|]. split; [by apply child_NoDup|]. split; [by apply child_range|].
      right. split; [apply child_outer_type_B; by right|]. by rewrite HcL.
  - (* type B *)
    destruct (get_cfg_type_B P n ltac:(lia) HND Hr Hmax HB)
      as (cfg & Hc & HD0 & Hae0 & Hpq & He & Hnp).
    destruct (split_B_counts P n cfg HND Hr Hmax Hc HD0 Hae0)
      as (ns & s1 & s2 & Hsel & Hl1 & Hl2 & Hns & _ & Hsum & Hab & Hac & Hbc).
    { rewrite He, Hpq. exact Hs. }
    destruct (npos_weigh_spec P s1 s2 ns Hmax Hl1 Hl2) as (cr & Hw & Hcr).
    exists cfg, ns, s1, s2, cr. repeat (split; [done|]).
    split; [apply Hns; lia|]. split; [done|].
    intros t Ht. destruct (Hcr t Ht) as [Hcrt Hnpos].
    split; [done|]. split; [done|].
    unfold outcome_count in Hsum, Hab, Hac, Hbc.
    fold (child s1 s2 P C_MORE) in Hsum, Hab, Hac, Hbc.
    fold (child s1 s2 P C_LESS) in Hsum, Hab, Hac, Hbc.
    fold (child s1 s2 P C_EQUAL) in Hsum, Hab, Hac, Hbc.
    assert (Hlt : (length (child s1 s2 P t) < length P)%nat).
    { destruct t; try done; lia. }
    split; [done|]. split; [by apply child_NoDup|]. split; [by apply child_range|].
    right. split; [by apply child_type_B|].
    left. destruct Hs as [?|[? ?]]; lia.
Qed.

(** ** Termination of the sequential search *)

Lemma new_coins_eq (n : Z) :
  new_coins n = (0 :: seqZ 1 n ++ (Z.opp <$> seqZ 1 n)) ++ [INT_MAX].
Proof. unfold new_coins. simpl. by rewrite <- app_assoc. Qed.

(** The initial set of [n >= 3] coins is a node of type A. *)
Lemma node_ok_root (n : Z) :
  3 <= n -> node_ok n (0 :: seqZ 1 n ++ (Z.opp <$> seqZ 1 n)).
Proof.
  intros Hn.
  assert (Hin : forall x, x ∈ 0 :: seqZ 1 n ++ (Z.opp <$> seqZ 1 n) <-> - n <= x <= n).
  { intros x. rewrite elem_of_cons, elem_of_app, list_elem_of_fmap, elem_of_seqZ.
    split.
    - intros [->|[?|(y & -> & Hy%elem_of_seqZ)]]; lia.
    - intros Hx. destruct (Z.lt_trichotomy x 0) as [?|[?|?]]; [|by left|right; left; lia].
      right. right. exists (- x). split; [lia|]. apply elem_of_seqZ. lia. }
  split; [|split].
  - apply NoDup_cons. split.
    + rewrite elem_of_app, list_elem_of_fmap, elem_of_seqZ.
      intros [?|(y & ? & Hy%elem_of_seqZ)]; lia.
    + apply NoDup_app. split; [apply NoDup_seqZ|]. split.
      * intros x Hx%elem_of_seqZ (y & -> & Hy%elem_of_seqZ)%list_elem_of_fmap. lia.
      * apply NoDup_fmap_2; [|apply NoDup_seqZ]. intros x y. lia.
  - intros x. apply Hin.
  - left. split.
    + split; [apply Hin; lia|]. intros c Hc. rewrite !Hin. unfold pos_hyp, neg_hyp. lia.
    + right. cbn [length]. rewrite length_app, length_fmap, !length_seqZ. zlia.
Qed.

(** The search on a node ends with a depth, given fuel for one call per
    hypothesis. *)
Lemma weigh_sequential_node (n : Z) (fuel : nat) (P : list Z) :
  3 <= n < INT_MAX -> node_ok n P -> (length P < fuel)%nat ->
  exists d, weigh_sequential fuel (P ++ [INT_MAX]) n = Ret d.
Proof.
  intros Hn. revert P. induction fuel as [|fuel IH]; intros P Hok Hlen; [lia|].
  cbn [weigh_sequential].
  destruct (decide (length P <= 1)%nat) as [Hle|Hgt].
  - destruct (node_num_pos n P ltac:(lia) Hok) as (cfg & -> & Hnp).
    cbn [mbind result_bind rbind].
    destruct (Z.leb_spec (num_pos cfg) 1); [|lia]. by exists 0.
  - destruct (node_step n P Hn Hok ltac:(lia))
      as (cfg & ns & s1 & s2 & cr & -> & Hnp & Hsel & Hns & Hw & Hch).
    cbn [mbind result_bind rbind].
    destruct (Z.leb_spec (num_pos cfg) 1); [lia|].
    rewrite Hsel. cbn [mbind result_bind rbind].
    destruct (Z.gtb_spec ns 0); [|lia].
    unfold split_selection. rewrite Hw. cbn [mbind result_bind rbind].
    destruct (Hch C_MORE ltac:(done)) as (-> & _ & Hl1 & Hok1).
    destruct (Hch C_EQUAL ltac:(done)) as (-> & _ & Hl2 & Hok2).
    destruct (Hch C_LESS ltac:(done)) as (-> & _ & Hl3 & Hok3).
    destruct (IH _ Hok1 ltac:(lia)) as [r1 ->].
    destruct (IH _ Hok2 ltac:(lia)) as [r2 ->].
    destruct (IH _ Hok3 ltac:(lia)) as [r3 ->].
    cbn [mbind result_bind rbind]. by eexists.
Qed.

Lemma reachable_node_ok (n : Z) (c : list Z) :
  3 <= n < INT_MAX -> reachable n c ->
  exists P, c = P ++ [INT_MAX] /\ node_ok n P.
Proof.
  intros Hn. induction 1 as [|c cfg ns s1 s2 cr t _ (P & -> & Hok) Hc Hnp Hsel Hns Hw Ht].
  - eexists. split; [apply new_coins_eq|]. apply node_ok_root. lia.
  - destruct (decide (length P <= 1)%nat) as [Hle|Hgt].
    { destruct (node_num_pos n P ltac:(lia) Hok) as (cfg' & Hc' & Hnp').
      rewrite Hc in Hc'. injection Hc' as <-. lia. }
    destruct (node_step n P Hn Hok ltac:(lia))
      as (cfg' & ns' & s1' & s2' & cr' & Hc' & _ & Hsel' & _ & Hw' & Hch).
    rewrite Hc in Hc'. injection Hc' as <-.
    rewrite Hsel in Hsel'. injection Hsel' as <- <- <-.
    rewrite Hw in Hw'. injection Hw' as <-.
    destruct (Hch t Ht) as (-> & _ & _ & Hok').
    by eexists.
Qed.

(** C4. For [n >= 3] coins, as many as [new_coins] can hold in an array
    whose size [2 n + 2] is an [int], the search from the initial set ends
    with a depth, whatever fuel beyond [2 n + 2] it is given; and at every array
    the search reaches whose configuration is not terminal, the selector
    returns coins and each of the three arrays of [weigh] holds fewer
    hypotheses than the array weighed. *)
Theorem weigh_sequential_terminates (n : Z) :
  3 <= n -> 2 * n + 2 <= INT_MAX ->
  (exists d, forall fuel : nat,
     (2 * Z.to_nat n + 2 <= fuel)%nat ->
     weigh_sequential fuel (new_coins n) n = Ret d) /\
  (forall c, reachable n c ->
     exists cfg np,
       get_cfg c n = Ret cfg /\ npos c = Ret np /\ num_pos cfg = np /\
       (1 < num_pos cfg ->
        exists ns s1 s2 cr,
          getselection cfg = Ret (ns, s1, s2) /\ 0 < ns /\
          weigh c s1 s2 ns = Ret cr /\
          forall t, t <> C_DOUBLE ->
            exists np', npos (cr t) = Ret np' /\ np' < np)).
Proof.
  intros Hn3 Hsize. assert (Hn : 3 <= n < INT_MAX) by lia. split.
  - pose proof (node_ok_root n ltac:(lia)) as Hroot.
    set (P0 := 0 :: seqZ 1 n ++ (Z.opp <$> seqZ 1 n)) in *.
    assert (HP0 : length P0 = (2 * Z.to_nat n + 1)%nat).
    { unfold P0. cbn [length]. rewrite length_app, length_fmap, !length_seqZ. lia. }
    destruct (weigh_sequential_node n (2 * Z.to_nat n + 2) P0 Hn Hroot ltac:(lia))
      as [d Hd].
    exists d. intros fuel Hfuel. rewrite new_coins_eq. fold P0.
    rewrite (weigh_sequential_fuel (2 * Z.to_nat n + 2) fuel); [done|lia|].
    by rewrite Hd.
  - intros c Hc.
    destruct (reachable_node_ok n c Hn Hc) as (P & -> & Hok).
    pose proof (node_ok_INT_MAX n P ltac:(lia) Hok) as Hmax.
    destruct (node_num_pos n P ltac:(lia) Hok) as (cfg & Hcfg & Hnp).
    exists cfg, (Z.of_nat (length P)).
    split; [done|]. split; [by apply npos_spec|]. split; [done|].
    intros Hgt.
    destruct (node_step n P Hn Hok ltac:(lia))
      as (cfg' & ns & s1 & s2 & cr & Hc' & _ & Hsel & Hns & Hw & Hch).
    rewrite Hcfg in Hc'. injection Hc' as <-.
    exists ns, s1, s2, cr. repeat (split; [done|]).
    intros t Ht. destruct (Hch t Ht) as (_ & Hnpos & Hlt & _).
    eexists. split; [exact Hnpos|]. lia.
Qed.

Lemma weigh_sequential_terminates_witness :
  (exists d, forall fuel : nat,
     (2 * Z.to_nat 4 + 2 <= fuel)%nat ->
     weigh_sequential fuel (new_coins 4) 4 = Ret d) /\
  (forall c, reachable 4 c ->
     exists cfg np,
       get_cfg c 4 = Ret cfg /\ npos c = Ret np /\ num_pos cfg = np /\
       (1 < num_pos cfg ->
        exists ns s1 s2 cr,
          getselection cfg = Ret (ns, s1, s2) /\ 0 < ns /\
          weigh c s1 s2 ns = Ret cr /\
          forall t, t <> C_DOUBLE ->
            exists np', npos (cr t) = Ret np' /\ np' < np)).
Proof.
  apply (weigh_sequential_terminates 4); unfold INT_MAX; lia.
Defined.

(** ** The sizes of the children of a node of type A *)

(** [split_A_counts], with the number [l] of borrowed EQUAL coins. *)
Lemma split_A_counts_l (P : list Z) (n : Z) :
  0 < n -> NoDup P -> (forall x, x ∈ P -> - n <= x <= n) -> INT_MAX ∉ P ->
  type_A P ->
  let m := (Z.of_nat (length P) - 1) / 2 in
  1 <= m -> (1 <= n - m \/ 2 <= m) ->
  exists cfg ns s1 s2 l,
    get_cfg (P ++ [INT_MAX]) n = Ret cfg /\
    num_pos cfg = Z.of_nat (length P) /\
    getselection cfg = Ret (ns, s1, s2) /\
    ns = Z.of_nat (length s1) /\ ns = Z.of_nat (length s2) /\
    0 < ns /\ 0 <= l <= 1 /\ 2 * ns - l <= m /\
    (l = 1 <-> m mod 3 = 1 /\ n - m <> 0) /\
    (m mod 3 = 0 -> ns = m / 3) /\
    (m mod 3 = 1 -> ns = if decide (n - m = 0) then (m - 1) / 3 else (m + 2) / 3) /\
    (m mod 3 = 2 -> ns = (m + 1) / 3) /\
    Z.of_nat (outcome_count s1 s2 P C_MORE) = 2 * ns - l /\
    Z.of_nat (outcome_count s1 s2 P C_LESS) = 2 * ns - l /\
    Z.of_nat (outcome_count s1 s2 P C_EQUAL) = 1 + 2 * (m - (2 * ns - l)).
Proof.
  intros Hn HND Hr Hmax HA m Hm Hslack.
  destruct (get_cfg_type_A P n Hn HND Hr Hmax HA)
    as (cfg & Hc & Hwf & Hsel & HM & HL & Hae & Hlen & He & Hnp & HP).
  assert (Hmd : size cfg C_DOUBLE = m) by (unfold m; zlia).
  exists cfg.
  destruct (get_sel_A_spec cfg Hwf) as (ns & s1 & s2 & Hgs & Hs1 & Hl1 & Hl2 & Hcases).
  rewrite <- getselection_is_get_sel_A in Hgs by (done || lia).
  rewrite Hmd, He, Hmd, !Hsel in Hcases. rewrite Hsel in Hs1.
  set (D := coins_of P n C_DOUBLE) in *. set (E := coins_of P n C_EQUAL) in *.
  assert (HDlen : Z.of_nat (length D) = m) by (rewrite <- Hmd, Hwf, Hsel; done).
  assert (HcE : forall c, c ∈ D -> 0 <= c /\ (c ∉ E)).
  { intros c HcD. split; [apply elem_of_coins_of in HcD; lia|].
    intros HcE. by pose proof (coins_of_disjoint _ _ _ _ _ HcD HcE). }
  assert (Hgen : forall (l : Z) (E2 : list Z),
    0 <= l <= 1 -> 0 < ns -> 2 * ns - l <= m ->
    s2 = take (Z.to_nat (ns - l)) (drop (Z.to_nat ns) D) ++ E2 ->
    (forall c, c ∈ E2 -> c ∈ E) ->
    Z.of_nat (outcome_count s1 s2 P C_MORE) = 2 * ns - l /\
    Z.of_nat (outcome_count s1 s2 P C_LESS) = 2 * ns - l /\
    Z.of_nat (outcome_count s1 s2 P C_EQUAL) = 1 + 2 * (m - (2 * ns - l))).
  { intros l E2 Hl Hns Hle Hs2 HE2.
    set (D1 := take (Z.to_nat ns) D) in *.
    set (D2 := take (Z.to_nat (ns - l)) (drop (Z.to_nat ns) D)) in *.
    set (D3 := drop (Z.to_nat (ns - l)) (drop (Z.to_nat ns) D)).
    assert (HD : D1 ++ D2 ++ D3 = D) by apply take_take_drop.
    destruct (count_A D1 D2 D3 E2 P) as (Hc1 & Hc2 & Hc3).
    { rewrite HD. apply NoDup_coins_of. }
    { rewrite HD. intros c HcD. destruct (HcE c HcD) as [? HnE].
      split; [done|]. intros ?. apply HnE. auto. }
    { by rewrite HD. }
    rewrite Hs1, Hs2, Hc1, Hc2, Hc3.
    assert (Z.of_nat (length D1) = ns) by (unfold D1; rewrite length_take; lia).
    assert (Z.of_nat (length D2) = ns - l).
    { unfold D2. rewrite length_take, length_drop. lia. }
    assert (Z.of_nat (length D3) = m - (2 * ns - l)).
    { unfold D3. rewrite !length_drop. lia. }
    lia. }
  destruct Hcases as [(H3 & -> & Hs2)|[(H3 & He1 & -> & x & Hx & Hs2)
                     |[(H3 & He0 & -> & Hs2)|(H3 & -> & Hs2)]]].
  - exists (m / 3), s1, s2, 0.
    split; [done|]. split; [done|]. split; [done|].
    split; [done|]. split; [done|].
    assert (0 < m / 3) by zlia. assert (2 * (m / 3) - 0 <= m) by zlia.
    split; [done|]. split; [lia|]. split; [done|]. split; [zlia|].
    split; [done|]. split; [lia|]. split; [lia|].
    apply (Hgen 0 []); try done; try lia.
    + by rewrite app_nil_r, Z.sub_0_r.
    + set_solver.
  - exists ((m + 2) / 3), s1, s2, 1.
    split; [done|]. split; [done|]. split; [done|].
    split; [done|]. split; [done|].
    assert (0 < (m + 2) / 3) by zlia. assert (2 * ((m + 2) / 3) - 1 <= m) by zlia.
    split; [done|]. split; [lia|]. split; [done|]. split; [zlia|].
    split; [lia|]. split; [intros _; by rewrite decide_False by lia|]. split; [lia|].
    apply (Hgen 1 [x]); try done; try lia.
    intros c ->%list_elem_of_singleton. by eapply list_elem_of_lookup_2.
  - exists ((m - 1) / 3), s1, s2, 0.
    split; [done|]. split; [done|]. split; [done|].
    split; [done|]. split; [done|].
    assert (0 < (m - 1) / 3) by zlia. assert (2 * ((m - 1) / 3) - 0 <= m) by zlia.
    split; [done|]. split; [lia|]. split; [done|]. split; [zlia|].
    split; [lia|]. split; [intros _; by rewrite decide_True by lia|]. split; [lia|].
    apply (Hgen 0 []); try done; try lia.
    + by rewrite app_nil_r, Z.sub_0_r.
    + set_solver.
  - exists ((m + 1) / 3), s1, s2, 0.
    split; [done|]. split; [done|]. split; [done|].
    split; [done|]. split; [done|].
    assert (0 < (m + 1) / 3) by zlia. assert (2 * ((m + 1) / 3) - 0 <= m) by zlia.
    split; [done|]. split; [lia|]. split; [done|]. split; [zlia|].
    split; [lia|]. split; [lia|]. split; [done|].
    apply (Hgen 0 []); try done; try lia.
    + by rewrite app_nil_r, Z.sub_0_r.
    + set_solver.
Qed.

(** ** The depth of the sequential search *)

Lemma depth_of_0 (x : Z) : x <= 1 -> depth_of x 0.
Proof. intros Hx. split; [done|]. split; [simpl; lia|lia]. Qed.

Lemma depth_of_mono (a b da db : Z) :
  a <= b -> depth_of a da -> depth_of b db -> da <= db.
Proof.
  intros Hab (Ha0 & _ & Ha) (Hb0 & Hb & _).
  destruct (decide (da <= db)) as [|Hgt]; [done|]. exfalso.
  specialize (Ha ltac:(lia)).
  pose proof (Z.pow_le_mono_r 3 db (da - 1) ltac:(lia) ltac:(lia)). lia.
Qed.

Lemma depth_of_fun (x d d' : Z) : depth_of x d -> depth_of x d' -> d = d'.
Proof.
  intros H H'.
  pose proof (depth_of_mono x x d d' ltac:(lia) H H').
  pose proof (depth_of_mono x x d' d ltac:(lia) H' H). lia.
Qed.

Lemma pow3_odd_Z (d : Z) : 0 <= d -> 3 ^ d mod 2 = 1.
Proof. intros Hd. rewrite <- (Z2Nat.id d Hd). apply pow3_odd. Qed.

Lemma pow3_succ (d : Z) : 0 <= d -> 3 ^ (1 + d) = 3 * 3 ^ d.
Proof. intros Hd. replace (1 + d) with (Z.succ d) by lia. by rewrite Z.pow_succ_r. Qed.

Lemma pow3_pred (d : Z) : 0 < d -> 3 ^ d = 3 * 3 ^ (d - 1).
Proof.
  intros Hd. replace d with (Z.succ (d - 1)) at 1 by lia.
  rewrite Z.pow_succ_r by lia. done.
Qed.

(** The largest of three sets decides the depth below a node. *)
Lemma max3_depth (a b c da db dc : Z) :
  depth_of a da -> depth_of b db -> depth_of c dc ->
  exists M, (M = a \/ M = b \/ M = c) /\ a <= M /\ b <= M /\ c <= M /\
            depth_of M (max3 da db dc).
Proof.
  intros Ha Hb Hc.
  assert (HM : exists M dM, (M = a /\ dM = da \/ M = b /\ dM = db \/ M = c /\ dM = dc) /\
                            a <= M /\ b <= M /\ c <= M).
  { destruct (Z.le_gt_cases a b), (Z.le_gt_cases b c), (Z.le_gt_cases a c);
      try (exists a, da; lia); try (exists b, db; lia); try (exists c, dc; lia). }
  destruct HM as (M & dM & Hcase & HaM & HbM & HcM).
  assert (HdM : depth_of M dM) by (destruct Hcase as [[-> ->]|[[-> ->]|[-> ->]]]; done).
  pose proof (depth_of_mono _ _ _ _ HaM Ha HdM).
  pose proof (depth_of_mono _ _ _ _ HbM Hb HdM).
  pose proof (depth_of_mono _ _ _ _ HcM Hc HdM).
  exists M. split; [lia|]. repeat (split; [done|]).
  replace (max3 da db dc) with dM; [done|].
  unfold max3. destruct (Z.gtb_spec da db), (Z.gtb_spec db dc);
    repeat match goal with |- context [?x >? ?y] => destruct (Z.gtb_spec x y) end; lia.
Qed.

(** A split into three parts that differ by at most one costs one weighing. *)
Lemma depth_of_step (N M dM : Z) :
  depth_of M dM -> 2 <= N -> 3 * M - 2 <= N <= 3 * M -> depth_of N (1 + dM).
Proof.
  intros (Hd0 & Hup & Hlo) HN HNM.
  split; [lia|]. rewrite pow3_succ by done. split; [lia|]. intros _.
  replace (1 + dM - 1) with dM by lia.
  destruct (decide (dM = 0)) as [->|Hd]; [simpl; lia|].
  specialize (Hlo ltac:(lia)). rewrite (pow3_pred dM) by lia. lia.
Qed.

Lemma depth_of_balanced (a b c da db dc : Z) :
  depth_of a da -> depth_of b db -> depth_of c dc ->
  2 <= a + b + c ->
  -1 <= a - b <= 1 -> -1 <= a - c <= 1 -> -1 <= b - c <= 1 ->
  depth_of (a + b + c) (1 + max3 da db dc).
Proof.
  intros Ha Hb Hc HN Hab Hac Hbc.
  destruct (max3_depth a b c da db dc Ha Hb Hc) as (M & HM & HaM & HbM & HcM & HdM).
  apply (depth_of_step _ M); [done|done|lia].
Qed.

(** The first weighing, on [n] coins none of which is known to be good:
    the three parts are [a], [e] and [a] with the sizes of [get_sel_A]. *)
Lemma depth_of_root (n a e da de : Z) :
  3 <= n ->
  (n mod 3 = 0 -> a = 2 * (n / 3)) ->
  (n mod 3 = 1 -> a = 2 * ((n - 1) / 3)) ->
  (n mod 3 = 2 -> a = 2 * ((n + 1) / 3)) ->
  e = 2 * n + 1 - 2 * a ->
  depth_of a da -> depth_of e de ->
  depth_of (2 * n + 3) (1 + max3 da de da).
Proof.
  intros Hn H0 H1 H2 He Ha Hde.
  destruct (max3_depth a e a da de da Ha Hde Ha) as (M & HM & HaM & HeM & _ & HdM).
  destruct HdM as (Hd0 & Hup & Hlo).
  set (D := max3 da de da) in *.
  pose proof (pow3_odd_Z D Hd0) as Hodd.
  split; [lia|]. rewrite pow3_succ by done.
  replace (1 + D - 1) with D by lia.
  assert (n mod 3 = 0 \/ n mod 3 = 1 \/ n mod 3 = 2) as [H3|[H3|H3]] by zlia.
  - specialize (H0 H3). assert (M = e) as -> by zlia.
    split; [zlia|]. intros _.
    destruct (decide (D = 0)) as [HD|HD]; [rewrite HD; simpl; lia|].
    specialize (Hlo ltac:(lia)). rewrite (pow3_pred D) by lia. zlia.
  - specialize (H1 H3). assert (M = e) as -> by zlia.
    split; [zlia|]. intros _.
    destruct (decide (D = 0)) as [HD|HD]; [rewrite HD; simpl; lia|].
    specialize (Hlo ltac:(lia)).
    pose proof (pow3_odd_Z (D - 1) ltac:(lia)) as Hodd'.
    rewrite (pow3_pred D) by lia. zlia.
  - specialize (H2 H3). assert (M = a) as -> by zlia.
    split; [zlia|]. intros _.
    destruct (decide (D = 0)) as [HD|HD]; [rewrite HD; simpl; lia|].
    specialize (Hlo ltac:(lia)). rewrite (pow3_pred D) by lia. zlia.
Qed.

(** The sizes of the three children of a node: balanced below the root, and
    the sizes of the first weighing at the root. *)
Lemma node_sizes (n : Z) (P : list Z) (cfg : coin_cfg) (ns : Z) (s1 s2 : list Z) :
  3 <= n < INT_MAX -> node_ok n P -> (2 <= length P)%nat ->
  get_cfg (P ++ [INT_MAX]) n = Ret cfg ->
  getselection cfg = Ret (ns, s1, s2) ->
  let a := Z.of_nat (length (child s1 s2 P C_MORE)) in
  let b := Z.of_nat (length (child s1 s2 P C_EQUAL)) in
  let c := Z.of_nat (length (child s1 s2 P C_LESS)) in
  a + b + c = Z.of_nat (length P) /\
  (Z.of_nat (length P) <= 2 * n ->
     -1 <= a - b <= 1 /\ -1 <= a - c <= 1 /\ -1 <= b - c <= 1) /\
  (Z.of_nat (length P) = 2 * n + 1 ->
     c = a /\
     (n mod 3 = 0 -> a = 2 * (n / 3)) /\
     (n mod 3 = 1 -> a = 2 * ((n - 1) / 3)) /\
     (n mod 3 = 2 -> a = 2 * ((n + 1) / 3))).
Proof.
  intros Hn Hok Hlen Hcfg Hgs a b c.
  pose proof (node_ok_INT_MAX n P ltac:(lia) Hok) as Hmax.
  destruct Hok as (HND & Hr & [[HA Hs]|[HB Hs]]).
  - remember ((Z.of_nat (length P) - 1) / 2) as m eqn:Hmdef.
    destruct (get_cfg_type_A P n ltac:(lia) HND Hr Hmax HA)
      as (cfg0 & Hc0 & _ & _ & _ & _ & _ & Hodd & _).
    assert (Hm2 : 2 * m + 1 = Z.of_nat (length P)) by zlia.
    assert (Hm : 1 <= m) by lia.
    destruct (split_A_counts_l P n ltac:(lia) HND Hr Hmax HA)
      as (cfg' & ns' & s1' & s2' & l & Hc & Hnp & Hsel & Hl1 & Hl2 & Hns & Hl & Hle
          & Hliff & Hc3a & Hc3b & Hc3c & HcM & HcL & HcE).
    { rewrite <- Hmdef. done. }
    { rewrite <- Hmdef. destruct Hs as [?|[? ?]]; lia. }
    rewrite <- Hmdef in Hle, Hliff, Hc3a, Hc3b, Hc3c, HcE.
    rewrite Hcfg in Hc. injection Hc as <-.
    rewrite Hgs in Hsel. injection Hsel as <- <- <-.
    unfold outcome_count in HcM, HcL, HcE.
    fold (child s1 s2 P C_MORE) in HcM. fold (child s1 s2 P C_LESS) in HcL.
    fold (child s1 s2 P C_EQUAL) in HcE.
    fold a in HcM. fold b in HcE. fold c in HcL.
    split; [lia|]. split.
    + intros Hin.
      assert (m mod 3 = 0 \/ m mod 3 = 1 \/ m mod 3 = 2) as [H3|[H3|H3]] by zlia.
      * specialize (Hc3a H3). assert (l = 0) by zlia. zlia.
      * specialize (Hc3b H3). rewrite decide_False in Hc3b by lia.
        assert (l = 1) by (apply Hliff; lia). zlia.
      * specialize (Hc3c H3). assert (l = 0) by zlia. zlia.
    + intros Hroot. assert (m = n) as -> by lia.
      assert (l = 0) by lia. subst l.
      split; [lia|]. split; [|split].
      * intros H3. specialize (Hc3a H3). lia.
      * intros H3. specialize (Hc3b H3). rewrite decide_True in Hc3b by lia. lia.
      * intros H3. specialize (Hc3c H3). lia.
  - destruct (get_cfg_type_B P n ltac:(lia) HND Hr Hmax HB)
      as (cfg' & Hc & HD0 & Hae0 & Hpq & He & Hnp).
    rewrite Hcfg in Hc. injection Hc as <-.
    destruct (split_B_counts P n cfg HND Hr Hmax Hcfg HD0 Hae0)
      as (ns' & s1' & s2' & Hsel & Hl1 & Hl2 & Hns & _ & Hsum & Hab & Hac & Hbc).
    { rewrite He, Hpq. exact Hs. }
    rewrite Hgs in Hsel. injection Hsel as <- <- <-.
    unfold outcome_count in Hsum, Hab, Hac, Hbc.
    fold (child s1 s2 P C_MORE) in Hsum, Hab, Hac, Hbc.
    fold (child s1 s2 P C_LESS) in Hsum, Hab, Hac, Hbc.
    fold (child s1 s2 P C_EQUAL) in Hsum, Hab, Hac, Hbc.
    fold a b c in Hsum, Hab, Hac, Hbc.
    split; [lia|]. split; [intros _; lia|].
    intros Hroot. unfold slack_B in Hs. lia.
Qed.

(** Below the root, the search on [x] hypotheses ends with the least depth
    [d] such that [x <= 3 ^ d]. *)
Lemma weigh_sequential_inner_depth (n : Z) (fuel : nat) (P : list Z) :
  3 <= n < INT_MAX -> node_ok n P -> Z.of_nat (length P) <= 2 * n ->
  (length P < fuel)%nat ->
  exists d, weigh_sequential fuel (P ++ [INT_MAX]) n = Ret d /\
            depth_of (Z.of_nat (length P)) d.
Proof.
  intros Hn. revert P. induction fuel as [|fuel IH]; intros P Hok Hin Hlen; [lia|].
  cbn [weigh_sequential].
  destruct (decide (length P <= 1)%nat) as [Hle|Hgt].
  - destruct (node_num_pos n P ltac:(lia) Hok) as (cfg & -> & Hnp).
    cbn [mbind result_bind rbind].
    destruct (Z.leb_spec (num_pos cfg) 1); [|lia].
    exists 0. split; [done|]. apply depth_of_0. lia.
  - destruct (node_step n P Hn Hok ltac:(lia))
      as (cfg & ns & s1 & s2 & cr & Hcfg & Hnp & Hsel & Hns & Hw & Hch).
    destruct (node_sizes n P cfg ns s1 s2 Hn Hok ltac:(lia) Hcfg Hsel)
      as (Hsum & Hbal & _).
    specialize (Hbal Hin) as (Hab & Hac & Hbc).
    rewrite Hcfg. cbn [mbind result_bind rbind].
    destruct (Z.leb_spec (num_pos cfg) 1); [lia|].
    rewrite Hsel. cbn [mbind result_bind rbind].
    destruct (Z.gtb_spec ns 0); [|lia].
    unfold split_selection. rewrite Hw. cbn [mbind result_bind rbind].
    destruct (Hch C_MORE ltac:(done)) as (-> & _ & Hl1 & Hok1).
    destruct (Hch C_EQUAL ltac:(done)) as (-> & _ & Hl2 & Hok2).
    destruct (Hch C_LESS ltac:(done)) as (-> & _ & Hl3 & Hok3).
    destruct (IH _ Hok1 ltac:(lia) ltac:(lia)) as (r1 & -> & Hd1).
    destruct (IH _ Hok2 ltac:(lia) ltac:(lia)) as (r2 & -> & Hd2).
    destruct (IH _ Hok3 ltac:(lia) ltac:(lia)) as (r3 & -> & Hd3).
    cbn [mbind result_bind rbind]. eexists. split; [done|].
    rewrite <- Hsum. apply depth_of_balanced; try done. lia.
Qed.

(** The search from the initial set of [n >= 3] coins. *)
Lemma weigh_sequential_root_depth (n : Z) :
  3 <= n < INT_MAX ->
  exists d,
    (forall fuel : nat, (2 * Z.to_nat n + 2 <= fuel)%nat ->
       weigh_sequential fuel (new_coins n) n = Ret d) /\
    depth_of (2 * n + 3) d /\ 0 < d.
Proof.
  intros Hn.
  pose proof (node_ok_root n ltac:(lia)) as Hroot.
  set (P0 := 0 :: seqZ 1 n ++ (Z.opp <$> seqZ 1 n)) in *.
  assert (HP0 : Z.of_nat (length P0) = 2 * n + 1).
  { unfold P0. cbn [length]. rewrite length_app, length_fmap, !length_seqZ. lia. }
  destruct (node_step n P0 Hn Hroot ltac:(lia))
    as (cfg & ns & s1 & s2 & cr & Hcfg & Hnp & Hsel & Hns & Hw & Hch).
  destruct (node_sizes n P0 cfg ns s1 s2 Hn Hroot ltac:(lia) Hcfg Hsel)
    as (Hsum & _ & Hsizes).
  specialize (Hsizes HP0) as (Hca & H0 & H1 & H2).
  destruct (Hch C_MORE ltac:(done)) as (HcrM & _ & Hl1 & Hok1).
  destruct (Hch C_EQUAL ltac:(done)) as (HcrE & _ & Hl2 & Hok2).
  destruct (Hch C_LESS ltac:(done)) as (HcrL & _ & Hl3 & Hok3).
  set (F := (2 * Z.to_nat n + 1)%nat).
  destruct (weigh_sequential_inner_depth n F _ Hn Hok1 ltac:(lia) ltac:(lia))
    as (r1 & Hr1 & Hd1).
  destruct (weigh_sequential_inner_depth n F _ Hn Hok2 ltac:(lia) ltac:(lia))
    as (r2 & Hr2 & Hd2).
  destruct (weigh_sequential_inner_depth n F _ Hn Hok3 ltac:(lia) ltac:(lia))
    as (r3 & Hr3 & Hd3).
  rewrite Hca in Hd3. pose proof (depth_of_fun _ _ _ Hd1 Hd3) as <-.
  assert (Hrun : weigh_sequential (S F) (new_coins n) n = Ret (1 + max3 r1 r2 r1)).
  { rewrite new_coins_eq. fold P0. cbn [weigh_sequential].
    rewrite Hcfg. cbn [mbind result_bind rbind].
    destruct (Z.leb_spec (num_pos cfg) 1); [lia|].
    rewrite Hsel. cbn [mbind result_bind rbind].
    destruct (Z.gtb_spec ns 0); [|lia].
    unfold split_selection. rewrite Hw. cbn [mbind result_bind rbind].
    rewrite HcrM, HcrE, HcrL, Hr1, Hr2, Hr3. done. }
  exists (1 + max3 r1 r2 r1). split; [|split].
  - intros fuel Hfuel.
    rewrite (weigh_sequential_fuel (S F) fuel); [done|unfold F; lia|].
    by rewrite Hrun.
  - apply (depth_of_root n (Z.of_nat (length (child s1 s2 P0 C_MORE)))
             (Z.of_nat (length (child s1 s2 P0 C_EQUAL)))); try done; lia.
  - destruct Hd1 as [? _]. destruct Hd2 as [? _].
    unfold max3. repeat match goal with |- context [?x >? ?y] => destruct (Z.gtb_spec x y) end; lia.
Qed.

(** ** Base-3 digits *)

Lemma digit_S_nonneg (x : Z) (n : nat) : 0 <= x -> digit x (S n) = digit (x / 3) n.
Proof. intros Hx. cbn [digit]. by rewrite Z.quot_div_nonneg by lia. Qed.

Lemma digit_div (x : Z) (n : nat) : 0 <= x -> digit x n = (x / 3 ^ Z.of_nat n) mod 3.
Proof.
  revert x. induction n as [|n IH]; intros x Hx.
  - cbn [digit]. rewrite Z.rem_mod_nonneg by lia. by rewrite Z.div_1_r.
  - rewrite digit_S_nonneg, IH by (done || zlia).
    rewrite Nat2Z.inj_succ, Z.pow_succ_r by lia.
    rewrite Z.div_div by (pose proof (pow3_pos n); lia). done.
Qed.

Lemma digit_range (x : Z) (n : nat) : 0 <= x -> 0 <= digit x n < 3.
Proof. intros Hx. rewrite digit_div by done. zlia. Qed.

Lemma digit_quot_ipow (x : Z) (n : nat) : digit x n = Z.rem (Z.quot x (ipow 3 n)) 3.
Proof.
  rewrite ipow_spec. revert x. induction n as [|n IH]; intros x.
  - cbn [digit]. by rewrite Z.quot_1_r.
  - cbn [digit]. rewrite IH, Nat2Z.inj_succ, Z.pow_succ_r by lia.
    rewrite Z.quot_quot by (pose proof (pow3_pos n); lia). done.
Qed.

Lemma digit_op (x : Z) (n : nat) : 0 <= x -> digit (op x) n = swap_digit (digit x n).
Proof.
  revert x. induction n as [|n IH]; intros x Hx.
  - cbn [digit]. pose proof (op_nonneg x Hx).
    rewrite !Z.rem_mod_nonneg by lia. by apply op_digits.
  - pose proof (op_nonneg x Hx).
    rewrite !digit_S_nonneg by done.
    destruct (op_digits x Hx) as [_ ->]. apply IH. zlia.
Qed.

Lemma digit_small (k i : nat) (x : Z) :
  0 <= x < 3 ^ Z.of_nat k -> (k <= i)%nat -> digit x i = 0.
Proof.
  intros Hx Hi. rewrite digit_div by lia.
  rewrite Z.div_small; [done|].
  pose proof (Z.pow_le_mono_r 3 (Z.of_nat k) (Z.of_nat i) ltac:(lia) ltac:(lia)). lia.
Qed.

Lemma digit_low (k i : nat) (x d : Z) :
  0 <= x -> 0 <= d -> (i < k)%nat -> digit (x + d * 3 ^ Z.of_nat k) i = digit x i.
Proof.
  intros Hx Hd Hi. pose proof (pow3_pos k). pose proof (pow3_pos i).
  rewrite !digit_div by nia.
  replace (Z.of_nat k) with (Z.of_nat i + 1 + Z.of_nat (k - i - 1)) by lia.
  rewrite !Z.pow_add_r, Z.pow_1_r by lia.
  replace (x + d * (3 ^ Z.of_nat i * 3 * 3 ^ Z.of_nat (k - i - 1)))
    with (x + (d * 3 * 3 ^ Z.of_nat (k - i - 1)) * 3 ^ Z.of_nat i) by lia.
  rewrite Z.div_add by lia.
  replace (d * 3 * 3 ^ Z.of_nat (k - i - 1)) with ((d * 3 ^ Z.of_nat (k - i - 1)) * 3) by lia.
  by rewrite Z.mod_add by lia.
Qed.

Lemma digit_top (k : nat) (x d : Z) :
  0 <= x < 3 ^ Z.of_nat k -> 0 <= d < 3 -> digit (x + d * 3 ^ Z.of_nat k) k = d.
Proof.
  intros Hx Hd. pose proof (pow3_pos k).
  rewrite digit_div by nia.
  rewrite Z.div_add by lia. rewrite Z.div_small by lia. simpl. zlia.
Qed.

(** A number below [3 ^ k] is given by its [k] lowest digits. *)
Lemma digits_inj (k : nat) (x y : Z) :
  0 <= x < 3 ^ Z.of_nat k -> 0 <= y < 3 ^ Z.of_nat k ->
  (forall i, (i < k)%nat -> digit x i = digit y i) -> x = y.
Proof.
  revert x y. induction k as [|k IH]; intros x y Hx Hy Hd.
  - simpl in Hx, Hy. lia.
  - rewrite Nat2Z.inj_succ, Z.pow_succ_r in Hx, Hy by lia.
    assert (H0 : x mod 3 = y mod 3).
    { specialize (Hd 0%nat ltac:(lia)). by rewrite !digit_div, !Z.div_1_r in Hd by lia. }
    assert (H1 : x / 3 = y / 3).
    { apply IH; [zlia|zlia|]. intros i Hi.
      rewrite <- !digit_S_nonneg by lia. apply Hd. lia. }
    zlia.
Qed.

(** ** [add] on the table in the first cells *)

Lemma usedb_spec (U : list Z) (t : Z) : usedb U t = true <-> t ∈ U.
Proof.
  unfold usedb. induction U as [|x U IH]; simpl.
  - split; [done|]. by intros ?%elem_of_nil.
  - rewrite orb_true_iff, IH, elem_of_cons.
    destruct (Z.eqb_spec t x); naive_solver.
Qed.

Lemma free_in_usedb (T : list Z) (t : Z) :
  bool_decide (free_in T t) = negb (usedb (T ++ (op <$> T)) t).
Proof.
  destruct (usedb (T ++ (op <$> T)) t) eqn:Hu; simpl.
  - apply bool_decide_eq_false. rewrite free_in_spec.
    apply usedb_spec in Hu. set_solver.
  - apply bool_decide_eq_true. rewrite free_in_spec.
    assert (t ∉ T ++ (op <$> T)) by (rewrite <- usedb_spec, Hu; done).
    set_solver.
Qed.

Lemma isfree_usedb (t : Z) (hc : list Z) (nc : nat) :
  (nc <= length hc)%nat ->
  isfree t hc (Z.of_nat nc)
  = Ret (negb (usedb (take nc hc ++ (op <$> take nc hc)) t)).
Proof.
  intros Hnc. rewrite isfree_spec by lia. by rewrite Nat2Z.id, free_in_usedb.
Qed.

Lemma qsort_add_cell (hc : list Z) (nc j : nat) (t m : Z) :
  (j < nc)%nat -> (nc < length hc)%nat ->
  qsort (<[nc := m]> (<[j := t]> hc)) (Z.of_nat nc + 1)
  = merge_sort Z.le (<[j := t]> (take nc hc) ++ [m]) ++ drop (S nc) hc.
Proof.
  intros Hj Hnc. replace (Z.of_nat nc + 1) with (Z.of_nat (S nc)) by lia.
  rewrite qsort_spec.
  rewrite <- (take_drop nc hc) at 1 2.
  rewrite insert_app_l by (rewrite length_take; lia).
  destruct (drop nc hc) as [|z rest] eqn:Hd.
  { apply (f_equal length) in Hd. rewrite length_drop in Hd. simpl in Hd. lia. }
  assert (Hlen : length (<[j := t]> (take nc hc)) = nc).
  { rewrite length_insert, length_take. lia. }
  rewrite insert_app_r_alt by lia. rewrite Hlen, Nat.sub_diag. cbn [insert list_insert].
  assert (Hrest : drop (S nc) hc = rest).
  { replace (S nc) with (nc + 1)%nat by lia. by rewrite <- drop_drop, Hd. }
  rewrite Hrest.
  replace (<[j := t]> (take nc hc) ++ m :: rest)
    with ((<[j := t]> (take nc hc) ++ [m]) ++ rest) by (by rewrite <- app_assoc).
  assert (Hl : length (<[j := t]> (take nc hc) ++ [m]) = S nc).
  { rewrite length_app, Hlen. simpl. lia. }
  rewrite <- Hl. by rewrite take_app_length, drop_app_length.
Qed.

Lemma add_inner_table (hc : list Z) (k : nat) (nc : nat) (m : Z) (n j : nat) :
  (nc < length hc)%nat -> (j + n = nc)%nat ->
  add_inner hc k (Z.of_nat nc) m (Z.of_nat j) n
  = Ret (match add_find_cell (take nc hc ++ (op <$> take nc hc)) k m
                 (drop j (take nc hc)) j with
         | Some (j', t) =>
             Some (merge_sort Z.le (<[j' := t]> (take nc hc) ++ [m]) ++ drop (S nc) hc)
         | None => None
         end).
Proof.
  intros Hnc. revert j. induction n as [|n IH]; intros j Hj.
  - cbn [add_inner]. rewrite drop_ge by (rewrite length_take; lia). done.
  - cbn [add_inner].
    assert (Hlk : exists h, hc !! j = Some h).
    { apply lookup_lt_is_Some. lia. }
    destruct Hlk as [h Hh].
    rewrite (rd_lookup _ _ _ Hh). cbn [mbind result_bind rbind].
    assert (Hd : drop j (take nc hc) = h :: drop (S j) (take nc hc)).
    { apply drop_S. rewrite lookup_take_lt by lia. done. }
    rewrite Hd. cbn [add_find_cell].
    destruct (Z.eqb_spec (mcomplement m h k) 0) as [H0|H0].
    + cbn [mbind result_bind rbind negb andb].
      replace (Z.of_nat j + 1) with (Z.of_nat (S j)) by lia. apply IH. lia.
    + rewrite isfree_usedb by lia.
      destruct (usedb _ (mcomplement m h k)); cbn [mbind result_bind rbind negb andb].
      * replace (Z.of_nat j + 1) with (Z.of_nat (S j)) by lia. apply IH. lia.
      * rewrite wr_Ret by lia. cbn [mbind result_bind rbind].
        rewrite wr_Ret by (rewrite length_insert; lia). cbn [mbind result_bind rbind].
        rewrite qsort_add_cell by lia. done.
Qed.

Lemma add_outer_table (hc : list Z) (k : nat) (nc : nat) (m : Z) (n : nat) :
  (nc < length hc)%nat ->
  add_outer hc k (Z.of_nat nc) m n
  = match add_find_code (take nc hc ++ (op <$> take nc hc)) (take nc hc) k m n with
    | Some (m', j, t) =>
        Ret (merge_sort Z.le (<[j := t]> (take nc hc) ++ [m']) ++ drop (S nc) hc)
    | None => Exit 0
    end.
Proof.
  intros Hnc. revert m. induction n as [|n IH]; intros m; [done|].
  cbn [add_outer add_find_code].
  rewrite isfree_usedb by lia. cbn [mbind result_bind rbind].
  destruct (usedb _ m); cbn [negb]; [apply IH|].
  rewrite Nat2Z.id.
  pose proof (add_inner_table hc k nc m nc 0 Hnc ltac:(lia)) as Hin.
  change (Z.of_nat 0) with 0 in Hin. rewrite Hin.
  cbn [mbind result_bind rbind]. rewrite drop_0.
  destruct (add_find_cell _ k m (take nc hc) 0) as [[j t]|]; [done|apply IH].
Qed.

(** [add] reads the table in the first [nc] cells, writes the new table in
    the first [nc + 1] cells and keeps the cells behind; its only failure
    is the exit with status 0. *)
Lemma add_eq_table (hc : list Z) (k : nat) (nc : nat) :
  (nc < length hc)%nat ->
  add hc k (Z.of_nat nc)
  = match add_table (take nc hc) k with
    | Some T' => Ret (T' ++ drop (S nc) hc)
    | None => Exit 0
    end.
Proof.
  intros Hnc. unfold add, add_table. rewrite ipow_spec, add_outer_table by done.
  by destruct (add_find_code _ _ k 1 _) as [[[m j] t]|].
Qed.

(** ** [getbase] on the table in the first cells *)

Lemma least_unused_spec (U : list Z) (lo : Z) (n : nat) (m : Z) :
  lo <= m < lo + Z.of_nat n -> m ∉ U -> (forall m', lo <= m' < m -> m' ∈ U) ->
  least_unused U lo n = m.
Proof.
  revert lo. induction n as [|n IH]; intros lo Hm Hfree Hleast; [lia|].
  cbn [least_unused]. destruct (usedb U lo) eqn:Hu.
  - apply usedb_spec in Hu.
    destruct (decide (lo = m)) as [->|]; [done|].
    apply IH; [lia|done|]. intros m' Hm'. apply Hleast. lia.
  - destruct (decide (lo = m)) as [|Hne]; [done|].
    assert (lo ∈ U) as Hin by (apply Hleast; lia).
    apply usedb_spec in Hin. congruence.
Qed.

Lemma not_free_in_used (T : list Z) (t : Z) : ~ free_in T t <-> t ∈ T ++ (op <$> T).
Proof.
  rewrite free_in_spec, elem_of_app.
  destruct (decide (t ∈ T)), (decide (t ∈ op <$> T)); tauto.
Qed.

(** [getbase] writes [base_table k] in the first [n_sat k] cells, whatever
    the array holds, and keeps the cells behind. *)
Lemma getbase_eq_table (k : nat) (b : list Z) :
  (2 <= k)%nat -> n_sat k <= Z.of_nat (length b) ->
  getbase k b = Ret (base_table k ++ drop (Z.to_nat (n_sat k)) b) /\
  Z.of_nat (length (base_table k)) = n_sat k /\
  codes_ok k (base_table k).
Proof.
  induction k as [|k IH]; [lia|]. intros Hk Hb.
  destruct (decide (k = 1%nat)) as [->|Hk1].
  - split; [|split; [done|apply codes_ok_base]].
    rewrite n_sat_2 in Hb.
    destruct b as [|x0 [|x1 [|x2 b]]]; simpl in Hb; try lia.
    cbn [getbase Nat.eqb].
    rewrite wr_Ret_Z by (simpl; lia). cbn [mbind result_bind rbind].
    rewrite wr_Ret_Z by (rewrite ?length_insert; simpl; lia).
    cbn [mbind result_bind rbind].
    rewrite wr_Ret_Z by (rewrite ?length_insert; simpl; lia). reflexivity.
  - pose proof (n_sat_mono k ltac:(lia)) as [Hn3 Hlt].
    destruct (IH ltac:(lia) ltac:(lia)) as (Hget & Hlen & Hok).
    assert (Hget' : getbase k b = Ret (base_table k ++ drop (length (base_table k)) b)).
    { rewrite Hget. do 3 f_equal. lia. }
    destruct (getbase_step k b (base_table k) ltac:(lia) Hget' Hlen Hok Hb)
      as (m & Hm & Hfree & Hleast & _ & HgetS).
    assert (Hm' : least_unused (base_table k ++ (op <$> base_table k)) 1
                    (Z.to_nat (3 ^ Z.of_nat k - 1)) = m).
    { apply least_unused_spec; [lia| |].
      - by apply free_in_spec in Hfree as [? ?]; rewrite elem_of_app; tauto.
      - intros m' Hm'. apply not_free_in_used. apply Hleast. lia. }
    assert (Heq : base_table (S k) =
                  merge_sort Z.le
                    (base_table k ++ ((fun x => x + 3 ^ Z.of_nat k) <$> base_table k)
                       ++ ((fun x => x + 2 * 3 ^ Z.of_nat k) <$> base_table k)
                       ++ [2 * 3 ^ Z.of_nat k; m; 3 ^ Z.of_nat k + op m])).
    { cbn [base_table].
      destruct (Nat.leb_spec (S k) 1); [lia|].
      destruct (Nat.eqb_spec (S k) 2); [lia|].
      cbv zeta. by rewrite Hm'. }
    rewrite Heq. split; [done|]. split.
    + rewrite merge_sort_Permutation, !length_app, !length_fmap. simpl.
      pose proof (n_sat_succ k). lia.
    + rewrite merge_sort_Permutation. apply codes_ok_extend; [done|lia|done].
Qed.

Lemma length_add_table (T T' : list Z) (k : nat) :
  add_table T k = Some T' -> length T' = S (length T).
Proof.
  unfold add_table. destruct (add_find_code _ _ _ _ _) as [[[m j] t]|]; [|done].
  intros [= <-]. rewrite merge_sort_Permutation, length_app, length_insert. simpl. lia.
Qed.

(** The loop of [weigh_static] over [add], on a table followed by the cells
    of the coins to come. *)
Lemma add_coins_tables (T rest : list Z) (k : nat) (todo : nat) :
  (todo <= length rest)%nat ->
  add_coins (T ++ rest) k (Z.of_nat (length T)) todo
  = match add_tables T k todo with
    | Some T' => Ret (T' ++ drop todo rest)
    | None => Exit 0
    end.
Proof.
  revert T rest. induction todo as [|todo IH]; intros T rest Hlen; [done|].
  cbn [add_coins add_tables].
  rewrite add_eq_table by (rewrite length_app; simpl in Hlen; lia).
  rewrite take_app_length.
  destruct (add_table T k) as [T'|] eqn:HT; [|done].
  cbn [mbind result_bind rbind].
  pose proof (length_add_table _ _ _ HT) as HlT.
  replace (Z.of_nat (length T) + 1) with (Z.of_nat (length T')) by lia.
  assert (Hdrop : drop (S (length T)) (T ++ rest) = drop 1 rest).
  { rewrite drop_app_ge by lia. f_equal. lia. }
  rewrite Hdrop, IH by (rewrite length_drop; lia).
  destruct (add_tables T' k todo); [|done].
  by rewrite drop_drop.
Qed.

(** The table of [weigh_static]: the saturated table of [getbase], then
    one [add] per coin beyond it. *)
Lemma weigh_static_table_eq (fuel : nat) (n_coins : Z) (k : nat) (n : Z) :
  3 <= n_coins ->
  find_base fuel 2 0 n_coins = Ret (k, n) ->
  weigh_static_table fuel n_coins
  = match add_tables (base_table (if n =? n_coins then k else (k - 1)%nat)) k
            (Z.to_nat (n_coins - n)) with
    | Some T => Ret (k, T)
    | None => Exit 0
    end.
Proof.
  intros Hn Hfb. unfold weigh_static_table. rewrite Hfb. cbn [mbind result_bind rbind].
  apply find_base_inv in Hfb as (Hk & Hle & Hcase); [|lia|by left|done].
  set (k0 := if n =? n_coins then k else (k - 1)%nat).
  assert (Hk0 : (2 <= k0)%nat /\ n_sat k0 = n /\ n <= n_coins).
  { unfold k0. destruct Hcase as [[-> E]|(Hk3 & -> & Hlt & Hlt')].
    - rewrite Z.eqb_refl. lia.
    - destruct (Z.eqb_spec (n_sat (k - 1)) n_coins); lia. }
  destruct Hk0 as (Hk0 & Hn0 & Hnle).
  destruct (getbase_eq_table k0 (replicate (Z.to_nat n_coins) 0) Hk0) as (Hget & Hlen & _).
  { rewrite length_replicate. lia. }
  rewrite Hget. cbn [mbind result_bind rbind].
  rewrite Hn0, drop_replicate.
  pose proof (add_coins_tables (base_table k0)
                (replicate (Z.to_nat n_coins - Z.to_nat n) 0) k
                (Z.to_nat (n_coins - n))) as Hadd.
  rewrite Hlen, Hn0 in Hadd.
  rewrite Hadd by (rewrite length_replicate; lia).
  destruct (add_tables (base_table k0) k _) as [T|]; [|done].
  cbn [mbind result_bind rbind].
  rewrite drop_replicate. replace (_ - _ - _)%nat with 0%nat by lia.
  by rewrite app_nil_r.
Qed.

(** ** The digits of [mcomplement] *)

Lemma digit_cons (d t : Z) (i : nat) :
  0 <= d < 3 -> 0 <= t ->
  digit (d + 3 * t) 0 = d /\ digit (d + 3 * t) (S i) = digit t i.
Proof.
  intros Hd Ht. split.
  - rewrite digit_div by lia. rewrite Z.div_1_r. zlia.
  - rewrite digit_S_nonneg by lia. f_equal. zlia.
Qed.

Lemma swap_digit_range (d : Z) : 0 <= swap_digit d < 3.
Proof.
  unfold swap_digit. destruct (Z.eqb_spec d 1); [lia|].
  destruct (Z.eqb_spec d 2); lia.
Qed.

(** Where [m] has digit 0 the new code keeps the digit of [hc]; where [m]
    has another digit, [hc] has digit 0 and the new code gets the
    complement of the digit of [m]. *)
Lemma mcomplement_digits_digit (k : nat) (m hc t : Z) :
  0 <= m -> 0 <= hc ->
  mcomplement_digits m hc k = Some t ->
  0 <= t < 3 ^ Z.of_nat k /\
  forall i, (i < k)%nat ->
    (digit m i = 0 -> digit t i = digit hc i) /\
    (digit m i <> 0 -> digit hc i = 0 /\ digit t i = swap_digit (digit m i)).
Proof.
  revert m hc t. induction k as [|k IH]; intros m hc t Hm Hh Ht.
  - simpl in Ht. injection Ht as <-. split; [simpl; lia|]. intros i Hi. lia.
  - cbn [mcomplement_digits] in Ht.
    rewrite Nat2Z.inj_succ, Z.pow_succ_r by lia.
    destruct (mcomplement_digits (m / 3) (hc / 3) k) as [t'|] eqn:Ht';
      [|by repeat case_match].
    destruct (IH (m / 3) (hc / 3) t' ltac:(zlia) ltac:(zlia) Ht') as (Hr & Hdig).
    assert (Hm0 : digit m 0 = m mod 3) by (rewrite digit_div, Z.div_1_r by lia; done).
    assert (Hh0 : digit hc 0 = hc mod 3) by (rewrite digit_div, Z.div_1_r by lia; done).
    pose proof (swap_digit_range (m mod 3)) as Hsw.
    destruct (Z.eqb_spec (m mod 3) 0) as [E|E].
    + simpl in Ht. injection Ht as <-.
      split; [zlia|]. intros [|i] Hi.
      * destruct (digit_cons (hc mod 3) t' 0 ltac:(zlia) ltac:(lia)) as [-> _].
        rewrite Hm0, Hh0. split; [done|]. intros ?. done.
      * destruct (digit_cons (hc mod 3) t' i ltac:(zlia) ltac:(lia)) as [_ ->].
        rewrite !digit_S_nonneg by done. apply Hdig. lia.
    + destruct (Z.eqb_spec (hc mod 3) 0) as [E'|E']; simpl in Ht; [|done].
      injection Ht as <-.
      split; [zlia|]. intros [|i] Hi.
      * destruct (digit_cons (swap_digit (m mod 3)) t' 0 ltac:(lia) ltac:(lia)) as [-> _].
        rewrite Hm0, Hh0. split; [done|]. intros _. done.
      * destruct (digit_cons (swap_digit (m mod 3)) t' i ltac:(lia) ltac:(lia)) as [_ ->].
        rewrite !digit_S_nonneg by done. apply Hdig. lia.
Qed.

Lemma mcomplement_Some (m hc : Z) (k : nat) :
  0 <= m -> 0 <= hc -> mcomplement m hc k <> 0 ->
  mcomplement_digits m hc k = Some (mcomplement m hc k).
Proof.
  intros Hm Hh Hne. rewrite mcomplement_spec in * by done.
  by destruct (mcomplement_digits m hc k).
Qed.

(** ** Counting the digits of a table *)

Global Instance digit_count_Permutation :
  Proper ((≡ₚ) ==> (=) ==> (=) ==> (=)) digit_count.
Proof. intros T T' HT i ? <- d ? <-. unfold digit_count. by rewrite HT. Qed.

Lemma digit_count_app (T1 T2 : list Z) (i : nat) (d : Z) :
  digit_count (T1 ++ T2) i d = (digit_count T1 i d + digit_count T2 i d)%nat.
Proof. unfold digit_count. by rewrite filter_app, length_app. Qed.

Lemma digit_count_cons (x : Z) (T : list Z) (i : nat) (d : Z) :
  digit_count (x :: T) i d
  = ((if decide (digit x i = d) then 1 else 0) + digit_count T i d)%nat.
Proof. unfold digit_count. rewrite filter_cons. by destruct (decide (digit x i = d)). Qed.

Lemma digit_count_nil (i : nat) (d : Z) : digit_count [] i d = 0%nat.
Proof. done. Qed.

Lemma digit_count_fmap_same (f : Z -> Z) (T : list Z) (i : nat) (d : Z) :
  (forall x, x ∈ T -> digit (f x) i = digit x i) ->
  digit_count (f <$> T) i d = digit_count T i d.
Proof.
  induction T as [|x T IH]; intros Hf; [done|].
  rewrite fmap_cons, !digit_count_cons, Hf, IH by set_solver. done.
Qed.

Lemma digit_count_fmap_const (f : Z -> Z) (T : list Z) (i : nat) (d e : Z) :
  (forall x, x ∈ T -> digit (f x) i = e) ->
  digit_count (f <$> T) i d = if decide (e = d) then length T else 0%nat.
Proof.
  induction T as [|x T IH]; intros Hf; [by destruct (decide (e = d))|].
  rewrite fmap_cons, !digit_count_cons, Hf, IH by set_solver.
  destruct (decide (e = d)); simpl; lia.
Qed.

Lemma digit_count_insert (T : list Z) (j : nat) (h t : Z) (i : nat) (d : Z) :
  T !! j = Some h ->
  (digit_count (<[j := t]> T) i d + (if decide (digit h i = d) then 1 else 0))%nat
  = (digit_count T i d + (if decide (digit t i = d) then 1 else 0))%nat.
Proof.
  intros Hj. pose proof (lookup_lt_Some _ _ _ Hj) as Hlt.
  rewrite insert_take_drop by done.
  rewrite <- (take_drop_middle T j h Hj) at 3.
  rewrite !digit_count_app, !digit_count_cons. lia.
Qed.

(** The counting loop of [print_static]. *)
Lemma count_digit_spec (hcode : list Z) (i : nat) (d : Z) (n j : nat) :
  (j + n <= length hcode)%nat ->
  count_digit hcode i d (Z.of_nat j) n
  = Ret (Z.of_nat (digit_count (take n (drop j hcode)) i d)).
Proof.
  revert j. induction n as [|n IH]; intros j Hj; [done|].
  cbn [count_digit].
  assert (Hlk : exists h, hcode !! j = Some h) by (apply lookup_lt_is_Some; lia).
  destruct Hlk as [h Hh].
  rewrite (rd_lookup _ _ _ Hh). cbn [mbind result_bind rbind].
  replace (Z.of_nat j + 1) with (Z.of_nat (S j)) by lia.
  rewrite IH by lia. cbn [mbind result_bind rbind].
  rewrite (drop_S _ _ _ Hh). cbn [take]. rewrite digit_count_cons.
  f_equal. destruct (Z.eqb_spec (digit h i) d), (decide (digit h i = d)); lia.
Qed.

(** [print_static] passes its test if and only if every weighing has the
    same number of coins, not 0, on the two pans; else it exits with
    status 1. *)
Lemma print_static_rounds_spec (i nc : nat) (hcode : list Z) :
  (nc <= length hcode)%nat ->
  (print_static_rounds i (Z.of_nat nc) hcode = Ret tt /\
   forall i', (i' < i)%nat -> round_ok (take nc hcode) i') \/
  (print_static_rounds i (Z.of_nat nc) hcode = Exit 1 /\
   exists i', (i' < i)%nat /\ ~ round_ok (take nc hcode) i').
Proof.
  intros Hnc. induction i as [|i IH].
  - left. split; [done|]. intros i' Hi'. lia.
  - cbn [print_static_rounds]. rewrite Nat2Z.id.
    pose proof (count_digit_spec hcode i 1 nc 0 ltac:(lia)) as H1.
    pose proof (count_digit_spec hcode i 2 nc 0 ltac:(lia)) as H2.
    change (Z.of_nat 0) with 0 in H1, H2. rewrite drop_0 in H1, H2.
    rewrite H1. cbn [mbind result_bind rbind]. rewrite H2. cbn [mbind result_bind rbind].
    set (c1 := digit_count (take nc hcode) i 1) in *.
    set (c2 := digit_count (take nc hcode) i 2) in *.
    destruct (Z.eqb_spec (Z.of_nat c1) 0) as [E1|E1]; cbn [orb].
    { right. split; [done|]. exists i. split; [lia|]. intros [_ ?]. fold c1 in H. lia. }
    destruct (Z.eqb_spec (Z.of_nat c1) (Z.of_nat c2)) as [E2|E2]; cbn [negb].
    + destruct IH as [[-> IH]|[-> (i' & Hi' & Hno)]].
      * left. split; [done|]. intros i' Hi'.
        destruct (decide (i' = i)) as [->|]; [|apply IH; lia].
        split; fold c1 c2; lia.
      * right. split; [done|]. exists i'. split; [lia|done].
    + right. split; [done|]. exists i. split; [lia|]. intros [? _]. fold c1 c2 in H. lia.
Qed.

(** ** The pans of the static strategy *)

(** In the table of [getbase] every weighing has as many coins with digit 1
    as with digit 2, and at least one. *)
Lemma base_table_round_ok (k i : nat) :
  (2 <= k)%nat -> (i < k)%nat -> round_ok (base_table k) i.
Proof.
  revert i. induction k as [|k IH]; [lia|]. intros i Hk Hi.
  destruct (decide (k = 1%nat)) as [->|Hk1].
  { destruct i as [|[|i]]; [by vm_compute|by vm_compute|lia]. }
  pose proof (pow3_pos k) as Hc.
  destruct (getbase_eq_table k (replicate (Z.to_nat (n_sat k)) 0) ltac:(lia))
    as (_ & Hlen & Hok).
  { rewrite length_replicate. pose proof (n_sat_mono k ltac:(lia)). lia. }
  destruct (exists_least_free k (base_table k) Hok) as (m & Hm & Hfree & Hleast).
  { pose proof (n_sat_eq k). lia. }
  assert (Hm' : least_unused (base_table k ++ (op <$> base_table k)) 1
                  (Z.to_nat (3 ^ Z.of_nat k - 1)) = m).
  { apply least_unused_spec; [lia| |].
    - by apply free_in_spec in Hfree as [? ?]; rewrite elem_of_app; tauto.
    - intros m' Hm'. apply not_free_in_used. apply Hleast. lia. }
  assert (Heq : base_table (S k) ≡ₚ
                base_table k ++ ((fun x => x + 3 ^ Z.of_nat k) <$> base_table k)
                   ++ ((fun x => x + 2 * 3 ^ Z.of_nat k) <$> base_table k)
                   ++ [2 * 3 ^ Z.of_nat k; m; 3 ^ Z.of_nat k + op m]).
  { cbn [base_table].
    destruct (Nat.leb_spec (S k) 1); [lia|].
    destruct (Nat.eqb_spec (S k) 2); [lia|].
    cbv zeta. rewrite Hm'. apply merge_sort_Permutation. }
  set (T0 := base_table k) in *. set (c := 3 ^ Z.of_nat k) in *.
  destruct Hok as [Hr _]. rewrite Forall_forall in Hr.
  pose proof (op_bounds k m ltac:(lia)) as Hopm.
  assert (Hcount : forall d, d = 1 \/ d = 2 ->
    digit_count (base_table (S k)) i d =
    if decide (i = k)
    then (length T0 + 1)%nat
    else (3 * digit_count T0 i d
          + (if decide (digit m i = d) then 1 else 0)
          + (if decide (swap_digit (digit m i) = d) then 1 else 0))%nat).
  { intros d Hd. rewrite Heq, !digit_count_app, !digit_count_cons, digit_count_nil.
    destruct (decide (i = k)) as [->|Hik].
    - rewrite (digit_count_fmap_const _ T0 k d 1), (digit_count_fmap_const _ T0 k d 2).
      2: { intros x Hx. replace (x + 2 * c) with (x + 2 * 3 ^ Z.of_nat k) by done.
           apply digit_top; [apply Hr in Hx; lia|lia]. }
      2: { intros x Hx. replace (x + c) with (x + 1 * 3 ^ Z.of_nat k) by (unfold c; lia).
           apply digit_top; [apply Hr in Hx; lia|lia]. }
      assert (digit_count T0 k d = 0%nat) as ->.
      { rewrite <- (list_fmap_id T0) at 1.
        rewrite (digit_count_fmap_const _ T0 k d 0).
        - destruct Hd; subst d; by rewrite decide_False by lia.
        - intros x Hx. change (id x) with x.
          apply (digit_small k); [apply Hr in Hx; simpl in Hx; lia|lia]. }
      assert (digit (2 * c) k = 2) as ->.
      { replace (2 * c) with (0 + 2 * 3 ^ Z.of_nat k) by (unfold c; lia).
        apply digit_top; lia. }
      assert (digit m k = 0) as -> by (apply (digit_small k); lia).
      assert (digit (c + op m) k = 1) as ->.
      { replace (c + op m) with (op m + 1 * 3 ^ Z.of_nat k) by (unfold c; lia).
        apply digit_top; lia. }
      destruct Hd; subst d; simpl; lia.
    - assert (Hik' : (i < k)%nat) by lia.
      rewrite (digit_count_fmap_same (fun x => x + c)), (digit_count_fmap_same (fun x => x + 2 * c)).
      2: { intros x Hx. replace (x + 2 * c) with (x + 2 * 3 ^ Z.of_nat k) by done.
           apply digit_low; [apply Hr in Hx; lia|lia|done]. }
      2: { intros x Hx. replace (x + c) with (x + 1 * 3 ^ Z.of_nat k) by (unfold c; lia).
           apply digit_low; [apply Hr in Hx; lia|lia|done]. }
      assert (digit (2 * c) i = 0) as ->.
      { replace (2 * c) with (0 + 2 * 3 ^ Z.of_nat k) by (unfold c; lia).
        rewrite digit_low by (lia || done). by rewrite digit_div, Z.div_0_l by (pose proof (pow3_pos i); lia). }
      assert (digit (c + op m) i = swap_digit (digit m i)) as ->.
      { replace (c + op m) with (op m + 1 * 3 ^ Z.of_nat k) by (unfold c; lia).
        rewrite digit_low by (lia || done). apply digit_op. lia. }
      destruct Hd; subst d; rewrite (decide_False (P := 0 = _)) by lia; simpl; lia. }
  unfold round_ok. rewrite (Hcount 1), (Hcount 2) by auto.
  destruct (decide (i = k)) as [->|Hik]; [lia|].
  destruct (IH i ltac:(lia) ltac:(lia)) as [Hbal Hpos]. fold T0 in Hbal, Hpos.
  pose proof (digit_range m i ltac:(lia)) as Hdm.
  unfold swap_digit.
  destruct (Z.eqb_spec (digit m i) 1) as [->|]; [simpl; lia|].
  destruct (Z.eqb_spec (digit m i) 2) as [->|]; [simpl; lia|].
  rewrite !(decide_False (P := digit m i = _)) by lia. simpl. lia.
Qed.

Lemma add_find_cell_inv (U : list Z) (k : nat) (m : Z) (T : list Z) (j0 j : nat) (t : Z) :
  add_find_cell U k m T j0 = Some (j, t) ->
  exists h, (j0 <= j)%nat /\ T !! (j - j0)%nat = Some h /\
            t = mcomplement m h k /\ t <> 0 /\ usedb U t = false.
Proof.
  revert j0. induction T as [|h T IH]; intros j0; [done|].
  cbn [add_find_cell].
  destruct (Z.eqb_spec (mcomplement m h k) 0) as [E|E]; cbn [negb andb].
  - intros H. destruct (IH _ H) as (h' & Hj & Hh & ?).
    exists h'. split; [lia|]. split; [|done].
    replace (j - j0)%nat with (S (j - S j0)) by lia. done.
  - destruct (usedb U (mcomplement m h k)) eqn:Hu; cbn [negb].
    + intros H. destruct (IH _ H) as (h' & Hj & Hh & ?).
      exists h'. split; [lia|]. split; [|done].
      replace (j - j0)%nat with (S (j - S j0)) by lia. done.
    + intros [= <- <-]. exists h. rewrite Nat.sub_diag. done.
Qed.

Lemma add_find_code_inv (U T : list Z) (k : nat) (m0 : Z) (n : nat) (m : Z) (j : nat) (t : Z) :
  add_find_code U T k m0 n = Some (m, j, t) ->
  m0 <= m < m0 + Z.of_nat n /\ usedb U m = false /\
  add_find_cell U k m T 0 = Some (j, t).
Proof.
  revert m0. induction n as [|n IH]; intros m0; [done|].
  cbn [add_find_code]. destruct (usedb U m0) eqn:Hu.
  - intros H. destruct (IH _ H) as (? & ? & ?). split; [lia|done].
  - destruct (add_find_cell U k m0 T 0) as [[j' t']|] eqn:Hc.
    + intros [= <- <- <-]. split; [lia|done].
    + intros H. destruct (IH _ H) as (? & ? & ?). split; [lia|done].
Qed.

Lemma usedb_free_in (T : list Z) (t : Z) :
  usedb (T ++ (op <$> T)) t = false <-> free_in T t.
Proof.
  rewrite <- (bool_decide_eq_true (free_in T t)), free_in_usedb.
  by destruct (usedb _ t).
Qed.

(** A successful [add] on the table [T]: the new code [m] and the cell [j]
    whose code [h] becomes [mcomplement m h k]. *)
Lemma add_table_inv (T T' : list Z) (k : nat) :
  add_table T k = Some T' ->
  exists (m : Z) (j : nat) (h : Z),
    1 <= m <= 3 ^ Z.of_nat k - 1 /\ free_in T m /\
    T !! j = Some h /\
    mcomplement m h k <> 0 /\ free_in T (mcomplement m h k) /\
    T' = merge_sort Z.le (<[j := mcomplement m h k]> T ++ [m]).
Proof.
  unfold add_table.
  destruct (add_find_code _ T k 1 _) as [[[m j] t]|] eqn:H; [|done].
  intros [= <-].
  apply add_find_code_inv in H as (Hm & Hum & Hc).
  apply add_find_cell_inv in Hc as (h & _ & Hh & -> & Hne & Hut).
  rewrite Nat.sub_0_r in Hh.
  exists m, j, h. rewrite <- !usedb_free_in.
  repeat split; try done; lia.
Qed.

(** One [add] keeps the invariant of the table, and puts one more coin on
    each pan of the weighings where the new code [m] has a digit other
    than 0. *)
Lemma add_table_rounds (T T' : list Z) (k : nat) :
  codes_ok k T -> add_table T k = Some T' ->
  codes_ok k T' /\
  exists m, 1 <= m <= 3 ^ Z.of_nat k - 1 /\ free_in T m /\
    (exists (j : nat) (h : Z), T !! j = Some h /\ mcomplement m h k <> 0 /\
                               free_in T (mcomplement m h k)) /\
    forall (i : nat) (d : Z), (i < k)%nat -> d = 1 \/ d = 2 ->
      digit_count T' i d
      = (digit_count T i d + (if decide (digit m i = 0%Z) then 0 else 1))%nat.
Proof.
  intros Hok H. apply add_table_inv in H as (m & j & h & Hm & Hfm & Hh & Hne & Hft & ->).
  split.
  { rewrite merge_sort_Permutation. by apply codes_ok_add. }
  exists m. split; [done|]. split; [done|]. split; [by exists j, h|].
  intros i d Hi Hd.
  destruct Hok as [Hr _]. rewrite Forall_forall in Hr.
  assert (Hh0 : 0 <= h) by (apply list_elem_of_lookup_2, Hr in Hh; lia).
  pose proof (mcomplement_Some m h k ltac:(lia) Hh0 Hne) as Hd'.
  apply mcomplement_digits_digit in Hd' as [_ Hdig]; [|lia|done].
  destruct (Hdig i Hi) as [H0 H1].
  rewrite merge_sort_Permutation, digit_count_app, digit_count_cons, digit_count_nil.
  pose proof (digit_count_insert T j h (mcomplement m h k) i d Hh) as Hins.
  pose proof (digit_range m i ltac:(lia)) as Hdm.
  destruct (decide (digit m i = 0)) as [E|E].
  - rewrite (H0 E) in Hins. rewrite E.
    rewrite (decide_False (P := 0 = d)) by lia. lia.
  - destruct (H1 E) as [Eh Et]. rewrite Eh, Et in Hins.
    rewrite (decide_False (P := 0 = d)) in Hins by lia.
    unfold swap_digit in Hins.
    destruct (Z.eqb_spec (digit m i) 1) as [E1|E1].
    + rewrite E1. destruct Hd; subst d; simpl in *; lia.
    + destruct (Z.eqb_spec (digit m i) 2) as [E2|E2]; [|lia].
      rewrite E2. destruct Hd; subst d; simpl in *; lia.
Qed.

Lemma free_in_op (T : list Z) (m : Z) :
  Forall (fun x => 0 <= x) T -> 0 <= m -> free_in T m -> free_in T (op m).
Proof.
  intros HT Hm. rewrite !free_in_spec. intros [H1 H2]. split.
  - intros Hin. apply H2. apply list_elem_of_fmap. exists (op m).
    split; [by rewrite op_involutive|done].
  - intros (x & Hx & Hin)%list_elem_of_fmap. apply H1.
    rewrite Forall_forall in HT.
    rewrite (op_inj m x Hm (HT x Hin) Hx). done.
Qed.

(** In a saturated table the only free numbers below [3 ^ k0] are a number
    and its complement: no code below [3 ^ k0] can be added. *)
Lemma saturated_no_add (k0 k : nat) (T : list Z) (m h : Z) (j : nat) :
  codes_ok k0 T -> Z.of_nat (length T) = n_sat k0 -> (k0 <= k)%nat ->
  T !! j = Some h -> 1 <= m < 3 ^ Z.of_nat k0 -> free_in T m ->
  mcomplement m h k <> 0 -> free_in T (mcomplement m h k) -> False.
Proof.
  intros [Hr HND] Hlen Hk Hh Hm Hfm Hne Hft.
  pose proof Hr as Hr'. rewrite Forall_forall in Hr'.
  assert (Hhr : 1 <= h < 3 ^ Z.of_nat k0) by (by apply list_elem_of_lookup_2, Hr' in Hh).
  pose proof (pow3_pos k0) as Hc0.
  pose proof (Z.pow_le_mono_r 3 (Z.of_nat k0) (Z.of_nat k) ltac:(lia) ltac:(lia)) as Hpow.
  set (t := mcomplement m h k) in *.
  pose proof (mcomplement_Some m h k ltac:(lia) ltac:(lia) Hne) as Hd. fold t in Hd.
  destruct (mcomplement_digits_props k m h t ltac:(lia) ltac:(lia) Hd) as (Htr & Htm & Htop).
  destruct (mcomplement_digits_digit k m h t ltac:(lia) ltac:(lia) Hd) as (_ & Hdig).
  (* the new code has no digit beyond the first [k0] *)
  assert (Ht0 : t < 3 ^ Z.of_nat k0).
  { pose proof (Z.mod_pos_bound t (3 ^ Z.of_nat k0) Hc0) as Hmb.
    pose proof (Z.div_pos t (3 ^ Z.of_nat k0) ltac:(lia) Hc0) as Hdp.
    assert (Heq : t = t mod 3 ^ Z.of_nat k0); [|lia].
    apply (digits_inj k); [lia|lia|].
    intros i Hi. destruct (decide (i < k0)%nat) as [Hlt|Hge].
    - rewrite (Z.div_mod t (3 ^ Z.of_nat k0)) at 1 by lia.
      replace (3 ^ Z.of_nat k0 * (t / 3 ^ Z.of_nat k0) + t mod 3 ^ Z.of_nat k0)
        with (t mod 3 ^ Z.of_nat k0 + (t / 3 ^ Z.of_nat k0) * 3 ^ Z.of_nat k0) by lia.
      apply digit_low; [lia|lia|done].
    - rewrite (digit_small k0 i (t mod _)) by lia.
      destruct (Hdig i Hi) as [H0 _].
      rewrite H0 by (apply (digit_small k0); lia).
      apply (digit_small k0); lia. }
  assert (Hopm : free_in T (op m)).
  { apply free_in_op; [|lia|done]. eapply Forall_impl; [exact Hr|]. simpl. lia. }
  pose proof (op_bounds k0 m ltac:(lia)) as Hob.
  pose proof (op_pos m ltac:(lia)) as Hop0.
  pose proof (op_neq m ltac:(lia)) as Hopne.
  assert (Htop' : t <> op m).
  { intros E. specialize (Htop E). rewrite Z.mod_small in Htop by lia. lia. }
  apply free_in_spec in Hfm as [Hm1 Hm2].
  apply free_in_spec in Hft as [Ht1 Ht2].
  apply free_in_spec in Hopm as [Ho1 Ho2].
  assert (HND' : NoDup (m :: op m :: t :: T ++ (op <$> T))).
  { repeat (apply NoDup_cons; split); [| |set_solver|done].
    - rewrite !elem_of_cons, elem_of_app.
      intros [?|[?|[?|?]]]; [congruence|apply Htm; [lia|congruence]|done|done].
    - rewrite !elem_of_cons, elem_of_app.
      intros [?|[?|?]]; [congruence|done|done]. }
  assert (Hsub : m :: op m :: t :: T ++ (op <$> T) ⊆+ seqZ 1 (3 ^ Z.of_nat k0 - 1)).
  { apply NoDup_submseteq; [done|]. intros x. rewrite elem_of_seqZ.
    rewrite !elem_of_cons, elem_of_app.
    intros [->|[->|[->|[Hx|(y & -> & Hy)%list_elem_of_fmap]]]]; try lia.
    - apply Hr' in Hx. lia.
    - apply Hr' in Hy. pose proof (op_bounds k0 y ltac:(lia)).
      pose proof (op_pos y ltac:(lia)). lia. }
  apply submseteq_length in Hsub.
  rewrite length_seqZ in Hsub. cbn [length] in Hsub.
  rewrite length_app, length_fmap in Hsub.
  pose proof (n_sat_eq k0). lia.
Qed.

Lemma add_tables_rounds (k todo : nat) (T T' : list Z) :
  codes_ok k T ->
  add_tables T k todo = Some T' ->
  codes_ok k T' /\ length T' = (length T + todo)%nat /\
  forall i, (i < k)%nat ->
    (digit_count T i 1 = digit_count T i 2 -> digit_count T' i 1 = digit_count T' i 2) /\
    (digit_count T i 1 <= digit_count T' i 1)%nat.
Proof.
  revert T. induction todo as [|todo IH]; intros T Hok H.
  - injection H as <-. split; [done|]. split; [lia|]. intros i Hi. split; [done|lia].
  - cbn [add_tables] in H. destruct (add_table T k) as [T1|] eqn:H1; [|done].
    pose proof (length_add_table _ _ _ H1) as Hl1.
    destruct (add_table_rounds T T1 k Hok H1) as (Hok1 & m & _ & _ & _ & Hcount).
    destruct (IH T1 Hok1 H) as (Hok' & Hl' & Hr').
    split; [done|]. split; [lia|]. intros i Hi.
    destruct (Hr' i Hi) as [Hbal Hle].
    rewrite (Hcount i 1 Hi ltac:(auto)), (Hcount i 2 Hi ltac:(auto)) in Hbal.
    rewrite (Hcount i 1 Hi ltac:(auto)) in Hle.
    split; [intros E; apply Hbal; lia|lia].
Qed.

(** The first [add] on a saturated table uses the new, leading digit. *)
Lemma add_table_saturated_top (k0 : nat) (T T' : list Z) :
  codes_ok k0 T -> Z.of_nat (length T) = n_sat k0 ->
  add_table T (S k0) = Some T' ->
  (0 < digit_count T' k0 1)%nat.
Proof.
  intros Hok Hlen H.
  pose proof (codes_ok_mono k0 (S k0) T ltac:(lia) Hok) as HokS.
  destruct (add_table_rounds T T' (S k0) HokS H)
    as (_ & m & Hm & Hfm & (j & h & Hh & Hne & Hft) & Hcount).
  rewrite (Hcount k0 1 ltac:(lia) ltac:(auto)).
  destruct (decide (digit m k0 = 0)) as [E|E]; [exfalso|lia].
  pose proof (pow3_pos k0) as Hc.
  rewrite Nat2Z.inj_succ, Z.pow_succ_r in Hm by lia.
  rewrite digit_div in E by lia.
  assert (Hq : 0 <= m / 3 ^ Z.of_nat k0 < 3).
  { split; [apply Z.div_pos; lia|]. apply Z.div_lt_upper_bound; lia. }
  rewrite Z.mod_small in E by done.
  assert (m < 3 ^ Z.of_nat k0).
  { pose proof (Z.div_mod m (3 ^ Z.of_nat k0) ltac:(lia)) as Hdm.
    pose proof (Z.mod_pos_bound m (3 ^ Z.of_nat k0) Hc). rewrite E in Hdm. lia. }
  apply (saturated_no_add k0 (S k0) T m h j); try done; lia.
Qed.

(** On a saturated table [add] with the same number of weighings fails. *)
Lemma add_table_saturated (k : nat) (T : list Z) :
  codes_ok k T -> Z.of_nat (length T) = n_sat k -> add_table T k = None.
Proof.
  intros Hok Hlen. destruct (add_table T k) as [T'|] eqn:H; [exfalso|done].
  apply add_table_inv in H as (m & j & h & Hm & Hfm & Hh & Hne & Hft & _).
  apply (saturated_no_add k k T m h j); try done; lia.
Qed.

(** The tables of [weigh_static]: from the saturated table of [k] weighings
    without [add], or from the one of [k - 1] weighings with one [add] at
    least. *)
Lemma static_chain_rounds (k k0 todo : nat) (T : list Z) :
  (2 <= k0)%nat ->
  (k0 = k /\ todo = 0%nat \/ S k0 = k /\ (0 < todo)%nat) ->
  add_tables (base_table k0) k todo = Some T ->
  Z.of_nat (length T) = n_sat k0 + Z.of_nat todo /\
  codes_ok k T /\
  forall i, (i < k)%nat -> round_ok T i.
Proof.
  intros Hk0 Hcase H.
  destruct (getbase_eq_table k0 (replicate (Z.to_nat (n_sat k0)) 0) ltac:(lia))
    as (_ & Hlen & Hok).
  { rewrite length_replicate. pose proof (n_sat_mono k0 ltac:(lia)). lia. }
  destruct Hcase as [[<- ->]|[<- Htodo]].
  - injection H as <-. split; [lia|]. split; [done|].
    intros i Hi. by apply base_table_round_ok.
  - destruct todo as [|todo]; [lia|]. cbn [add_tables] in H.
    destruct (add_table (base_table k0) (S k0)) as [T1|] eqn:H1; [|done].
    pose proof (codes_ok_mono k0 (S k0) _ ltac:(lia) Hok) as HokS.
    pose proof (length_add_table _ _ _ H1) as Hl1.
    pose proof (add_table_saturated_top k0 _ _ Hok Hlen H1) as Htop.
    destruct (add_table_rounds _ _ _ HokS H1) as (Hok1 & m & _ & _ & _ & Hcount).
    destruct (add_tables_rounds _ _ _ _ Hok1 H) as (Hok' & Hl' & Hr').
    split; [lia|]. split; [done|]. intros i Hi.
    destruct (Hr' i Hi) as [Hbal Hle].
    assert (Hbase : digit_count (base_table k0) i 1 = digit_count (base_table k0) i 2 /\
                    (i < k0 -> 0 < digit_count (base_table k0) i 1)%nat).
    { destruct (decide (i < k0)%nat) as [Hlt|Hge].
      - destruct (base_table_round_ok k0 i Hk0 Hlt) as [? ?]. split; [done|]. intros _. done.
      - split; [|lia]. assert (i = k0) as -> by lia.
        destruct Hok as [Hr _]. rewrite Forall_forall in Hr.
        rewrite <- (list_fmap_id (base_table k0)).
        rewrite !(digit_count_fmap_const _ (base_table k0) k0 _ 0).
        + by rewrite !decide_False by lia.
        + intros x Hx. change (id x) with x. apply (digit_small k0); [apply Hr in Hx; lia|lia].
        + intros x Hx. change (id x) with x. apply (digit_small k0); [apply Hr in Hx; lia|lia]. }
    destruct Hbase as [Hb1 Hb2].
    rewrite (Hcount i 1 Hi ltac:(auto)), (Hcount i 2 Hi ltac:(auto)) in Hbal.
    split; [apply Hbal; lia|].
    destruct (decide (i < k0)%nat) as [Hlt|Hge].
    + specialize (Hb2 Hlt). rewrite (Hcount i 1 Hi ltac:(auto)) in Hle. lia.
    + assert (i = k0) as -> by lia. lia.
Qed.

Lemma find_base_total (n_coins : Z) (fuel k : nat) (n : Z) :
  (2 <= k)%nat -> (0 < fuel)%nat -> n_coins - n_sat k < Z.of_nat fuel ->
  exists r, find_base fuel k n n_coins = Ret r.
Proof.
  revert k n. induction fuel as [|fuel IH]; intros k n Hk Hpos Hf; [lia|].
  cbn [find_base]. rewrite n_sat_quot'.
  destruct (Z.geb_spec (n_sat k) n_coins); [by eexists|].
  pose proof (n_sat_mono k Hk). apply IH; lia.
Qed.

(** ** The result of [weigh_static] *)

Lemma n_sat_le (j k : nat) : (j <= k)%nat -> n_sat j <= n_sat k.
Proof.
  intros Hjk. pose proof (n_sat_eq j). pose proof (n_sat_eq k).
  pose proof (Z.pow_le_mono_r 3 (Z.of_nat j) (Z.of_nat k) ltac:(lia) ltac:(lia)). lia.
Qed.

Lemma find_base_within (n_coins : Z) (fuel k : nat) (n : Z) :
  (2 <= k)%nat -> (0 < fuel)%nat -> n_coins <= n_sat (k + fuel - 1) ->
  exists r, find_base fuel k n n_coins = Ret r.
Proof.
  revert k n. induction fuel as [|fuel IH]; intros k n Hk Hpos Hf; [lia|].
  cbn [find_base]. rewrite n_sat_quot'.
  destruct (Z.geb_spec (n_sat k) n_coins) as [|Hlt]; [by eexists|].
  destruct fuel as [|fuel].
  { replace (k + 1 - 1)%nat with k in Hf by lia. lia. }
  apply IH; [lia|lia|]. by replace (S k + S fuel - 1)%nat with (k + S (S fuel) - 1)%nat by lia.
Qed.

(** [weigh_static] after the search of the number [k] of weighings: the
    chain of [add] on the saturated table decides between the return of [k]
    and the exit with status 0; the test of [print_static] always passes. *)
Lemma weigh_static_cases (fuel : nat) (n_coins : Z) (k : nat) (n : Z) :
  3 <= n_coins ->
  find_base fuel 2 0 n_coins = Ret (k, n) ->
  let k0 := if n =? n_coins then k else (k - 1)%nat in
  (2 <= k0)%nat /\ n_sat k0 = n /\ n <= n_coins <= n_sat k /\
  (k0 = k /\ n = n_coins \/ S k0 = k /\ n < n_coins < n_sat k) /\
  2 * n_coins + 3 <= 3 ^ Z.of_nat k /\ 3 ^ (Z.of_nat k - 1) < 2 * n_coins + 3 /\
  weigh_static fuel n_coins
  = match add_tables (base_table k0) k (Z.to_nat (n_coins - n)) with
    | Some T => Ret (Z.of_nat k)
    | None => Exit 0
    end.
Proof.
  intros Hn Hfb k0.
  pose proof (weigh_static_table_eq fuel n_coins k n Hn Hfb) as Htab. fold k0 in Htab.
  apply find_base_inv in Hfb as (Hk & Hle & Hcase); [|lia|by left|done].
  assert (Hk0 : (2 <= k0)%nat /\ n_sat k0 = n /\ n <= n_coins /\
                (k0 = k /\ n = n_coins \/ S k0 = k /\ n < n_coins < n_sat k)).
  { unfold k0. destruct Hcase as [[-> E]|(Hk3 & -> & Hlt & Hlt')].
    - rewrite Z.eqb_refl. repeat split; lia.
    - destruct (Z.eqb_spec (n_sat (k - 1)) n_coins); [lia|].
      repeat split; lia. }
  destruct Hk0 as (Hk0 & Hn0 & Hnle & Hk0case). clearbody k0.
  repeat (split; [done || lia|]).
  pose proof (n_sat_eq k) as Hs. pose proof (n_sat_eq k0) as Hs0.
  split; [lia|]. split.
  { destruct Hk0case as [[<- _]|[<- ?]].
    - pose proof (Z.pow_lt_mono_r 3 (Z.of_nat k0 - 1) (Z.of_nat k0) ltac:(lia) ltac:(lia) ltac:(lia)).
      lia.
    - replace (Z.of_nat (S k0) - 1) with (Z.of_nat k0) by lia. lia. }
  unfold weigh_static. rewrite Htab.
  destruct (add_tables (base_table k0) k (Z.to_nat (n_coins - n))) as [T|] eqn:HT; [|done].
  cbn [mbind result_bind rbind].
  destruct (static_chain_rounds k k0 (Z.to_nat (n_coins - n)) T Hk0)
    as (Hlen & Hok & Hrounds); [|exact HT|].
  { destruct Hk0case as [[? ?]|[? ?]]; [left|right]; split; (done || lia). }
  unfold print_static.
  replace n_coins with (Z.of_nat (length T)) by lia.
  destruct (print_static_rounds_spec k (length T) T ltac:(lia))
    as [[-> _]|[_ (i & Hi & Hno)]]; [done|].
  exfalso. apply Hno. rewrite firstn_all. by apply Hrounds.
Qed.

(** X2. For [3 <= n_coins <= n_sat 19] (the coins that 19 weighings settle;
    [3^20] is no [int]) the static strategy either returns the least
    number [k] of weighings with [2 n_coins + 3 <= 3 ^ k], or ends in the
    exit with status 0 of [add] ("add failure"); it never fails the test
    of [print_static] and never leaves an array. *)
Theorem weigh_static_outcome (n_coins : Z) :
  3 <= n_coins <= n_sat 19 ->
  exists k : nat,
    2 * n_coins + 3 <= 3 ^ Z.of_nat k /\ 3 ^ (Z.of_nat k - 1) < 2 * n_coins + 3 /\
    ((forall fuel : nat, n_coins <= Z.of_nat fuel ->
        weigh_static fuel n_coins = Ret (Z.of_nat k)) \/
     (forall fuel : nat, n_coins <= Z.of_nat fuel ->
        weigh_static fuel n_coins = Exit 0)).
Proof.
  intros [Hn _].
  destruct (find_base_total n_coins (Z.to_nat n_coins) 2 0) as [[k n] Hfb]; [lia|lia| |].
  { rewrite n_sat_2. lia. }
  assert (Hfuel : forall fuel : nat, n_coins <= Z.of_nat fuel ->
                                     find_base fuel 2 0 n_coins = Ret (k, n)).
  { intros fuel Hf.
    replace fuel with (Z.to_nat n_coins + (fuel - Z.to_nat n_coins))%nat by lia.
    by apply find_base_fuel. }
  destruct (weigh_static_cases _ _ _ _ Hn Hfb) as (_ & _ & _ & _ & Hup & Hlo & _).
  exists k. split; [done|]. split; [done|].
  destruct (add_tables (base_table (if n =? n_coins then k else (k - 1)%nat)) k
              (Z.to_nat (n_coins - n))) as [T|] eqn:HT; [left|right].
  - intros fuel Hf.
    destruct (weigh_static_cases _ _ _ _ Hn (Hfuel fuel Hf)) as (_ & _ & _ & _ & _ & _ & ->).
    by rewrite HT.
  - intros fuel Hf.
    destruct (weigh_static_cases _ _ _ _ Hn (Hfuel fuel Hf)) as (_ & _ & _ & _ & _ & _ & ->).
    by rewrite HT.
Qed.

Lemma weigh_static_outcome_witness :
  exists k : nat,
    2 * 13 + 3 <= 3 ^ Z.of_nat k /\ 3 ^ (Z.of_nat k - 1) < 2 * 13 + 3 /\
    ((forall fuel : nat, 13 <= Z.of_nat fuel -> weigh_static fuel 13 = Ret (Z.of_nat k)) \/
     (forall fuel : nat, 13 <= Z.of_nat fuel -> weigh_static fuel 13 = Exit 0)).
Proof. apply (weigh_static_outcome 13). split; [lia|by_compute]. Defined.

(** ** The static strategy on 3 to 362 coins *)

Lemma add_tables_prefix (T : list Z) (k a b : nat) :
  is_Some (add_tables T k (a + b)) -> is_Some (add_tables T k a).
Proof.
  revert T. induction a as [|a IH]; intros T; [by eexists|].
  cbn [add_tables Nat.add]. destruct (add_table T k); [apply IH|done].
Qed.

(** The chains of [add] from the saturated tables of 2 to 5 weighings. *)
Lemma add_tables_chains :
  is_Some (add_tables (base_table 2) 3 8) /\
  is_Some (add_tables (base_table 3) 4 26) /\
  is_Some (add_tables (base_table 4) 5 80) /\
  is_Some (add_tables (base_table 5) 6 241).
Proof.
  assert (H : forall o : option (list Z),
            match o with Some _ => true | None => false end = true -> is_Some o).
  { intros [T|]; [by eexists|done]. }
  repeat split; apply H; vm_cast_no_check (eq_refl true).
Qed.

Lemma add_tables_362 : add_tables (base_table 5) 6 242 = None.
Proof. vm_cast_no_check (eq_refl (@None (list Z))). Qed.

(** ** Properties of the sequential search *)

(** X1. For [n >= 3] coins, with [2 n + 2 <= INT_MAX] (the size of the
    array of [new_coins] is an [int]), the sequential search returns the
    least number [d] of weighings with [2 n + 3 <= 3 ^ d], that is,
    [3 ^ (d - 1) < 2 n + 3 <= 3 ^ d]. *)
Theorem weigh_sequential_depth (n : Z) :
  3 <= n -> 2 * n + 2 <= INT_MAX ->
  exists d,
    (forall fuel : nat, (2 * Z.to_nat n + 2 <= fuel)%nat ->
       weigh_sequential fuel (new_coins n) n = Ret d) /\
    2 * n + 3 <= 3 ^ d /\ 3 ^ (d - 1) < 2 * n + 3.
Proof.
  intros Hn3 Hmax. assert (Hn : 3 <= n < INT_MAX) by lia.
  destruct (weigh_sequential_root_depth n Hn) as (d & Hrun & (_ & Hup & Hlo) & Hd).
  exists d. split; [done|]. split; [done|]. by apply Hlo.
Qed.

Lemma weigh_sequential_depth_witness :
  exists d,
    (forall fuel : nat, (2 * Z.to_nat 13 + 2 <= fuel)%nat ->
       weigh_sequential fuel (new_coins 13) 13 = Ret d) /\
    2 * 13 + 3 <= 3 ^ d /\ 3 ^ (d - 1) < 2 * 13 + 3.
Proof. apply (weigh_sequential_depth 13); unfold INT_MAX; lia. Defined.

(** X3. Whenever the static strategy returns a number of weighings for
    [3 <= n <= n_sat 19] coins (at most 19 weighings, codes that are
    [int]s), the sequential search returns the same number. *)
Theorem weigh_static_sequential_agree (n : Z) (fuel : nat) (d : Z) :
  3 <= n <= n_sat 19 ->
  weigh_static fuel n = Ret d ->
  forall fuel' : nat, (2 * Z.to_nat n + 2 <= fuel')%nat ->
    weigh_sequential fuel' (new_coins n) n = Ret d.
Proof.
  intros [Hn3 Hmax] Hs.
  assert (Hn : 3 <= n < INT_MAX).
  { assert (E : n_sat 19 = 581130732) by (by vm_compute). unfold INT_MAX. lia. }
  assert (Hfb : exists k n0, find_base fuel 2 0 n = Ret (k, n0)).
  { unfold weigh_static, weigh_static_table in Hs.
    destruct (find_base fuel 2 0 n) as [[k n0]| | |]; try done. by exists k, n0. }
  destruct Hfb as (k & n0 & Hfb).
  destruct (weigh_static_cases fuel n k n0 ltac:(lia) Hfb)
    as (Hk0 & _ & _ & _ & Hup & Hlo & Heq).
  rewrite Heq in Hs. destruct (add_tables _ k _); [|done]. injection Hs as <-.
  destruct (weigh_sequential_root_depth n Hn) as (d & Hrun & Hd & Hd0).
  assert (Hk : depth_of (2 * n + 3) (Z.of_nat k)).
  { split; [lia|]. split; [done|]. intros _. done. }
  rewrite (depth_of_fun _ _ _ Hk Hd). exact Hrun.
Qed.

Lemma weigh_static_sequential_agree_witness :
  weigh_sequential 26 (new_coins 12) 12 = Ret 3.
Proof.
  apply (weigh_static_sequential_agree 12 10 3); [split; [lia|by_compute]| |lia].
  vm_compute. reflexivity.
Defined.

(** ** Properties of the static strategy *)

(** X4. For every number of coins from 3 to 361 the static strategy
    returns the least number [k] of weighings with
    [2 n_coins + 3 <= 3 ^ k]. *)
Theorem weigh_static_upto_361 (n_coins : Z) (fuel : nat) :
  3 <= n_coins <= 361 -> (5 <= fuel)%nat ->
  exists k : nat,
    weigh_static fuel n_coins = Ret (Z.of_nat k) /\
    2 * n_coins + 3 <= 3 ^ Z.of_nat k /\ 3 ^ (Z.of_nat k - 1) < 2 * n_coins + 3.
Proof.
  intros Hn Hfuel.
  destruct (find_base_within n_coins 5 2 0) as [[k n] Hfb]; [lia|lia| |].
  { change (n_sat (2 + 5 - 1)) with 363. lia. }
  apply (find_base_fuel 5 (fuel - 5)) in Hfb.
  replace (5 + (fuel - 5))%nat with fuel in Hfb by lia.
  destruct (weigh_static_cases fuel n_coins k n ltac:(lia) Hfb)
    as (Hk0 & Hn0 & Hle & Hcase & Hup & Hlo & Heq).
  exists k. split; [|done]. rewrite Heq.
  set (k0 := if n =? n_coins then k else (k - 1)%nat) in *. clearbody k0.
  assert (Hk5 : (k0 <= 5)%nat).
  { destruct (decide (k0 <= 5)%nat) as [|Hgt]; [done|].
    pose proof (n_sat_le 6 k0 ltac:(lia)) as H6. change (n_sat 6) with 363 in H6. lia. }
  destruct add_tables_chains as (H2 & H3 & H4 & H5).
  assert (Hsome : is_Some (add_tables (base_table k0) k (Z.to_nat (n_coins - n)))).
  { destruct Hcase as [[<- ->]|[<- Hlt]].
    - rewrite Z.sub_diag. by eexists.
    - assert (k0 = 2 \/ k0 = 3 \/ k0 = 4 \/ k0 = 5)%nat as [-> | [-> | [-> | ->]]] by lia.
      + change (n_sat 2) with 3 in Hn0. change (n_sat 3) with 12 in Hlt.
        apply (add_tables_prefix _ _ _ (8 - Z.to_nat (n_coins - n))).
        replace (_ + _)%nat with 8%nat by lia. exact H2.
      + change (n_sat 3) with 12 in Hn0. change (n_sat 4) with 39 in Hlt.
        apply (add_tables_prefix _ _ _ (26 - Z.to_nat (n_coins - n))).
        replace (_ + _)%nat with 26%nat by lia. exact H3.
      + change (n_sat 4) with 39 in Hn0. change (n_sat 5) with 120 in Hlt.
        apply (add_tables_prefix _ _ _ (80 - Z.to_nat (n_coins - n))).
        replace (_ + _)%nat with 80%nat by lia. exact H4.
      + change (n_sat 5) with 120 in Hn0.
        apply (add_tables_prefix _ _ _ (241 - Z.to_nat (n_coins - n))).
        replace (_ + _)%nat with 241%nat by lia. exact H5. }
  by destruct Hsome as [T ->].
Qed.

Lemma weigh_static_upto_361_witness :
  exists k : nat,
    weigh_static 5 100 = Ret (Z.of_nat k) /\
    2 * 100 + 3 <= 3 ^ Z.of_nat k /\ 3 ^ (Z.of_nat k - 1) < 2 * 100 + 3.
Proof. apply (weigh_static_upto_361 100 5); lia. Defined.

(** X5. For 362 coins the static strategy finds no code for the last coin:
    [add] ends the program with status 0 ("add failure"), although six
    weighings settle up to 363 coins and the sequential search returns 6. *)
Theorem weigh_static_362 (fuel : nat) :
  (5 <= fuel)%nat ->
  weigh_static fuel 362 = Exit 0 /\
  weigh_sequential (726 + fuel) (new_coins 362) 362 = Ret 6.
Proof.
  intros Hfuel. split.
  - assert (Hfb : find_base 5 2 0 362 = Ret (6%nat, 120)) by (by vm_compute).
    apply (find_base_fuel 5 (fuel - 5)) in Hfb.
    replace (5 + (fuel - 5))%nat with fuel in Hfb by lia.
    destruct (weigh_static_cases fuel 362 6 120 ltac:(lia) Hfb) as (_ & _ & _ & _ & _ & _ & ->).
    change (if 120 =? 362 then 6%nat else (6 - 1)%nat) with 5%nat.
    change (Z.to_nat (362 - 120)) with 242%nat.
    by rewrite add_tables_362.
  - destruct (weigh_sequential_root_depth 362 ltac:(unfold INT_MAX; lia))
      as (d & Hrun & Hd & _).
    rewrite Hrun by lia. f_equal.
    apply (depth_of_fun (2 * 362 + 3)); [done|].
    split; [lia|]. split; [by vm_compute|]. intros _. by vm_compute.
Qed.

Lemma weigh_static_362_witness :
  weigh_static 5 362 = Exit 0 /\
  weigh_sequential (726 + 5) (new_coins 362) 362 = Ret 6.
Proof. apply (weigh_static_362 5). lia. Defined.

(** The number [weigh_static] returns is the least [d] with
    [2 n_coins + 3 <= 3 ^ d]. *)
Lemma weigh_static_depth_of (n_coins : Z) (fuel : nat) (d : Z) :
  3 <= n_coins -> weigh_static fuel n_coins = Ret d -> depth_of (2 * n_coins + 3) d.
Proof.
  intros Hn Hs.
  assert (Hfb : exists k n0, find_base fuel 2 0 n_coins = Ret (k, n0)).
  { unfold weigh_static, weigh_static_table in Hs.
    destruct (find_base fuel 2 0 n_coins) as [[k n0]| | |]; try done. by exists k, n0. }
  destruct Hfb as (k & n0 & Hfb).
  destruct (weigh_static_cases fuel n_coins k n0 Hn Hfb)
    as (Hk0 & _ & _ & _ & Hup & Hlo & Heq).
  rewrite Heq in Hs. destruct (add_tables _ k _); [|done]. injection Hs as <-.
  split; [lia|]. split; [done|]. intros _. done.
Qed.

(** ** The weighings printed by [print_static] *)





(** The loop over the coins fills the first cells of the two arrays with
    the pans, whatever the arrays held before. *)
Lemma print_static_pans_spec (hcode : list Z) (i : nat) (n j : nat)
    (s1 s2 : list Z) (n1 n2 : nat) :
  (j + n <= length hcode)%nat -> (n1 <= length s1)%nat -> (n2 <= length s2)%nat ->
  let T := take n (drop j hcode) in
  exists s1' s2',
    print_static_pans hcode i (Z.of_nat j) n (s1, Z.of_nat n1, s2, Z.of_nat n2)
    = Ret (s1', Z.of_nat (n1 + digit_count T i 1),
           s2', Z.of_nat (n2 + digit_count T i 2)) /\
    take (n1 + digit_count T i 1) s1' = take n1 s1 ++ pan_from T i 1 (Z.of_nat j) /\
    take (n2 + digit_count T i 2) s2' = take n2 s2 ++ pan_from T i 2 (Z.of_nat j).
Proof.
  revert j s1 s2 n1 n2. induction n as [|n IH]; intros j s1 s2 n1 n2 Hj H1 H2 T.
  - exists s1, s2. unfold T. cbn [take print_static_pans pan_from].
    rewrite !digit_count_nil, !Nat.add_0_r, !app_nil_r. done.
  - cbn [print_static_pans].
    assert (Hlk : exists h, hcode !! j = Some h) by (apply lookup_lt_is_Some; lia).
    destruct Hlk as [h Hh].
    rewrite (rd_lookup _ _ _ Hh). cbn [mbind result_bind rbind].
    assert (HT : T = h :: take n (drop (S j) hcode)).
    { unfold T. by rewrite (drop_S _ _ _ Hh). }
    rewrite HT. cbn [pan_from]. rewrite !digit_count_cons.
    replace (Z.of_nat j + 1) with (Z.of_nat (S j)) by lia.
    destruct (Z.eqb_spec (digit h i) 1) as [E1|E1].
    + repeat (case_decide; try lia).
      unfold add_int. replace (Z.to_nat (Z.of_nat n1 + 1 - 1)) with n1 by lia.
      replace (Z.of_nat n1 + 1) with (Z.of_nat (S n1)) by lia.
      destruct (IH (S j) (take n1 s1 ++ [Z.of_nat j]) s2 (S n1) n2)
        as (s1' & s2' & Hrun & Ht1 & Ht2); [lia| |lia|].
      { rewrite length_app, length_take. simpl. lia. }
      exists s1', s2'. split.
      { rewrite Hrun. do 4 f_equal; lia. }
      split; [|done].
      replace (n1 + (1 + digit_count (take n (drop (S j) hcode)) i 1))%nat
        with (S n1 + digit_count (take n (drop (S j) hcode)) i 1)%nat by lia.
      rewrite Ht1. rewrite take_app_ge by (rewrite length_take; lia).
      rewrite length_take, Nat.min_l by lia.
      replace (S n1 - n1)%nat with 1%nat by lia. cbn [take].
      by rewrite <- app_assoc.
    + destruct (Z.eqb_spec (digit h i) 2) as [E2|E2].
      * repeat (case_decide; try lia).
        unfold add_int. replace (Z.to_nat (Z.of_nat n2 + 1 - 1)) with n2 by lia.
        replace (Z.of_nat n2 + 1) with (Z.of_nat (S n2)) by lia.
        destruct (IH (S j) s1 (take n2 s2 ++ [Z.of_nat j]) n1 (S n2))
          as (s1' & s2' & Hrun & Ht1 & Ht2); [lia|lia| |].
        { rewrite length_app, length_take. simpl. lia. }
        exists s1', s2'. split.
        { rewrite Hrun. do 2 f_equal; lia. }
        split; [done|].
        replace (n2 + (1 + digit_count (take n (drop (S j) hcode)) i 2))%nat
          with (S n2 + digit_count (take n (drop (S j) hcode)) i 2)%nat by lia.
        rewrite Ht2. rewrite take_app_ge by (rewrite length_take; lia).
          rewrite length_take, Nat.min_l by lia.
        replace (S n2 - n2)%nat with 1%nat by lia. cbn [take].
        by rewrite <- app_assoc.
      * repeat (case_decide; try lia).
        destruct (IH (S j) s1 s2 n1 n2) as (s1' & s2' & Hrun & Ht1 & Ht2); [lia|lia|lia|].
        exists s1', s2'. split; [|done].
        rewrite Hrun. done.
Qed.


(** The pans of one weighing, on the whole table. *)
Lemma print_static_pans_table (hcode : list Z) (i : nat) (s1 s2 : list Z) :
  exists s1' s2',
    print_static_pans hcode i 0 (length hcode) (s1, 0, s2, 0)
    = Ret (s1', Z.of_nat (digit_count hcode i 1), s2', Z.of_nat (digit_count hcode i 2)) /\
    take (digit_count hcode i 1) s1' = pan hcode i 1 /\
    take (digit_count hcode i 2) s2' = pan hcode i 2.
Proof.
  destruct (print_static_pans_spec hcode i (length hcode) 0 s1 s2 0 0)
    as (s1' & s2' & Hrun & H1 & H2); [lia|lia|lia|].
  rewrite drop_0, firstn_all in Hrun, H1, H2.
  cbn [Nat.add take app] in Hrun, H1, H2. change (Z.of_nat 0) with 0 in Hrun, H1, H2.
  exists s1', s2'. by rewrite Hrun.
Qed.


(** The test of [print_static] is the test of the loop that builds the
    pans. *)
Lemma print_static_eq_weighings (k : nat) (hcode s1 s2 : list Z) :
  print_static k (Z.of_nat (length hcode)) hcode
  = (_ ← print_static_weighings k (Z.of_nat (length hcode)) hcode s1 s2; Ret tt).
Proof.
  unfold print_static. revert s1 s2. induction k as [|k IH]; intros s1 s2; [done|].
  cbn [print_static_rounds print_static_weighings]. rewrite Nat2Z.id.
  pose proof (count_digit_spec hcode k 1 (length hcode) 0 ltac:(lia)) as H1.
  pose proof (count_digit_spec hcode k 2 (length hcode) 0 ltac:(lia)) as H2.
  change (Z.of_nat 0) with 0 in H1, H2. rewrite drop_0, firstn_all in H1, H2.
  rewrite H1. cbn [mbind result_bind rbind]. rewrite H2. cbn [mbind result_bind rbind].
  destruct (print_static_pans_table hcode k s1 s2) as (s1' & s2' & -> & _ & _).
  cbn [mbind result_bind rbind].
  destruct (_ || _); [done|].
  rewrite (IH s1' s2').
  by destruct (print_static_weighings k _ hcode s1' s2').
Qed.

(** ** Reading the weighings *)















(** ** Properties of the base-3 codes *)

(** X8. [op] is an involution on the codes of at most 19 digits (those
    [op] computes without a number beyond [3^19], which is an [int]): the
    complement of the complement of [x] is [x]; the complement of a code
    [x > 0] is a different code, positive as well, with no more digits than
    [x]. *)
Theorem op_involution (x : Z) (k : nat) :
  (k <= 19)%nat -> 0 <= x < 3 ^ Z.of_nat k ->
  op (op x) = x /\ 0 <= op x < 3 ^ Z.of_nat k /\
  (0 < x -> 0 < op x /\ op x <> x).
Proof.
  intros _ Hx. split; [apply op_involutive; lia|]. split; [by apply op_bounds|].
  intros Hpos. split; [by apply op_pos|by apply op_neq].
Qed.

Lemma op_involution_witness :
  op (op 16) = 16 /\ 0 <= op 16 < 3 ^ Z.of_nat 3 /\ (0 < 16 -> 0 < op 16 /\ op 16 <> 16).
Proof. apply (op_involution 16 3); simpl; lia. Defined.

(** X9. [digit x n] is the digit of [x] at [3 ^ n], with the power computed
    by [ipow], for a position [n <= 19] (where [ipow] stays in [int]); on a
    code [0 <= x < 3^19] (where [op] stays in [int]) the complement [op]
    exchanges the digits 1 and 2 and keeps the digit 0, at every
    position. *)
Theorem digit_op_swap (x : Z) (n : nat) :
  ((n <= 19)%nat -> digit x n = Z.rem (Z.quot x (ipow 3 n)) 3) /\
  (0 <= x < 3 ^ 19 ->
   digit (op x) n = (if digit x n =? 1 then 2 else if digit x n =? 2 then 1 else 0)).
Proof.
  split; [intros _; apply digit_quot_ipow|]. intros [Hx _]. by rewrite digit_op.
Qed.

Lemma digit_op_swap_witness :
  digit 16 1 = Z.rem (Z.quot 16 (ipow 3 1)) 3 /\
  digit (op 16) 1 = (if digit 16 1 =? 1 then 2 else if digit 16 1 =? 2 then 1 else 0).
Proof.
  destruct (digit_op_swap 16 1) as [H1 H2].
  split; [apply H1; lia|apply H2; by_compute].
Defined.

(** X10. [mcomplement m hc k] on [m, hc >= 0] and [k <= 19] digits (the
    loop counts up to [3^k] in an [int]): if at one of the [k] lowest
    positions both [m] and [hc] have a digit other than 0, the result is 0;
    otherwise the result [t < 3 ^ k] has the digit of [hc] where [m] has
    digit 0, and the complement of the digit of [m] elsewhere. *)
Theorem mcomplement_digitwise (m hc : Z) (k : nat) :
  (k <= 19)%nat -> 0 <= m -> 0 <= hc ->
  ((exists i, (i < k)%nat /\ digit m i <> 0 /\ digit hc i <> 0) ->
   mcomplement m hc k = 0) /\
  ((forall i, (i < k)%nat -> digit m i = 0 \/ digit hc i = 0) ->
   0 <= mcomplement m hc k < 3 ^ Z.of_nat k /\
   forall i, (i < k)%nat ->
     digit (mcomplement m hc k) i
     = if digit m i =? 0 then digit hc i else swap_digit (digit m i)).
Proof.
  intros _ Hm Hh. rewrite mcomplement_spec by done.
  destruct (mcomplement_digits m hc k) as [t|] eqn:Ht.
  - destruct (mcomplement_digits_digit k m hc t Hm Hh Ht) as (Hr & Hdig).
    split.
    + intros (i & Hi & Hmi & Hhi). destruct (Hdig i Hi) as [_ H1].
      destruct (H1 Hmi) as [? _]. done.
    + intros _. split; [done|]. intros i Hi. destruct (Hdig i Hi) as [H0 H1].
      simpl. destruct (Z.eqb_spec (digit m i) 0) as [E|E]; [by apply H0|by apply H1].
  - split; [done|]. intros Hall. exfalso.
    revert m hc Hm Hh Ht Hall. induction k as [|k IH]; intros m hc Hm Hh Ht Hall; [done|].
    cbn [mcomplement_digits] in Ht.
    assert (Hm0 : digit m 0 = m mod 3) by (rewrite digit_div, Z.div_1_r by lia; done).
    assert (Hh0 : digit hc 0 = hc mod 3) by (rewrite digit_div, Z.div_1_r by lia; done).
    destruct (mcomplement_digits (m / 3) (hc / 3) k) as [t'|] eqn:Ht'.
    + simpl in Ht. destruct (Hall 0%nat ltac:(lia)) as [E|E].
      * rewrite Hm0 in E. rewrite E in Ht. done.
      * rewrite Hh0 in E. rewrite E in Ht. simpl in Ht. by destruct (m mod 3 =? 0).
    + apply (IH (m / 3) (hc / 3)); [zlia|zlia|done|].
      intros i Hi. rewrite <- !digit_S_nonneg by done. apply Hall. lia.
Qed.

Lemma mcomplement_digitwise_witness :
  ((exists i, (i < 3)%nat /\ digit 5 i <> 0 /\ digit 9 i <> 0) ->
   mcomplement 5 9 3 = 0) /\
  ((forall i, (i < 3)%nat -> digit 5 i = 0 \/ digit 9 i = 0) ->
   0 <= mcomplement 5 9 3 < 3 ^ Z.of_nat 3 /\
   forall i, (i < 3)%nat ->
     digit (mcomplement 5 9 3) i
     = if digit 5 i =? 0 then digit 9 i else swap_digit (digit 5 i)).
Proof. apply (mcomplement_digitwise 5 9 3); lia. Defined.

(** ** Properties of the possibility sets *)

Lemma npos_token (P rest : list Z) :
  INT_MAX ∉ P -> npos (P ++ INT_MAX :: rest) = Ret (Z.of_nat (length P)).
Proof.
  induction P as [|x P IH]; intros HP; [done|].
  cbn [app npos]. destruct (Z.eqb_spec x INT_MAX) as [->|_]; [set_solver|].
  rewrite IH by set_solver. cbn [mbind result_bind rbind length]. f_equal. lia.
Qed.

Lemma npos_no_token (P : list Z) : INT_MAX ∉ P -> npos P = Fault.
Proof.
  induction P as [|x P IH]; intros HP; [done|].
  cbn [npos]. destruct (Z.eqb_spec x INT_MAX) as [->|_]; [set_solver|].
  by rewrite IH by set_solver.
Qed.

Lemma get_cfg_scan_token (k : Z) (P rest : list Z) (st : Z * ctype * Z) :
  INT_MAX ∉ P ->
  get_cfg_scan k (P ++ INT_MAX :: rest) st = get_cfg_scan k (P ++ [INT_MAX]) st.
Proof.
  revert st. induction P as [|x P IH]; intros [[hit type] ae] HP; [done|].
  cbn [app get_cfg_scan]. destruct (Z.eqb_spec x INT_MAX) as [->|_]; [set_solver|].
  repeat case_match; apply IH; set_solver.
Qed.

Lemma get_cfg_scan_no_token (k : Z) (P : list Z) (st : Z * ctype * Z) :
  INT_MAX ∉ P -> get_cfg_scan k P st = Fault.
Proof.
  revert st. induction P as [|x P IH]; intros [[hit type] ae] HP; [done|].
  cbn [get_cfg_scan]. destruct (Z.eqb_spec x INT_MAX) as [->|_]; [set_solver|].
  repeat case_match; apply IH; set_solver.
Qed.

Lemma get_cfg_loop_token (P rest ks : list Z) (cfg : coin_cfg) :
  INT_MAX ∉ P ->
  get_cfg_loop (P ++ INT_MAX :: rest) ks cfg = get_cfg_loop (P ++ [INT_MAX]) ks cfg.
Proof.
  intros HP. revert cfg. induction ks as [|k ks IH]; intros cfg; [done|].
  cbn [get_cfg_loop]. unfold get_cfg_step. rewrite get_cfg_scan_token by done.
  destruct (get_cfg_scan k (P ++ [INT_MAX]) _) as [[[hit type] ae]| | |]; try done.
  cbn [mbind result_bind rbind]. apply IH.
Qed.

Lemma sum_from_cases (c : Z) (s : list Z) (k : Z) (n : nat) :
  (exists x, sum_from c s k n = Ret x) \/ sum_from c s k n = Fault.
Proof.
  revert k. induction n as [|n IH]; intros k; [left; by eexists|].
  cbn [sum_from]. destruct (rd s k) as [x| | |] eqn:Hrd.
  - cbn [mbind result_bind rbind]. repeat case_match; try (left; by eexists). apply IH.
  - unfold rd in Hrd. repeat case_match; done.
  - by right.
  - unfold rd in Hrd. repeat case_match; done.
Qed.

Lemma weigh_loop_token (P rest s1 s2 : list Z) (len : Z)
    (r : ctype -> list Z) (n : ctype -> Z) :
  INT_MAX ∉ P ->
  weigh_loop (P ++ INT_MAX :: rest) s1 s2 len r n
  = weigh_loop (P ++ [INT_MAX]) s1 s2 len r n.
Proof.
  revert r n. induction P as [|x P IH]; intros r n HP; [done|].
  cbn [app weigh_loop]. destruct (Z.eqb_spec x INT_MAX) as [->|_]; [set_solver|].
  destruct (sum x s1 len); try done. cbn [mbind result_bind rbind].
  destruct (sum x s2 len); try done. cbn [mbind result_bind rbind].
  apply IH. set_solver.
Qed.

Lemma weigh_loop_no_token (P s1 s2 : list Z) (len : Z)
    (r : ctype -> list Z) (n : ctype -> Z) :
  INT_MAX ∉ P -> weigh_loop P s1 s2 len r n = Fault.
Proof.
  revert r n. induction P as [|x P IH]; intros r n HP; [done|].
  cbn [weigh_loop]. destruct (Z.eqb_spec x INT_MAX) as [->|_]; [set_solver|].
  destruct (sum_from_cases x s1 0 (Z.to_nat len)) as [[a Ha]|Ha];
    unfold sum; rewrite Ha; [|done]. cbn [mbind result_bind rbind].
  destruct (sum_from_cases x s2 0 (Z.to_nat len)) as [[b Hb]|Hb];
    rewrite Hb; [|done]. cbn [mbind result_bind rbind].
  apply IH. set_solver.
Qed.

(** X11. A possibility set ends at the first token [INT_MAX]: [npos],
    [get_cfg] and [weigh] do not read the cells behind it; on an array
    without the token they read past its end. *)
Theorem token_ends_set (P rest : list Z) (n : Z) (s1 s2 : list Z) (len : Z) :
  INT_MAX ∉ P ->
  (npos (P ++ INT_MAX :: rest) = Ret (Z.of_nat (length P)) /\
   get_cfg (P ++ INT_MAX :: rest) n = get_cfg (P ++ [INT_MAX]) n /\
   weigh (P ++ INT_MAX :: rest) s1 s2 len = weigh (P ++ [INT_MAX]) s1 s2 len) /\
  (npos P = Fault /\
   (0 < n -> get_cfg P n = Fault) /\
   weigh P s1 s2 len = Fault).
Proof.
  intros HP. split; [split; [|split]|split; [|split]].
  - by apply npos_token.
  - unfold get_cfg. by apply get_cfg_loop_token.
  - unfold weigh. by rewrite weigh_loop_token.
  - by apply npos_no_token.
  - intros Hn. unfold get_cfg. rewrite seqZ_cons by done.
    cbn [get_cfg_loop]. unfold get_cfg_step. by rewrite get_cfg_scan_no_token.
  - unfold weigh. by rewrite weigh_loop_no_token.
Qed.

Lemma token_ends_set_witness :
  (npos ([0; 1; -1] ++ INT_MAX :: [7; 8]) = Ret (Z.of_nat (length [0; 1; -1])) /\
   get_cfg ([0; 1; -1] ++ INT_MAX :: [7; 8]) 2 = get_cfg ([0; 1; -1] ++ [INT_MAX]) 2 /\
   weigh ([0; 1; -1] ++ INT_MAX :: [7; 8]) [0] [1] 1
   = weigh ([0; 1; -1] ++ [INT_MAX]) [0] [1] 1) /\
  (npos [0; 1; -1] = Fault /\
   (0 < 2 -> get_cfg [0; 1; -1] 2 = Fault) /\
   weigh [0; 1; -1] [0] [1] 1 = Fault).
Proof.
  apply (token_ends_set [0; 1; -1] [7; 8] 2 [0] [1] 1).
  apply (bool_decide_unpack _). vm_compute. exact I.
Defined.

(** X12. [get_cfg] sorts the coins by their role in a possibility set
    without duplicates: a coin is DOUBLE if it may be heavy and may be
    light, MORE if it may only be heavy, LESS if it may only be light, EQUAL
    otherwise.  Each group lists its coins once, its size is the length of
    the list, the four sizes add up to [n], and [all_equal] tells whether
    "no fake coin" is possible. *)
Theorem get_cfg_classifies (P : list Z) (n : Z) :
  INT_MAX ∉ P -> NoDup P -> 0 < n ->
  exists cfg,
    get_cfg (P ++ [INT_MAX]) n = Ret cfg /\
    (forall t, size cfg t = Z.of_nat (length (sel cfg t)) /\ NoDup (sel cfg t)) /\
    size cfg C_EQUAL + size cfg C_MORE + size cfg C_LESS + size cfg C_DOUBLE = n /\
    all_equal cfg = (if decide (0 ∈ P) then 1 else 0) /\
    forall k,
      (k ∈ sel cfg C_DOUBLE <-> 0 <= k < n /\ k + 1 ∈ P /\ - k - 1 ∈ P) /\
      (k ∈ sel cfg C_MORE <-> 0 <= k < n /\ k + 1 ∈ P /\ - k - 1 ∉ P) /\
      (k ∈ sel cfg C_LESS <-> 0 <= k < n /\ (k + 1 ∉ P) /\ - k - 1 ∈ P) /\
      (k ∈ sel cfg C_EQUAL <-> 0 <= k < n /\ (k + 1 ∉ P) /\ - k - 1 ∉ P).
Proof.
  intros Hmax HND Hn.
  destruct (get_cfg_spec P n Hmax HND) as (cfg & Hc & Hwf & Hae & Hsel).
  exists cfg. split; [done|]. split; [|split; [|split]].
  - intros t. split; [apply Hwf|]. rewrite Hsel. apply NoDup_coins_of.
  - rewrite !Hwf, !Hsel. apply coins_partition. lia.
  - rewrite Hae. destruct (decide (0 ∈ P)).
    + by rewrite decide_True.
    + by rewrite decide_False by tauto.
  - intros k. rewrite !Hsel, !elem_of_coins_of.
    rewrite coin_type_DOUBLE, coin_type_MORE, coin_type_LESS, coin_type_EQUAL. tauto.
Qed.

Lemma get_cfg_classifies_witness :
  exists cfg,
    get_cfg ([1; -2; 0; -1] ++ [INT_MAX]) 3 = Ret cfg /\
    (forall t, size cfg t = Z.of_nat (length (sel cfg t)) /\ NoDup (sel cfg t)) /\
    size cfg C_EQUAL + size cfg C_MORE + size cfg C_LESS + size cfg C_DOUBLE = 3 /\
    all_equal cfg = (if decide (0 ∈ [1; -2; 0; -1]) then 1 else 0) /\
    forall k,
      (k ∈ sel cfg C_DOUBLE <-> 0 <= k < 3 /\ k + 1 ∈ [1; -2; 0; -1] /\ - k - 1 ∈ [1; -2; 0; -1]) /\
      (k ∈ sel cfg C_MORE <-> 0 <= k < 3 /\ k + 1 ∈ [1; -2; 0; -1] /\ - k - 1 ∉ [1; -2; 0; -1]) /\
      (k ∈ sel cfg C_LESS <-> 0 <= k < 3 /\ (k + 1 ∉ [1; -2; 0; -1]) /\ - k - 1 ∈ [1; -2; 0; -1]) /\
      (k ∈ sel cfg C_EQUAL <-> 0 <= k < 3 /\ (k + 1 ∉ [1; -2; 0; -1]) /\ - k - 1 ∉ [1; -2; 0; -1]).
Proof.
  apply (get_cfg_classifies [1; -2; 0; -1] 3); [| |lia];
    apply (bool_decide_unpack _); vm_compute; exact I.
Defined.

Lemma filter_all (P : Z -> Prop) `{!forall x, Decision (P x)} (l : list Z) :
  Forall P l -> filter P l = l.
Proof.
  induction 1 as [|x l Hx _ IH]; [done|].
  by rewrite filter_cons, decide_True, IH.
Qed.

Lemma new_coins_set (n : Z) :
  0 <= n ->
  let P0 := 0 :: seqZ 1 n ++ (Z.opp <$> seqZ 1 n) in
  NoDup P0 /\ (forall x, x ∈ P0 <-> - n <= x <= n) /\
  Z.of_nat (length P0) = 2 * n + 1.
Proof.
  intros Hn P0.
  assert (Hin : forall x, x ∈ P0 <-> - n <= x <= n).
  { intros x. unfold P0. rewrite elem_of_cons, elem_of_app, list_elem_of_fmap, elem_of_seqZ.
    split.
    - intros [->|[?|(y & -> & Hy%elem_of_seqZ)]]; lia.
    - intros Hx. destruct (Z.lt_trichotomy x 0) as [?|[?|?]]; [|by left|right; left; lia].
      right. right. exists (- x). split; [lia|]. apply elem_of_seqZ. lia. }
  split; [|split; [done|]].
  - apply NoDup_cons. split.
    + rewrite elem_of_app, list_elem_of_fmap, elem_of_seqZ.
      intros [?|(y & ? & Hy%elem_of_seqZ)]; lia.
    + apply NoDup_app. split; [apply NoDup_seqZ|]. split.
      * intros x Hx%elem_of_seqZ (y & -> & Hy%elem_of_seqZ)%list_elem_of_fmap. lia.
      * apply NoDup_fmap_2; [|apply NoDup_seqZ]. intros x y. lia.
  - unfold P0. cbn [length]. rewrite length_app, length_fmap, !length_seqZ. lia.
Qed.

(** X13. The initial possibility set of [n >= 1] coins, in an array whose
    size [2 n + 2] is an [int], holds [2 n + 1] hypotheses, and its configuration is of type A: every coin is DOUBLE,
    in the order of the coins, no coin is known to be good, and "no fake
    coin" is possible. *)
Theorem new_coins_initial (n : Z) :
  0 < n -> 2 * n + 2 <= INT_MAX ->
  npos (new_coins n) = Ret (2 * n + 1) /\
  exists cfg,
    get_cfg (new_coins n) n = Ret cfg /\
    all_equal cfg = 1 /\
    sel cfg C_DOUBLE = seqZ 0 n /\ size cfg C_DOUBLE = n /\
    size cfg C_EQUAL = 0 /\ size cfg C_MORE = 0 /\ size cfg C_LESS = 0 /\
    num_pos cfg = 2 * n + 1.
Proof.
  intros Hn0 Hmax0. assert (Hn : 0 < n < INT_MAX) by lia. rewrite new_coins_eq.
  destruct (new_coins_set n ltac:(lia)) as (HND & Hin & Hlen).
  set (P0 := 0 :: seqZ 1 n ++ (Z.opp <$> seqZ 1 n)) in *.
  assert (Hmax : INT_MAX ∉ P0) by (rewrite Hin; lia).
  split; [rewrite npos_spec by done; f_equal; lia|].
  assert (HA : type_A P0).
  { split; [apply Hin; lia|]. intros c Hc. rewrite !Hin. unfold pos_hyp, neg_hyp. lia. }
  destruct (get_cfg_type_A P0 n ltac:(lia) HND ltac:(intros x; apply Hin) Hmax HA)
    as (cfg & Hc & Hwf & Hsel & HM & HL & Hae & Hodd & He & Hnp & _).
  exists cfg. split; [done|]. split; [done|]. split.
  { rewrite Hsel. unfold coins_of. apply filter_all, Forall_forall.
    intros k Hk%elem_of_seqZ. apply coin_type_DOUBLE. rewrite !Hin. lia. }
  repeat split; lia.
Qed.

Lemma new_coins_initial_witness :
  npos (new_coins 12) = Ret (2 * 12 + 1) /\
  exists cfg,
    get_cfg (new_coins 12) 12 = Ret cfg /\
    all_equal cfg = 1 /\
    sel cfg C_DOUBLE = seqZ 0 12 /\ size cfg C_DOUBLE = 12 /\
    size cfg C_EQUAL = 0 /\ size cfg C_MORE = 0 /\ size cfg C_LESS = 0 /\
    num_pos cfg = 2 * 12 + 1.
Proof. apply (new_coins_initial 12); unfold INT_MAX; lia. Defined.

(** ** Properties of one weighing *)

Lemma outcome_swap (s1 s2 : list Z) (c : Z) :
  (outcome s2 s1 c = C_MORE <-> outcome s1 s2 c = C_LESS) /\
  (outcome s2 s1 c = C_LESS <-> outcome s1 s2 c = C_MORE) /\
  (outcome s2 s1 c = C_EQUAL <-> outcome s1 s2 c = C_EQUAL).
Proof.
  unfold outcome, balance.
  destruct (Z.ltb_spec (on_arm c s2) (on_arm c s1)), (Z.ltb_spec (on_arm c s1) (on_arm c s2)),
           (Z.eqb_spec (on_arm c s2) (on_arm c s1)), (Z.eqb_spec (on_arm c s1) (on_arm c s2));
    try lia; naive_solver.
Qed.

(** X14. Exchanging the two pans of a weighing exchanges the possibility
    sets of the results "left pan down" and "right pan down" and keeps the
    set of the balance. *)
Theorem weigh_swap (P s1 s2 : list Z) (len : Z) :
  INT_MAX ∉ P ->
  len = Z.of_nat (length s1) -> len = Z.of_nat (length s2) ->
  exists r r' : ctype -> list Z,
    weigh (P ++ [INT_MAX]) s1 s2 len = Ret r /\
    weigh (P ++ [INT_MAX]) s2 s1 len = Ret r' /\
    r' C_MORE = r C_LESS /\ r' C_LESS = r C_MORE /\ r' C_EQUAL = r C_EQUAL.
Proof.
  intros Hmax Hl1 Hl2.
  destruct (weigh_spec P s1 s2 len Hmax Hl1 Hl2) as (r & Hr & Hrt).
  destruct (weigh_spec P s2 s1 len Hmax Hl2 Hl1) as (r' & Hr' & Hrt').
  exists r, r'. split; [done|]. split; [done|].
  rewrite !Hrt, !Hrt' by done.
  repeat split; f_equal; apply list_filter_iff; intros c; apply outcome_swap.
Qed.

Lemma weigh_swap_witness :
  exists r r' : ctype -> list Z,
    weigh ([0; 1; 2; 3; -1; -2; -3] ++ [INT_MAX]) [0] [1] 1 = Ret r /\
    weigh ([0; 1; 2; 3; -1; -2; -3] ++ [INT_MAX]) [1] [0] 1 = Ret r' /\
    r' C_MORE = r C_LESS /\ r' C_LESS = r C_MORE /\ r' C_EQUAL = r C_EQUAL.
Proof.
  apply (weigh_swap [0; 1; 2; 3; -1; -2; -3] [0] [1] 1); [|done|done].
  apply (bool_decide_unpack _). vm_compute. exact I.
Defined.

(** X15. [weigh] follows the scale: a hypothesis stays in the set of the
    result it predicts.  For a coin [c] on the left pan only, "[c] heavy"
    is in the set of "left pan down" and "[c] light" in the set of "right
    pan down"; for a coin on the right pan only it is the other way round;
    for a coin on neither pan both are in the set of the balance, and so is
    "no fake coin". *)
Theorem weigh_follows_scale (P s1 s2 : list Z) (len : Z) (c : Z) :
  INT_MAX ∉ P ->
  len = Z.of_nat (length s1) -> len = Z.of_nat (length s2) ->
  0 <= c ->
  exists r : ctype -> list Z,
    weigh (P ++ [INT_MAX]) s1 s2 len = Ret r /\
    (0 ∈ P -> 0 ∈ r C_EQUAL) /\
    (c ∈ s1 -> c ∉ s2 ->
       (c + 1 ∈ P -> c + 1 ∈ r C_MORE) /\ (- c - 1 ∈ P -> - c - 1 ∈ r C_LESS)) /\
    (c ∉ s1 -> c ∈ s2 ->
       (c + 1 ∈ P -> c + 1 ∈ r C_LESS) /\ (- c - 1 ∈ P -> - c - 1 ∈ r C_MORE)) /\
    (c ∉ s1 -> c ∉ s2 ->
       (c + 1 ∈ P -> c + 1 ∈ r C_EQUAL) /\ (- c - 1 ∈ P -> - c - 1 ∈ r C_EQUAL)).
Proof.
  intros Hmax Hl1 Hl2 Hc.
  destruct (weigh_spec P s1 s2 len Hmax Hl1 Hl2) as (r & Hr & Hrt).
  exists r. split; [done|].
  assert (Hin : forall x t, t <> C_DOUBLE -> x ∈ P -> outcome s1 s2 x = t -> x ∈ r t).
  { intros x t Ht Hx Ho. rewrite Hrt by done. apply elem_of_app. left.
    by apply list_elem_of_filter. }
  split; [intros H0; apply Hin; [done|done|apply outcome_0]|].
  split; [|split].
  - intros H1 H2. destruct (outcome_left s1 s2 c Hc H1 H2) as [Hp Hn].
    split; intros Hx; by apply Hin.
  - intros H1 H2. destruct (outcome_right s1 s2 c Hc H1 H2) as [Hp Hn].
    split; intros Hx; by apply Hin.
  - intros H1 H2. destruct (outcome_off s1 s2 c Hc H1 H2) as [Hp Hn].
    split; intros Hx; by apply Hin.
Qed.

Lemma weigh_follows_scale_witness :
  exists r : ctype -> list Z,
    weigh ([0; 1; 2; 3; -1; -2; -3] ++ [INT_MAX]) [0] [1] 1 = Ret r /\
    (0 ∈ [0; 1; 2; 3; -1; -2; -3] -> 0 ∈ r C_EQUAL) /\
    (0 ∈ [0] -> 0 ∉ [1] ->
       (0 + 1 ∈ [0; 1; 2; 3; -1; -2; -3] -> 0 + 1 ∈ r C_MORE) /\
       (- 0 - 1 ∈ [0; 1; 2; 3; -1; -2; -3] -> - 0 - 1 ∈ r C_LESS)) /\
    (0 ∉ [0] -> 0 ∈ [1] ->
       (0 + 1 ∈ [0; 1; 2; 3; -1; -2; -3] -> 0 + 1 ∈ r C_LESS) /\
       (- 0 - 1 ∈ [0; 1; 2; 3; -1; -2; -3] -> - 0 - 1 ∈ r C_MORE)) /\
    (0 ∉ [0] -> 0 ∉ [1] ->
       (0 + 1 ∈ [0; 1; 2; 3; -1; -2; -3] -> 0 + 1 ∈ r C_EQUAL) /\
       (- 0 - 1 ∈ [0; 1; 2; 3; -1; -2; -3] -> - 0 - 1 ∈ r C_EQUAL)).
Proof.
  apply (weigh_follows_scale [0; 1; 2; 3; -1; -2; -3] [0] [1] 1 0); [|done|done|lia].
  apply (bool_decide_unpack _). vm_compute. exact I.
Defined.

(** ** The pans chosen by the selector *)







(** ** Properties of the selection of case B *)

(** X17. On a configuration whose sizes are not negative, [get_sel_B]
    never takes its branch [return 0]: when the numbers of [get_nkl] are
    negative, they are not negative after [switch_more_less], and the pans
    are filled with the exchanged groups. *)
Theorem get_sel_B_never_gives_up (cfg : coin_cfg) :
  0 <= size cfg C_MORE -> 0 <= size cfg C_LESS ->
  (nkl_negative (get_nkl cfg) = true ->
   nkl_negative (get_nkl (switch_more_less cfg)) = false) /\
  get_sel_B cfg =
    (if nkl_negative (get_nkl cfg)
     then get_sel_B_fill (switch_more_less cfg) (get_nkl (switch_more_less cfg))
     else get_sel_B_fill cfg (get_nkl cfg)).
Proof.
  intros Hp Hq. split; [by apply get_nkl_switch|].
  unfold get_sel_B. destruct (nkl_negative (get_nkl cfg)) eqn:H; [|done].
  by rewrite get_nkl_switch.
Qed.

Lemma get_sel_B_never_gives_up_witness :
  let cfg := classified [1; 2; 3] 5 in
  (nkl_negative (get_nkl cfg) = true ->
   nkl_negative (get_nkl (switch_more_less cfg)) = false) /\
  get_sel_B cfg =
    (if nkl_negative (get_nkl cfg)
     then get_sel_B_fill (switch_more_less cfg) (get_nkl (switch_more_less cfg))
     else get_sel_B_fill cfg (get_nkl cfg)).
Proof. apply (get_sel_B_never_gives_up (classified [1; 2; 3] 5)); by_compute. Defined.

(** X18. The numbers [n1, n2, k, l] of [get_nkl] for [p] MORE coins and
    [q] LESS coins, when none of [n1], [n2], [k] is negative: the coins
    asked for exist ([n1 <= p], [n2 + k <= q], at most 2 EQUAL coins, and 2
    only if [p + q] is a multiple of 3), and the two pans hold the same
    number of coins. *)
Theorem get_nkl_numbers (cfg : coin_cfg) (n1 n2 k l : Z) :
  0 <= size cfg C_MORE -> 0 <= size cfg C_LESS ->
  get_nkl cfg = (n1, n2, k, l) ->
  nkl_negative (n1, n2, k, l) = false ->
  0 <= n1 <= size cfg C_MORE /\ 0 <= n2 /\ 0 <= k /\ n2 + k <= size cfg C_LESS /\
  -1 <= l <= 2 /\ (l = 2 -> (size cfg C_MORE + size cfg C_LESS) mod 3 = 0) /\
  n1 + n2 + (if l <? 0 then - l else 0)
  = (size cfg C_MORE - n1) + k + (if l <? 0 then 0 else l).
Proof.
  intros Hp Hq Hnkl Hneg.
  destruct (get_nkl_feasible cfg n1 n2 k l Hp Hq Hnkl Hneg)
    as (? & ? & ? & ? & ? & ? & ? & _).
  repeat split; (done || lia).
Qed.

Lemma get_nkl_numbers_witness :
  let cfg := classified [1; 2; 3; -4; -5] 7 in
  0 <= 1 <= size cfg C_MORE /\ 0 <= 0 /\ 0 <= 0 /\ 0 + 0 <= size cfg C_LESS /\
  -1 <= -1 <= 2 /\ (-1 = 2 -> (size cfg C_MORE + size cfg C_LESS) mod 3 = 0) /\
  1 + 0 + (if -1 <? 0 then - -1 else 0)
  = (size cfg C_MORE - 1) + 0 + (if -1 <? 0 then 0 else -1).
Proof.
  apply (get_nkl_numbers (classified [1; 2; 3; -4; -5] 7) 1 0 0 (-1));
    [by_compute|by_compute|by vm_compute|by vm_compute].
Defined.

(** ** Properties of the search of a free code *)

Lemma wr_out (a : list Z) (i v : Z) :
  ~ (0 <= i < Z.of_nat (length a)) -> wr a i v = Fault.
Proof.
  intros Hi. unfold wr.
  destruct (Z.ltb_spec i 0); [done|].
  destruct (Z.leb_spec (Z.of_nat (length a)) i); [done|lia].
Qed.

Lemma missing_mark_out (b t : list Z) (n k : nat) :
  (k + n <= length b)%nat ->
  (exists x, x ∈ take n (drop k b) /\
             ~ (0 <= x < Z.of_nat (length t) /\ 0 <= op x < Z.of_nat (length t))) ->
  missing_mark b t (Z.of_nat k) n = Fault.
Proof.
  revert k t. induction n as [|n IH]; intros k t Hk (x & Hx & Hout).
  - simpl in Hx. by apply elem_of_nil in Hx.
  - cbn [missing_mark].
    destruct (lookup_lt_is_Some_2 b k) as [y Hy]; [lia|].
    rewrite (rd_lookup _ _ _ Hy). cbn [mbind result_bind rbind].
    rewrite (drop_S _ _ _ Hy) in Hx. cbn [take] in Hx.
    destruct (decide (0 <= y < Z.of_nat (length t))) as [Hy1|Hy1];
      [|by rewrite wr_out].
    rewrite wr_Ret_Z by done. cbn [mbind result_bind rbind].
    destruct (decide (0 <= op y < Z.of_nat (length t))) as [Hy2|Hy2];
      [|by rewrite wr_out by (by rewrite length_insert)].
    rewrite wr_Ret_Z by (by rewrite length_insert). cbn [mbind result_bind rbind].
    replace (Z.of_nat k + 1) with (Z.of_nat (S k)) by lia.
    apply IH; [lia|]. exists x. rewrite !length_insert.
    apply elem_of_cons in Hx as [->|Hx]; [tauto|done].
Qed.

(** X19. [missing] and [isfree] agree: when the codes in the first [n]
    cells and their complements are numbers of [0 .. N], [missing] returns
    the least number of [1 .. N] that [isfree] accepts, and ends the
    program with status 0 if [isfree] accepts none; when a code or a
    complement is not in [0 .. N], [missing] writes outside its table. *)
Theorem missing_least_free (b : list Z) (n N : Z) :
  0 <= n <= Z.of_nat (length b) -> 0 <= N ->
  ((forall x, x ∈ take (Z.to_nat n) b -> 0 <= x <= N /\ 0 <= op x <= N) ->
   (exists m, missing b n N = Ret m /\ 1 <= m <= N /\
              isfree m b n = Ret true /\
              forall m', 1 <= m' < m -> isfree m' b n = Ret false) \/
   (missing b n N = Exit 0 /\
    forall m, 1 <= m <= N -> isfree m b n = Ret false)) /\
  ((exists x, x ∈ take (Z.to_nat n) b /\ ~ (0 <= x <= N /\ 0 <= op x <= N)) ->
   missing b n N = Fault).
Proof.
  intros Hn HN. split.
  - intros Hrange.
    destruct (least_witness (free_in (take (Z.to_nat n) b)) 1 (Z.to_nat N))
      as [Hnone|(m & Hm & Hfree & Hleast)].
    + right. split.
      * apply missing_none; [done..|]. intros m Hm. apply Hnone. lia.
      * intros m Hm. rewrite isfree_spec by done. f_equal.
        apply bool_decide_eq_false. apply Hnone. lia.
    + left. exists m. split; [apply missing_found; (done || lia)|].
      split; [lia|]. split.
      * rewrite isfree_spec by done. f_equal. by apply bool_decide_eq_true.
      * intros m' Hm'. rewrite isfree_spec by done. f_equal.
        apply bool_decide_eq_false. by apply Hleast.
  - intros (x & Hx & Hout). unfold missing.
    pose proof (missing_mark_out b (replicate (Z.to_nat (N + 1)) 0) (Z.to_nat n) 0) as H.
    change (Z.of_nat 0) with 0 in H. rewrite H; [done|lia|].
    exists x. rewrite drop_0, length_replicate. split; [done|]. lia.
Qed.

Lemma missing_least_free_witness :
  ((forall x, x ∈ take (Z.to_nat 3) [1; 8; 3] -> 0 <= x <= 8 /\ 0 <= op x <= 8) ->
   (exists m, missing [1; 8; 3] 3 8 = Ret m /\ 1 <= m <= 8 /\
              isfree m [1; 8; 3] 3 = Ret true /\
              forall m', 1 <= m' < m -> isfree m' [1; 8; 3] 3 = Ret false) \/
   (missing [1; 8; 3] 3 8 = Exit 0 /\
    forall m, 1 <= m <= 8 -> isfree m [1; 8; 3] 3 = Ret false)) /\
  ((exists x, x ∈ take (Z.to_nat 3) [1; 8; 3] /\ ~ (0 <= x <= 8 /\ 0 <= op x <= 8)) ->
   missing [1; 8; 3] 3 8 = Fault).
Proof. apply (missing_least_free [1; 8; 3] 3 8); simpl; lia. Defined.

(** ** Properties of the test of [print_static] *)

(** X20. [print_static] on a table of one code per coin returns if and only
    if, at each of the [k] positions, as many codes have digit 1 as have
    digit 2, and one at least has; otherwise it ends the program with
    status 1. *)
Theorem print_static_test (k : nat) (hcode : list Z) :
  (print_static k (Z.of_nat (length hcode)) hcode = Ret tt /\
   forall i, (i < k)%nat ->
     digit_count hcode i 1 = digit_count hcode i 2 /\ (0 < digit_count hcode i 1)%nat) \/
  (print_static k (Z.of_nat (length hcode)) hcode = Exit 1 /\
   exists i, (i < k)%nat /\
     ~ (digit_count hcode i 1 = digit_count hcode i 2 /\ (0 < digit_count hcode i 1)%nat)).
Proof.
  unfold print_static.
  destruct (print_static_rounds_spec k (length hcode) hcode ltac:(lia)) as [[H1 H2]|[H1 H2]];
    rewrite firstn_all in H2; [left|right]; done.
Qed.

(** ** [getbase] on an array that is too short *)

Lemma rd_cases (a : list Z) (i : Z) :
  (exists x, rd a i = Ret x) \/ rd a i = Fault.
Proof.
  unfold rd. destruct (i <? 0); [by right|].
  destruct (a !! Z.to_nat i); [left; by eexists|by right].
Qed.

Lemma wr_cases (a : list Z) (i v : Z) :
  (exists a', wr a i v = Ret a' /\ length a' = length a /\ 0 <= i < Z.of_nat (length a)) \/
  wr a i v = Fault.
Proof.
  destruct (decide (0 <= i < Z.of_nat (length a))) as [Hi|Hi].
  - left. eexists. split; [by apply wr_Ret_Z|]. by rewrite length_insert.
  - right. by apply wr_out.
Qed.

Lemma getbase_copy_cases (b : list Z) (c n j : Z) (m : nat) :
  (exists b', getbase_copy b c n j m = Ret b' /\ length b' = length b /\
              ((0 < m)%nat -> 2 * n + j + Z.of_nat m <= Z.of_nat (length b))) \/
  getbase_copy b c n j m = Fault.
Proof.
  revert b j. induction m as [|m IH]; intros b j.
  - left. exists b. split; [done|]. split; [done|lia].
  - cbn [getbase_copy].
    destruct (rd_cases b j) as [[x ->]| ->]; [|by right].
    cbn [mbind result_bind rbind].
    destruct (wr_cases b (n + j) (x + c)) as [(b1 & -> & Hl1 & _)| ->]; [|by right].
    cbn [mbind result_bind rbind].
    destruct (rd_cases b1 j) as [[y ->]| ->]; [|by right].
    cbn [mbind result_bind rbind].
    destruct (wr_cases b1 (2 * n + j) (y + 2 * c)) as [(b2 & -> & Hl2 & Hi2)| ->]; [|by right].
    cbn [mbind result_bind rbind].
    destruct (IH b2 (j + 1)) as [(b' & -> & Hl' & Hm)| ->]; [|by right].
    left. exists b'. split; [done|]. split; [lia|]. intros _.
    destruct m as [|m]; [lia|]. specialize (Hm ltac:(lia)). lia.
Qed.

Lemma getbase_short (k : nat) (b : list Z) :
  (2 <= k)%nat -> Z.of_nat (length b) < n_sat k -> getbase k b = Fault.
Proof.
  induction k as [|k IH]; [lia|]. intros Hk Hb.
  destruct (decide (k = 1%nat)) as [->|Hk1].
  { rewrite n_sat_2 in Hb.
    destruct b as [|x0 [|x1 [|x2 b]]]; simpl in Hb; try lia; reflexivity. }
  cbn [getbase]. destruct (Nat.eqb_spec (S k) 2) as [|_]; [lia|].
  destruct (decide (Z.of_nat (length b) < n_sat k)) as [Hlt|Hge].
  { by rewrite IH by (lia || done). }
  destruct (getbase_eq_table k b ltac:(lia) ltac:(lia)) as (Hget & Hlen & Hok).
  rewrite Hget. cbn [mbind result_bind rbind].
  pose proof (n_sat_eq k) as Hsat. pose proof (n_sat_succ k) as Hsucc.
  pose proof (pow3_pos k) as Hc. pose proof (n_sat_mono k ltac:(lia)) as [Hn3 _].
  set (b0 := base_table k ++ drop (Z.to_nat (n_sat k)) b) in *.
  assert (Hl0 : length b0 = length b).
  { unfold b0. rewrite length_app, length_drop. lia. }
  destruct (exists_least_free k (base_table k) Hok ltac:(lia)) as (m & Hm & Hfree & Hleast).
  assert (Htake : take (Z.to_nat (n_sat k)) b0 = base_table k).
  { unfold b0. rewrite <- Hlen, Nat2Z.id. by apply take_app_length. }
  assert (Hmiss : missing b0 (n_sat k) (3 ^ Z.of_nat k - 1) = Ret m).
  { destruct Hok as [Hr _]. rewrite Forall_forall in Hr.
    apply missing_found; rewrite ?Htake; try done; try lia.
    intros x Hx. specialize (Hr x Hx). simpl in Hr.
    pose proof (op_bounds k x ltac:(lia)). lia. }
  rewrite !n_sat_quot, !ipow_spec, Hmiss. cbn [mbind result_bind rbind].
  destruct (getbase_copy_cases b0 (3 ^ Z.of_nat k) (n_sat k) 0 (Z.to_nat (n_sat k)))
    as [(b1 & -> & Hl1 & Hfit)| ->]; [|done].
  cbn [mbind result_bind rbind]. specialize (Hfit ltac:(lia)).
  destruct (wr_cases b1 (2 * n_sat k + n_sat k) (2 * 3 ^ Z.of_nat k))
    as [(b2 & -> & Hl2 & Hi2)| ->]; [|done].
  cbn [mbind result_bind rbind].
  destruct (wr_cases b2 (2 * n_sat k + n_sat k + 1) m)
    as [(b3 & -> & Hl3 & Hi3)| ->]; [|done].
  cbn [mbind result_bind rbind].
  rewrite wr_out; [done|]. lia.
Qed.

(** ** Properties of the table builder *)

Lemma base_table_sorted (k : nat) : (3 <= k)%nat -> Sorted Z.le (base_table k).
Proof.
  intros Hk. destruct k as [|k]; [lia|]. cbn [base_table].
  destruct (Nat.leb_spec (S k) 1); [lia|].
  destruct (Nat.eqb_spec (S k) 2); [lia|].
  apply Sorted_merge_sort. apply _.
Qed.

(** X21. For [2 <= k <= 19] weighings (codes below [3^19], which are
    [int]s) [getbase] fills the first [(3^k - 3) / 2]
    cells of any array that is long enough with one and the same table and
    keeps the cells behind; on a shorter array it writes outside the
    array.  The table is in ascending order for [k >= 3],
    its codes are numbers of [1 .. 3^k - 1] that differ from one another,
    and in each of the [k] weighings it puts as many coins on the left pan
    (digit 1) as on the right pan (digit 2), at least one. *)
Theorem getbase_table (k : nat) :
  (2 <= k <= 19)%nat ->
  exists T : list Z,
    (forall b : list Z, n_sat k <= Z.of_nat (length b) ->
       getbase k b = Ret (T ++ drop (Z.to_nat (n_sat k)) b)) /\
    (forall b : list Z, Z.of_nat (length b) < n_sat k -> getbase k b = Fault) /\
    Z.of_nat (length T) = n_sat k /\
    (3 <= k -> Sorted Z.le T)%nat /\
    NoDup T /\ Forall (fun x => 1 <= x < 3 ^ Z.of_nat k) T /\
    forall i, (i < k)%nat ->
      digit_count T i 1 = digit_count T i 2 /\ (0 < digit_count T i 1)%nat.
Proof.
  intros [Hk _]. exists (base_table k).
  destruct (getbase_eq_table k (replicate (Z.to_nat (n_sat k)) 0) Hk)
    as (_ & Hlen & [Hr HND]).
  { rewrite length_replicate. pose proof (n_sat_mono k Hk). lia. }
  split; [intros b Hb; by apply getbase_eq_table|].
  split; [intros b Hb; by apply getbase_short|].
  split; [done|]. split; [apply base_table_sorted|].
  split; [by apply NoDup_app in HND as [? _]|]. split; [done|].
  intros i Hi. by apply base_table_round_ok.
Qed.

Lemma getbase_table_witness :
  exists T : list Z,
    (forall b : list Z, n_sat 3 <= Z.of_nat (length b) ->
       getbase 3 b = Ret (T ++ drop (Z.to_nat (n_sat 3)) b)) /\
    (forall b : list Z, Z.of_nat (length b) < n_sat 3 -> getbase 3 b = Fault) /\
    Z.of_nat (length T) = n_sat 3 /\
    (3 <= 3 -> Sorted Z.le T)%nat /\
    NoDup T /\ Forall (fun x => 1 <= x < 3 ^ Z.of_nat 3) T /\
    forall i, (i < 3)%nat ->
      digit_count T i 1 = digit_count T i 2 /\ (0 < digit_count T i 1)%nat.
Proof. apply (getbase_table 3). lia. Defined.

(** X22. [add] for [k <= 19] weighings on an array with a table of codes
    below [3^19] in the first [nc] cells (so that [3^k], the codes and
    their complements are [int]s) either ends the program with status 0, or returns the array with the new table
    in the first [nc + 1] cells, in ascending order, and the cells behind
    unchanged; it never reads or writes outside the array.  If the codes of
    the table and their complements are different numbers of
    [1 .. 3^k - 1], so are those of the new table, and each weighing gets
    the same number of new coins, none or one, on its two pans. *)
Theorem add_step (hc : list Z) (k : nat) (nc : nat) :
  (k <= 19)%nat -> (nc < length hc)%nat -> Z.of_nat nc < INT_MAX ->
  Forall (fun x => 0 <= x < 3 ^ 19) (take nc hc) ->
  add hc k (Z.of_nat nc) = Exit 0 \/
  exists T' : list Z,
    add hc k (Z.of_nat nc) = Ret (T' ++ drop (S nc) hc) /\
    length T' = S nc /\ Sorted Z.le T' /\
    (codes_ok k (take nc hc) ->
     codes_ok k T' /\
     forall i, (i < k)%nat ->
       exists d : nat, (d <= 1)%nat /\
         digit_count T' i 1 = (digit_count (take nc hc) i 1 + d)%nat /\
         digit_count T' i 2 = (digit_count (take nc hc) i 2 + d)%nat).
Proof.
  intros _ Hnc _ _. rewrite add_eq_table by done.
  destruct (add_table (take nc hc) k) as [T'|] eqn:HT; [right|by left].
  exists T'. split; [done|].
  pose proof (length_add_table _ _ _ HT) as Hl. rewrite length_take in Hl.
  split; [lia|]. split.
  { unfold add_table in HT. destruct (add_find_code _ _ _ _ _) as [[[m j] t]|]; [|done].
    injection HT as <-. apply Sorted_merge_sort. apply _. }
  intros Hok. destruct (add_table_rounds _ _ _ Hok HT) as (Hok' & m & _ & _ & _ & Hcount).
  split; [done|]. intros i Hi.
  exists (if decide (digit m i = 0) then 0%nat else 1%nat).
  split; [destruct (decide (digit m i = 0)); lia|].
  by rewrite (Hcount i 1 Hi ltac:(auto)), (Hcount i 2 Hi ltac:(auto)).
Qed.

Lemma add_step_witness :
  let hc := [1; 8; 3; 0] in
  add hc 3 (Z.of_nat 3) = Exit 0 \/
  exists T' : list Z,
    add hc 3 (Z.of_nat 3) = Ret (T' ++ drop 4 hc) /\
    length T' = 4%nat /\ Sorted Z.le T' /\
    (codes_ok 3 (take 3 hc) ->
     codes_ok 3 T' /\
     forall i, (i < 3)%nat ->
       exists d : nat, (d <= 1)%nat /\
         digit_count T' i 1 = (digit_count (take 3 hc) i 1 + d)%nat /\
         digit_count T' i 2 = (digit_count (take 3 hc) i 2 + d)%nat).
Proof.
  apply (add_step [1; 8; 3; 0] 3 3); [lia|simpl; lia|unfold INT_MAX; lia|by_compute].
Defined.

(** X23. After [getbase] for [2 <= k <= 19] weighings no coin can be added with the
    same number of weighings: [add] ends the program with status 0.  (The
    caller [weigh_static] adds coins with [k + 1] weighings.) *)
Theorem add_after_getbase (k : nat) (b hc : list Z) :
  (2 <= k <= 19)%nat -> n_sat k < Z.of_nat (length b) ->
  getbase k b = Ret hc ->
  add hc k (n_sat k) = Exit 0.
Proof.
  intros [Hk _] Hb Hget.
  destruct (getbase_eq_table k b Hk ltac:(lia)) as (Hget' & Hlen & Hok).
  rewrite Hget in Hget'. injection Hget' as ->.
  rewrite <- Hlen. rewrite add_eq_table.
  - rewrite take_app_length. by rewrite add_table_saturated.
  - rewrite length_app, length_drop. lia.
Qed.

Lemma add_after_getbase_witness :
  add [1; 8; 3; 0] 2 (n_sat 2) = Exit 0.
Proof.
  apply (add_after_getbase 2 [0; 0; 0; 0] [1; 8; 3; 0]); [lia|by vm_compute|reflexivity].
Defined.

(** ** Properties of the order of the tables *)

Lemma Sorted_weaken (R R' : Z -> Z -> Prop) (l : list Z) :
  (forall x y, R x y -> R' x y) -> Sorted R l -> Sorted R' l.
Proof.
  intros HR. induction 1 as [|x l _ IH Hhd]; constructor; [done|].
  destruct Hhd; constructor. by apply HR.
Qed.

(** X25. [compare] is a comparison function as [qsort] needs one: it
    returns -1, 0 or 1, exchanging the arguments changes the sign, it
    returns 0 on equal numbers only, and "not greater" is the order of the
    integers, so it is transitive; the cells [qsort] puts in order are in
    this order, and the cells behind them are kept. *)
Theorem compare_order (a b c : Z) (hc : list Z) (n : nat) :
  (compare a b = -1 \/ compare a b = 0 \/ compare a b = 1) /\
  compare a b = - compare b a /\
  (compare a b = 0 <-> a = b) /\
  (compare a b <= 0 <-> a <= b) /\
  (compare a b <= 0 -> compare b c <= 0 -> compare a c <= 0) /\
  Sorted (fun x y => compare x y <= 0) (take n (qsort hc (Z.of_nat n))) /\
  take n (qsort hc (Z.of_nat n)) ≡ₚ take n hc /\
  drop n (qsort hc (Z.of_nat n)) = drop n hc.
Proof.
  assert (Hle : forall x y, compare x y <= 0 <-> x <= y).
  { intros x y. unfold compare.
    destruct (Z.ltb_spec x y); [lia|]. destruct (Z.eqb_spec x y); lia. }
  split; [|split; [|split; [|split; [|split]]]].
  - unfold compare. destruct (a <? b); [auto|]. destruct (a =? b); auto.
  - unfold compare.
    destruct (Z.ltb_spec a b), (Z.ltb_spec b a), (Z.eqb_spec a b), (Z.eqb_spec b a); lia.
  - unfold compare. destruct (Z.ltb_spec a b); [lia|]. destruct (Z.eqb_spec a b); lia.
  - apply Hle.
  - rewrite !Hle. lia.
  - rewrite qsort_spec.
    assert (Hlen : length (merge_sort Z.le (take n hc)) = length (take n hc)).
    { by rewrite merge_sort_Permutation. }
    assert (Htake : take n (merge_sort Z.le (take n hc) ++ drop n hc)
                    = merge_sort Z.le (take n hc)).
    { destruct (decide (n <= length hc)%nat) as [Hn|Hn].
      - rewrite take_app_length'; [done|]. rewrite Hlen, length_take. lia.
      - rewrite drop_ge by lia. rewrite app_nil_r. apply take_ge.
        rewrite Hlen, length_take. lia. }
    assert (Hdrop : drop n (merge_sort Z.le (take n hc) ++ drop n hc) = drop n hc).
    { destruct (decide (n <= length hc)%nat) as [Hn|Hn].
      - rewrite drop_app_length'; [done|]. rewrite Hlen, length_take. lia.
      - rewrite (drop_ge hc) by lia. rewrite app_nil_r. apply drop_ge.
        rewrite Hlen, length_take. lia. }
    rewrite Htake, Hdrop. split; [|split; [apply merge_sort_Permutation|done]].
    apply (Sorted_weaken Z.le); [|apply Sorted_merge_sort; apply _].
    intros x y Hxy. by apply Hle.
Qed.

(** ** Properties of [main] *)

Lemma main_options_spec (opts : list cli_option) (n v s : Z) :
  main_options opts (n, v, s)
  = if decide (opt_other ∈ opts) then Exit 0
    else Ret (fold_left (fun n o => match o with opt_n v => v | _ => n end) opts n,
              if decide (opt_q ∈ opts) then 0 else v,
              if decide (opt_s ∈ opts) then 1 else s).
Proof.
  revert n v s. induction opts as [|o opts IH]; intros n v s.
  - cbn [main_options fold_left]. rewrite !decide_False by (by intros ?%elem_of_nil). done.
  - cbn [main_options fold_left]. destruct o as [x| | |].
    + rewrite IH. repeat case_decide; set_solver.
    + rewrite IH. repeat case_decide; set_solver.
    + rewrite IH. repeat case_decide; set_solver.
    + rewrite decide_True by set_solver. done.
Qed.

(** X24. Whatever the command line, as long as the number [n] of coins
    asked for is one the solvers compute in [int] ([2 n + 2 <= INT_MAX],
    and [n <= n_sat 19] with the option [-s]), [main] ends with status 0
    (after [usage], for fewer than 3 coins, or after "add failure") or
    prints the least number [d] of weighings with [2 n + 3 <= 3 ^ d]; it
    calls no solver for fewer than 3 coins, and without the option [-s] it
    always prints this number for [n >= 3]. *)
Theorem main_result (fuel : nat) (opts : list cli_option) :
  let n := cli_n_coins opts in
  2 * n + 2 <= INT_MAX -> (opt_s ∈ opts -> n <= n_sat 19) ->
  (2 * Z.to_nat n + 2 <= fuel)%nat ->
  (main fuel opts = Exit 0 \/
   exists d, main fuel opts = Ret d /\
             3 <= n /\ 2 * n + 3 <= 3 ^ d /\ 3 ^ (d - 1) < 2 * n + 3) /\
  (opt_other ∈ opts \/ n < 3 -> main fuel opts = Exit 0) /\
  (opt_other ∉ opts -> opt_s ∉ opts -> 3 <= n -> exists d, main fuel opts = Ret d).
Proof.
  intros n Hmax _ Hfuel. unfold main. rewrite main_options_spec. fold (cli_n_coins opts). fold n.
  destruct (decide (opt_other ∈ opts)) as [Ho|Ho].
  { cbn [mbind result_bind rbind]. split; [by left|]. split; [done|]. done. }
  cbn [mbind result_bind rbind].
  destruct (Z.ltb_spec n 3) as [Hlt|Hge].
  { split; [by left|]. split; [done|]. intros _ _ ?. lia. }
  destruct (weigh_sequential_root_depth n ltac:(lia)) as (d & Hrun & (_ & Hup & Hlo) & Hd).
  destruct (decide (opt_s ∈ opts)) as [Hs|Hs]; cbn [negb Z.eqb].
  - split; [|split; [intros [?|?]; (done || lia)|done]].
    destruct (weigh_static fuel n) as [d'| | |] eqn:Hst.
    + right. exists d'. split; [done|]. split; [done|].
      pose proof (weigh_static_depth_of n fuel d' ltac:(lia) Hst) as Hd'.
      destruct Hd' as (Hd0 & Hup' & Hlo'). split; [done|]. apply Hlo'.
      destruct (decide (0 < d')); [done|]. exfalso.
      assert (d' = 0) as -> by lia. simpl in Hup'. lia.
    + destruct (find_base_total n fuel 2 0) as [[k n0] Hfb]; [lia|lia|rewrite n_sat_2; lia|].
      destruct (weigh_static_cases fuel n k n0 ltac:(lia) Hfb) as (_ & _ & _ & _ & _ & _ & Heq).
      rewrite Heq in Hst. destruct (add_tables _ _ _); [done|]. injection Hst as <-. by left.
    + destruct (find_base_total n fuel 2 0) as [[k n0] Hfb]; [lia|lia|rewrite n_sat_2; lia|].
      destruct (weigh_static_cases fuel n k n0 ltac:(lia) Hfb) as (_ & _ & _ & _ & _ & _ & Heq).
      rewrite Heq in Hst. by destruct (add_tables _ _ _).
    + destruct (find_base_total n fuel 2 0) as [[k n0] Hfb]; [lia|lia|rewrite n_sat_2; lia|].
      destruct (weigh_static_cases fuel n k n0 ltac:(lia) Hfb) as (_ & _ & _ & _ & _ & _ & Heq).
      rewrite Heq in Hst. by destruct (add_tables _ _ _).
  - rewrite Hrun by done.
    split; [|split; [intros [?|?]; (done || lia)|intros _ _ _; by exists d]].
    right. exists d. split; [done|]. split; [done|]. split; [done|]. by apply Hlo.
Qed.

Lemma main_result_witness :
  let opts := [opt_q; opt_n 13] in
  let n := cli_n_coins opts in
  (main 28 opts = Exit 0 \/
   exists d, main 28 opts = Ret d /\
             3 <= n /\ 2 * n + 3 <= 3 ^ d /\ 3 ^ (d - 1) < 2 * n + 3) /\
  (opt_other ∈ opts \/ n < 3 -> main 28 opts = Exit 0) /\
  (opt_other ∉ opts -> opt_s ∉ opts -> 3 <= n -> exists d, main 28 opts = Ret d).
Proof.
  apply (main_result 28 [opt_q; opt_n 13]); [by_compute|intros _; by_compute|by_compute].
Defined.

(** ** The range of [int] *)

(** Within the bounds of the properties above the numbers of the program are
    values of [int]: the powers that [ipow] runs through, the complements
    of [op], the codes that [mcomplement] builds, and the cells and the
    size of the array of [new_coins]. *)
Lemma pow3_in_int (k : nat) : (k <= 19)%nat -> in_int (3 ^ Z.of_nat k).
Proof.
  intros Hk.
  assert (H : 3 ^ Z.of_nat k <= 3 ^ 19) by (apply Z.pow_le_mono_r; lia).
  pose proof (pow3_pos k). assert (E : 3 ^ 19 = 1162261467) by reflexivity.
  unfold in_int, INT_MAX. lia.
Qed.

Lemma pow3_20_not_int : ~ in_int (3 ^ 20).
Proof. unfold in_int, INT_MAX. assert (E : 3 ^ 20 = 3486784401) by reflexivity. lia. Qed.

Lemma ipow_in_int (j n : nat) : (j <= n)%nat -> (n <= 19)%nat -> in_int (ipow 3 j).
Proof. intros Hj Hn. rewrite ipow_spec. apply pow3_in_int. lia. Qed.

Lemma op_in_int (x : Z) : 0 <= x < 3 ^ 19 -> in_int (op x).
Proof.
  intros Hx. pose proof (op_bounds 19 x Hx) as H.
  pose proof (pow3_in_int 19 ltac:(lia)) as Hp.
  unfold in_int in *. lia.
Qed.

Lemma mcomplement_in_int (m hc : Z) (k : nat) :
  (k <= 19)%nat -> 0 <= m -> 0 <= hc -> in_int (mcomplement m hc k).
Proof.
  intros Hk Hm Hh. rewrite mcomplement_spec by done.
  pose proof (pow3_in_int k Hk) as Hp.
  destruct (mcomplement_digits m hc k) as [t|] eqn:Ht; simpl.
  - destruct (mcomplement_digits_digit k m hc t Hm Hh Ht) as [Hr _].
    unfold in_int in *. lia.
  - unfold in_int, INT_MAX. lia.
Qed.

Lemma n_sat_19 : n_sat 19 = 581130732.
Proof. reflexivity. Qed.

Lemma new_coins_in_int (n : Z) :
  0 < n -> 2 * n + 2 <= INT_MAX ->
  Forall in_int (new_coins n) /\ Z.of_nat (length (new_coins n)) = 2 * n + 2.
Proof.
  intros Hn Hmax. destruct (new_coins_set n ltac:(lia)) as (_ & Hin & Hlen).
  rewrite new_coins_eq. split.
  - apply Forall_app. split.
    + apply Forall_forall. intros x Hx%Hin. unfold in_int. lia.
    + repeat constructor; unfold INT_MAX; lia.
  - rewrite length_app, Nat2Z.inj_add, Hlen. simpl. lia.
Qed.
